(** * 2D rectangle packing: a shallow embedding of the Python sources

    The development follows the layout of the repository:
    - [Core]       src/core/problem.py, src/core/solution.py, src/core/geometry.py
    - [Symmetry]   src/utils/symmetry.py
    - [FreeRects]  packing.py (FreeRectangleManager)
    - [Solvers]    src/solvers/{mathematical,greedy,backtrack,hybrid}_solver.py
    - [Solution]   src/core/solution.py (PackingSolution's methods)
    - [Validation] src/utils/validation.py
    - [Packing]    packing.py (FreeRectangleManager's other methods and the
                   module-level helpers)
    - [Equivalence], [HybridAll]  the remaining entry points of
                   src/utils/symmetry.py and src/solvers/hybrid_solver.py

    The definitions come first; the properties follow, one module of facts
    per part of the sources.

    Python integers are unbounded, so they are [Z]; strings are [string];
    a [TilePosition] is the 5-tuple of the source.  The one float
    computation the solvers branch on, [PackingSolution.efficiency], is
    carried out on doubles written as [m * 2^e], with their rounding. *)

From Stdlib Require Import ZArith Lia QArith Qabs.
From stdpp Require Import base decidable option list sets gmap strings sorting pretty.

Local Open Scope Z_scope.

(* stdpp's [naive_solver] clears hypotheses by generated names. *)
Set Warnings "-clear-no-such-hyp".

(* ===================================================================== *)
(** ** Core data model *)
(* ===================================================================== *)

Module Core.

(** src/core/solution.py: [TilePosition = Tuple[int, int, int, int, str]],
    read as (x, y, width, height, orientation). *)
Definition TilePosition : Type := Z * Z * Z * Z * string.

Definition tp_x (t : TilePosition) : Z := let '(x, _, _, _, _) := t in x.
Definition tp_y (t : TilePosition) : Z := let '(_, y, _, _, _) := t in y.
Definition tp_w (t : TilePosition) : Z := let '(_, _, w, _, _) := t in w.
Definition tp_h (t : TilePosition) : Z := let '(_, _, _, h, _) := t in h.
Definition tp_o (t : TilePosition) : string := let '(_, _, _, _, o) := t in o.

(** src/core/problem.py: the fields of [PackingProblem].  [max_tiles] is
    [Optional[int]]. *)
Record PackingProblem : Type := mkProblem {
  container_w : Z;
  container_h : Z;
  tile_w : Z;
  tile_h : Z;
  max_tiles : option Z;
  allow_rotation : bool;
  require_centering : bool
}.

(** The exception raised by [__post_init__], with its message. *)
Inductive Error : Type :=
| ValueError (msg : string).

(** [PackingProblem.__post_init__]: the three guards, in source order. *)
Definition post_init (p : PackingProblem) : Error + PackingProblem :=
  if (container_w p <=? 0) || (container_h p <=? 0) then
    inl (ValueError "Container dimensions must be positive")
  else if (tile_w p <=? 0) || (tile_h p <=? 0) then
    inl (ValueError "Tile dimensions must be positive")
  else if (tile_w p >? container_w p) || (tile_h p >? container_h p) then
    inl (ValueError "Tile cannot fit in container")
  else inr p.

(** Calling the dataclass constructor: build the record, then validate. *)
Definition new_problem (cw ch tw th : Z) (mt : option Z) (rot cen : bool)
  : Error + PackingProblem :=
  post_init (mkProblem cw ch tw th mt rot cen).

Definition container_area (p : PackingProblem) : Z := container_w p * container_h p.
Definition tile_area (p : PackingProblem) : Z := tile_w p * tile_h p.

(** [theoretical_max_tiles]: Python's [//] is floor division, and so is
    [Z.div] (the remainder takes the sign of the divisor); a constructed
    problem has a positive [tile_area], so the division by zero that Python
    would raise cannot occur. *)
Definition theoretical_max_tiles (p : PackingProblem) : Z :=
  container_area p / tile_area p.

(** A problem that passed [__post_init__]. *)
Definition valid_problem (p : PackingProblem) : Prop := post_init p = inr p.

(** [problem.max_tiles or problem.theoretical_max_tiles]: [None] and [0]
    are falsy. *)
Definition tile_budget (p : PackingProblem) : Z :=
  match max_tiles p with
  | Some m => if m =? 0 then theoretical_max_tiles p else m
  | None => theoretical_max_tiles p
  end.

(** src/core/solution.py: [PackingSolution].  [solve_time] (a wall-clock
    float) and the free-form [metadata] dictionary are not carried: no
    operation below reads them. *)
Record PackingSolution : Type := mkSolution {
  tile_positions : list TilePosition;
  sol_container_w : Z;
  sol_container_h : Z;
  solver_name : string
}.

Definition num_tiles (s : PackingSolution) : Z := Z.of_nat (length (tile_positions s)).

(** *** src/core/geometry.py *)

Definition rotate_point_90 (x y cw ch : Z) : Z * Z := (ch - 1 - y, x).
Definition rotate_point_180 (x y cw ch : Z) : Z * Z := (cw - 1 - x, ch - 1 - y).
Definition rotate_point_270 (x y cw ch : Z) : Z * Z := (y, cw - 1 - x).

Definition rotate_tile_90 (tile : TilePosition) (cw ch : Z) : TilePosition :=
  let '(x, y, w, h, orientation) := tile in
  let '(new_x, new_y) := rotate_point_90 (x + w - 1) y cw ch in
  let new_x := new_x - h + 1 in
  (new_x, new_y, h, w, orientation).

Definition rotate_tile_180 (tile : TilePosition) (cw ch : Z) : TilePosition :=
  let '(x, y, w, h, orientation) := tile in
  let '(new_x, new_y) := rotate_point_180 (x + w - 1) (y + h - 1) cw ch in
  let new_x := new_x - w + 1 in
  let new_y := new_y - h + 1 in
  (new_x, new_y, w, h, orientation).

Definition rotate_tile_270 (tile : TilePosition) (cw ch : Z) : TilePosition :=
  let '(x, y, w, h, orientation) := tile in
  let '(new_x, new_y) := rotate_point_270 x (y + h - 1) cw ch in
  let new_y := new_y - w + 1 in
  (new_x, new_y, h, w, orientation).

Definition rotate_solution_90 (positions : list TilePosition) (cw ch : Z) :=
  map (fun tile => rotate_tile_90 tile cw ch) positions.
Definition rotate_solution_180 (positions : list TilePosition) (cw ch : Z) :=
  map (fun tile => rotate_tile_180 tile cw ch) positions.
Definition rotate_solution_270 (positions : list TilePosition) (cw ch : Z) :=
  map (fun tile => rotate_tile_270 tile cw ch) positions.

Definition translate_solution (positions : list TilePosition) (offset_x offset_y : Z)
  : list TilePosition :=
  map (fun '(x, y, w, h, orientation) => (x + offset_x, y + offset_y, w, h, orientation))
      positions.

(** Python's [min(...)] and [max(...)] over a generator: only called on
    non-empty input by the code below; the first element seeds the fold. *)
Definition py_min (l : list Z) : Z :=
  match l with [] => 0 | a :: l' => foldl Z.min a l' end.
Definition py_max (l : list Z) : Z :=
  match l with [] => 0 | a :: l' => foldl Z.max a l' end.

Definition min_x (ps : list TilePosition) : Z := py_min (map tp_x ps).
Definition min_y (ps : list TilePosition) : Z := py_min (map tp_y ps).
Definition max_x (ps : list TilePosition) : Z := py_max (map (fun t => tp_x t + tp_w t) ps).
Definition max_y (ps : list TilePosition) : Z := py_max (map (fun t => tp_y t + tp_h t) ps).

(** [center_solution]; [//] is floor division by the positive constant 2. *)
Definition center_solution (positions : list TilePosition) (cw ch : Z)
  : list TilePosition :=
  match positions with
  | [] => positions
  | _ =>
    let used_w := max_x positions - min_x positions in
    let used_h := max_y positions - min_y positions in
    let offset_x := (cw - used_w) / 2 - min_x positions in
    let offset_y := (ch - used_h) / 2 - min_y positions in
    translate_solution positions offset_x offset_y
  end.

Definition calculate_bounding_box (positions : list TilePosition) : Z * Z * Z * Z :=
  match positions with
  | [] => (0, 0, 0, 0)
  | _ => (min_x positions, min_y positions, max_x positions, max_y positions)
  end.

(** src/utils/validation.py: [rectangles_overlap] (open-interval overlap). *)
Definition rectangles_overlap (x1 y1 w1 h1 x2 y2 w2 h2 : Z) : bool :=
  negb ((x1 + w1 <=? x2) || (x2 + w2 <=? x1) || (y1 + h1 <=? y2) || (y2 + h2 <=? y1)).

End Core.

(* ===================================================================== *)
(** ** Symmetry: src/utils/symmetry.py *)
(* ===================================================================== *)

Module Symmetry.
Import Core.

(** Python compares tuples lexicographically; on integers that is [<?],
    on [str] it is the code-point order, which [String.ltb] computes. *)
Definition tile_lt (a b : TilePosition) : bool :=
  let '(x1, y1, w1, h1, o1) := a in
  let '(x2, y2, w2, h2, o2) := b in
  if negb (x1 =? x2) then x1 <? x2
  else if negb (y1 =? y2) then y1 <? y2
  else if negb (w1 =? w2) then w1 <? w2
  else if negb (h1 =? h2) then h1 <? h2
  else String.ltb o1 o2.

(** [<] on tuples of tile tuples: the first differing element decides, a
    proper prefix is smaller. *)
Fixpoint tiles_lt (a b : list TilePosition) : bool :=
  match a, b with
  | [], [] => false
  | [], _ :: _ => true
  | _ :: _, [] => false
  | t1 :: a', t2 :: b' =>
      if bool_decide (t1 = t2) then tiles_lt a' b' else tile_lt t1 t2
  end.

(** The sort key [lambda t: (t[1], t[0], t[2], t[3])] and [<=] on it. *)
Definition sort_key (t : TilePosition) : Z * Z * Z * Z :=
  (tp_y t, tp_x t, tp_w t, tp_h t).

Definition key_le (a b : Z * Z * Z * Z) : bool :=
  let '(a1, a2, a3, a4) := a in
  let '(b1, b2, b3, b4) := b in
  if negb (a1 =? b1) then a1 <? b1
  else if negb (a2 =? b2) then a2 <? b2
  else if negb (a3 =? b3) then a3 <? b3
  else a4 <=? b4.

(** [sorted(transform, key=...)]: Python's sort is stable, and a stable
    sort is determined by the key order; insertion from the right keeps
    equal keys in input order. *)
Fixpoint insert_by_key (t : TilePosition) (l : list TilePosition) : list TilePosition :=
  match l with
  | [] => [t]
  | u :: l' =>
      if key_le (sort_key t) (sort_key u) then t :: u :: l'
      else u :: insert_by_key t l'
  end.

Definition sorted_by_key (l : list TilePosition) : list TilePosition :=
  foldr insert_by_key [] l.

(** [min(canonical_forms)]: the first smallest element. *)
Definition min_form (forms : list (list TilePosition)) : list TilePosition :=
  match forms with
  | [] => []
  | f :: fs => foldl (fun cur item => if tiles_lt item cur then item else cur) f fs
  end.

Definition mirror_solution_horizontal (positions : list TilePosition) (cw : Z)
  : list TilePosition :=
  map (fun '(x, y, w, h, orientation) => (cw - x - w, y, w, h, orientation)) positions.

Definition mirror_solution_vertical (positions : list TilePosition) (ch : Z)
  : list TilePosition :=
  map (fun '(x, y, w, h, orientation) => (x, ch - y - h, w, h, orientation)) positions.

(** The eight lists built by [get_canonical_form], in the order the
    source appends them. *)
Definition transforms (positions : list TilePosition) (cw ch : Z)
  : list (list TilePosition) :=
  let rots := [positions;
               rotate_solution_90 positions cw ch;
               rotate_solution_180 positions cw ch;
               rotate_solution_270 positions cw ch] in
  rots ++ map (fun transform => mirror_solution_horizontal transform cw) rots.

Definition get_canonical_form (positions : list TilePosition) (cw ch : Z)
  : list TilePosition :=
  match positions with
  | [] => []
  | _ => min_form (map sorted_by_key (transforms positions cw ch))
  end.

Definition positions_equivalent (pos1 pos2 : list TilePosition) : bool :=
  if negb (length pos1 =? length pos2)%nat then false
  else bool_decide (sorted_by_key pos1 = sorted_by_key pos2).

Definition detect_symmetry_type (positions : list TilePosition) (cw ch : Z)
  : list string :=
  let symmetries := [] in
  let symmetries :=
    if positions_equivalent positions (rotate_solution_90 positions cw ch)
    then symmetries ++ ["rotational_90"] else symmetries in
  let symmetries :=
    if positions_equivalent positions (rotate_solution_180 positions cw ch)
    then symmetries ++ ["rotational_180"] else symmetries in
  let symmetries :=
    if positions_equivalent positions (rotate_solution_270 positions cw ch)
    then symmetries ++ ["rotational_270"] else symmetries in
  let symmetries :=
    if positions_equivalent positions (mirror_solution_horizontal positions cw)
    then symmetries ++ ["mirror_horizontal"] else symmetries in
  let symmetries :=
    if positions_equivalent positions (mirror_solution_vertical positions ch)
    then symmetries ++ ["mirror_vertical"] else symmetries in
  symmetries.

(** [deduplicate_solutions]: the loop over [solutions] with its
    accumulator [unique_solutions] and the set [seen_canonical_forms]. *)
Fixpoint dedup_loop (cw ch : Z) (solutions : list PackingSolution)
    (unique_solutions : list PackingSolution)
    (seen_canonical_forms : gset (list TilePosition)) : list PackingSolution :=
  match solutions with
  | [] => unique_solutions
  | solution :: rest =>
      let canonical_form := get_canonical_form (tile_positions solution) cw ch in
      if bool_decide (canonical_form ∈ seen_canonical_forms)
      then dedup_loop cw ch rest unique_solutions seen_canonical_forms
      else dedup_loop cw ch rest (unique_solutions ++ [solution])
                      ({[canonical_form]} ∪ seen_canonical_forms)
  end.

Definition deduplicate_solutions (solutions : list PackingSolution)
    (problem : PackingProblem) : list PackingSolution :=
  match solutions with
  | [] => solutions
  | _ => dedup_loop (container_w problem) (container_h problem) solutions [] ∅
  end.

(** The eight dihedral transforms as the spec names them, each realised by
    the source's own functions: a rotation, optionally followed by the
    horizontal mirror. *)
Inductive Dihedral : Type :=
| Id | Rot90 | Rot180 | Rot270
| MirrorId | MirrorRot90 | MirrorRot180 | MirrorRot270.

Definition apply_dihedral (T : Dihedral) (positions : list TilePosition) (cw ch : Z)
  : list TilePosition :=
  match T with
  | Id => positions
  | Rot90 => rotate_solution_90 positions cw ch
  | Rot180 => rotate_solution_180 positions cw ch
  | Rot270 => rotate_solution_270 positions cw ch
  | MirrorId => mirror_solution_horizontal positions cw
  | MirrorRot90 => mirror_solution_horizontal (rotate_solution_90 positions cw ch) cw
  | MirrorRot180 => mirror_solution_horizontal (rotate_solution_180 positions cw ch) cw
  | MirrorRot270 => mirror_solution_horizontal (rotate_solution_270 positions cw ch) cw
  end.

(** The solutions the loop of [deduplicate_solutions] appends when started
    with the set [seen]: those whose canonical form is neither in [seen]
    nor carried by an earlier element. *)
Fixpoint kept (cw ch : Z) (seen : gset (list TilePosition)) (l : list PackingSolution)
  : list PackingSolution :=
  match l with
  | [] => []
  | s :: rest =>
      let canon := get_canonical_form (tile_positions s) cw ch in
      if bool_decide (canon ∈ seen) then kept cw ch seen rest
      else s :: kept cw ch ({[canon]} ∪ seen) rest
  end.

(** The arrangement used by the repository's own test
    [test_rotated_solutions_same_canonical]. *)
Definition two_tiles : list TilePosition :=
  [(0, 0, 5, 3, "original"); (5, 0, 5, 3, "original")].

End Symmetry.

(* ===================================================================== *)
(** ** Free rectangles: packing.py, class FreeRectangleManager *)
(* ===================================================================== *)

Module FreeRects.

(** A free rectangle is the tuple (x, y, width, height). *)
Definition Rect : Type := Z * Z * Z * Z.

(** The two tests of the inner loop of [_merge_rectangles]. *)
Definition can_merge_horizontally (rect1 rect2 : Rect) : bool :=
  let '(x1, y1, w1, h1) := rect1 in
  let '(x2, y2, w2, h2) := rect2 in
  (y1 =? y2) && (h1 =? h2) && ((x1 + w1 =? x2) || (x2 + w2 =? x1)).

Definition can_merge_vertically (rect1 rect2 : Rect) : bool :=
  let '(x1, y1, w1, h1) := rect1 in
  let '(x2, y2, w2, h2) := rect2 in
  (x1 =? x2) && (w1 =? w2) && ((y1 + h1 =? y2) || (y2 + h2 =? y1)).

(** The inner [for j, rect2 in enumerate(self.free_rects[i+1:], i+1)]:
    skip used indices, stop at the first rectangle that merges with
    [rect1], and return its index with the merged rectangle. *)
Fixpoint find_partner (rect1 : Rect) (j : nat) (rest : list Rect) (used : gset nat)
  : option (nat * Rect) :=
  match rest with
  | [] => None
  | rect2 :: rest' =>
      if bool_decide (j ∈ used) then find_partner rect1 (S j) rest' used
      else
        let '(x1, y1, w1, h1) := rect1 in
        let '(x2, y2, w2, h2) := rect2 in
        if can_merge_horizontally rect1 rect2 then
          Some (j, (Z.min x1 x2, y1, w1 + w2, h1))
        else if can_merge_vertically rect1 rect2 then
          Some (j, (x1, Z.min y1 y2, w1, h1 + h2))
        else find_partner rect1 (S j) rest' used
  end.

(** The state of one pass: [new_rects], [used], [merged]. *)
Definition PassState : Type := list Rect * gset nat * bool.

(** The outer [for i, rect1 in enumerate(self.free_rects)], from index [i]
    on; [l] is [self.free_rects[i:]]. *)
Fixpoint merge_pass_from (i : nat) (l : list Rect) (st : PassState) : PassState :=
  match l with
  | [] => st
  | rect1 :: rest =>
      let '(new_rects, used, merged) := st in
      if bool_decide (i ∈ used) then merge_pass_from (S i) rest st
      else
        match find_partner rect1 (S i) rest used with
        | Some (j, m) =>
            merge_pass_from (S i) rest (new_rects ++ [m], {[i]} ∪ {[j]} ∪ used, true)
        | None =>
            merge_pass_from (S i) rest (new_rects ++ [rect1], used, merged)
        end
  end.

(** One iteration of the [while merged] body: returns the new
    [self.free_rects] and the flag [merged]. *)
Definition merge_pass (free_rects : list Rect) : list Rect * bool :=
  let '(new_rects, _, merged) := merge_pass_from 0 free_rects ([], ∅, false) in
  (new_rects, merged).

(** [_merge_rectangles]: the [while merged] loop, with a bound on the
    number of passes; [None] means the bound was hit. *)
Fixpoint merge_rectangles (fuel : nat) (free_rects : list Rect) : option (list Rect) :=
  match fuel with
  | O => None
  | S fuel' =>
      let '(new_rects, merged) := merge_pass free_rects in
      if merged then merge_rectangles fuel' new_rects else Some new_rects
  end.

(** Two rectangles the merge pass would coalesce. *)
Definition mergeable (rect1 rect2 : Rect) : bool :=
  can_merge_horizontally rect1 rect2 || can_merge_vertically rect1 rect2.

(** No pair of distinct entries can be merged. *)
Definition merge_fixed_point (rects : list Rect) : Prop :=
  ∀ (i j : nat) (r1 r2 : Rect),
    i ≠ j → rects !! i = Some r1 → rects !! j = Some r2 → mergeable r1 r2 = false.

(** Number of indices of the slice starting at [i] that are still unused. *)
Definition unused (i n : nat) (used : gset nat) : nat :=
  length (filter (fun k => k ∉ used) (seq i n)).

End FreeRects.

(* ===================================================================== *)
(** ** Solvers: src/solvers/ *)
(* ===================================================================== *)

Module Solvers.
Import Core.

(** [range(lo, hi)] is [seqZ lo (hi - lo)]; [range(n)] is [seqZ 0 n]. *)
Definition py_range (lo hi : Z) : list Z := seqZ lo (hi - lo).

(** The slice [l[:n]]: a negative [n] counts from the end. *)
Definition py_take {A} (n : Z) (l : list A) : list A :=
  if n <? 0 then take (length l - Z.to_nat (- n)) l else take (Z.to_nat n) l.

(** *** mathematical_solver.py *)

(** An arrangement is (rows, cols, start_x, start_y, total_tiles). *)
Definition Arrangement : Type := Z * Z * Z * Z * Z.

Definition arr_total (a : Arrangement) : Z := let '(_, _, _, _, t) := a in t.

(** [arrangements.sort(key=lambda x: x[4], reverse=True)]: stable, largest
    key first. *)
Fixpoint insert_desc (a : Arrangement) (l : list Arrangement) : list Arrangement :=
  match l with
  | [] => [a]
  | b :: l' =>
      if arr_total b <=? arr_total a then a :: b :: l' else b :: insert_desc a l'
  end.

Definition sort_desc (l : list Arrangement) : list Arrangement := foldr insert_desc [] l.

Definition find_rectangular_arrangements (problem : PackingProblem) : list Arrangement :=
  let max_tiles := tile_budget problem in
  let arrangements :=
    rows ← py_range 1 (max_tiles + 1);
    cols ← py_range 1 (max_tiles / rows + 1);
    if rows * cols <=? max_tiles then
      let total_w := cols * tile_w problem in
      let total_h := rows * tile_h problem in
      if (total_w <=? container_w problem) && (total_h <=? container_h problem) then
        let start_x := (container_w problem - total_w) / 2 in
        let start_y := (container_h problem - total_h) / 2 in
        let total_tiles := rows * cols in
        [(rows, cols, start_x, start_y, total_tiles)]
      else []
    else [] in
  sort_desc arrangements.

(** [max(arrangements, key=lambda x: x[4])]: the first of the largest. *)
Definition max_by_total (a : Arrangement) (l : list Arrangement) : Arrangement :=
  foldl (fun best x => if arr_total x >? arr_total best then x else best) a l.

(** The double loop that lays the tiles of an arrangement out. *)
Definition grid_positions (problem : PackingProblem) (a : Arrangement)
  : list TilePosition :=
  let '(rows, cols, start_x, start_y, _) := a in
  r ← py_range 0 rows;
  c ← py_range 0 cols;
  [(start_x + c * tile_w problem, start_y + r * tile_h problem,
    tile_w problem, tile_h problem, "original")].

Definition mathematical_solve (problem : PackingProblem) : PackingSolution :=
  match find_rectangular_arrangements problem with
  | [] => mkSolution [] (container_w problem) (container_h problem) "Mathematical"
  | a :: arrangements =>
      let best_arrangement := max_by_total a arrangements in
      mkSolution (grid_positions problem best_arrangement)
                 (container_w problem) (container_h problem) "Mathematical"
  end.

Definition mathematical_solve_all_optimal (problem : PackingProblem) (max_solutions : Z)
  : list PackingSolution :=
  match find_rectangular_arrangements problem with
  | [] => []
  | a :: rest =>
      let arrangements := a :: rest in
      let max_tiles := py_max (map arr_total arrangements) in
      let optimal_arrangements :=
        filter (fun arr => arr_total arr = max_tiles) arrangements in
      map (fun arr => mkSolution (grid_positions problem arr)
                        (container_w problem) (container_h problem) "Mathematical")
          (py_take max_solutions optimal_arrangements)
  end.

(** *** greedy_solver.py *)

(** The cells [(fill_x, fill_y)] visited by the two nested loops over a
    footprint. *)
Definition footprint (x y w h : Z) : list (Z * Z) :=
  fill_x ← py_range x (x + w);
  fill_y ← py_range y (y + h);
  [(fill_x, fill_y)].

Definition can_place_at (x y w h : Z) (occupied : gset (Z * Z)) : bool :=
  forallb (fun c => negb (bool_decide (c ∈ occupied))) (footprint x y w h).

(** The loops [occupied.add((fill_x, fill_y))]. *)
Definition occupy (occupied : gset (Z * Z)) (x y w h : Z) : gset (Z * Z) :=
  foldl (fun occ c => {[c]} ∪ occ) occupied (footprint x y w h).

Definition find_best_bottom_left_position (problem : PackingProblem)
    (occupied : gset (Z * Z)) : option (Z * Z * Z * Z) :=
  let candidates :=
    y ← py_range 0 (container_h problem - tile_h problem + 1);
    x ← py_range 0 (container_w problem - tile_w problem + 1);
    [(x, y)] in
  match find (fun '(x, y) => can_place_at x y (tile_w problem) (tile_h problem) occupied)
             candidates with
  | Some (x, y) => Some (x, y, tile_w problem, tile_h problem)
  | None => None
  end.

(** [for _ in range(max_tiles)] with its [break]. *)
Fixpoint bottom_left_loop (problem : PackingProblem) (n : nat)
    (placed_tiles : list TilePosition) (occupied : gset (Z * Z)) : list TilePosition :=
  match n with
  | O => placed_tiles
  | S n' =>
      match find_best_bottom_left_position problem occupied with
      | None => placed_tiles
      | Some (x, y, w, h) =>
          bottom_left_loop problem n'
            (placed_tiles ++ [(x, y, w, h, "original")]) (occupy occupied x y w h)
      end
  end.

Definition solve_bottom_left (problem : PackingProblem) : list TilePosition :=
  bottom_left_loop problem (Z.to_nat (tile_budget problem)) [] ∅.

(** [positions.sort()] on the triples (distance, x, y). *)
Definition triple_le (a b : Z * Z * Z) : bool :=
  let '(d1, x1, y1) := a in
  let '(d2, x2, y2) := b in
  if negb (d1 =? d2) then d1 <? d2
  else if negb (x1 =? x2) then x1 <? x2
  else y1 <=? y2.

Fixpoint insert_triple (a : Z * Z * Z) (l : list (Z * Z * Z)) : list (Z * Z * Z) :=
  match l with
  | [] => [a]
  | b :: l' => if triple_le a b then a :: b :: l' else b :: insert_triple a l'
  end.

Definition sort_triples (l : list (Z * Z * Z)) : list (Z * Z * Z) :=
  foldr insert_triple [] l.

Definition center_out_candidates (problem : PackingProblem) : list (Z * Z * Z) :=
  let center_x := container_w problem / 2 in
  let center_y := container_h problem / 2 in
  let positions :=
    x ← py_range 0 (container_w problem);
    y ← py_range 0 (container_h problem);
    if (x + tile_w problem <=? container_w problem) &&
       (y + tile_h problem <=? container_h problem) then
      let tile_center_x := x + tile_w problem / 2 in
      let tile_center_y := y + tile_h problem / 2 in
      let distance := Z.abs (tile_center_x - center_x) + Z.abs (tile_center_y - center_y) in
      [(distance, x, y)]
    else [] in
  sort_triples positions.

(** [for distance, x, y in positions] with its [break]. *)
Fixpoint center_out_loop (problem : PackingProblem) (max_tiles : Z)
    (positions : list (Z * Z * Z))
    (placed_tiles : list TilePosition) (occupied : gset (Z * Z)) : list TilePosition :=
  match positions with
  | [] => placed_tiles
  | (distance, x, y) :: rest =>
      if Z.of_nat (length placed_tiles) >=? max_tiles then placed_tiles
      else if can_place_at x y (tile_w problem) (tile_h problem) occupied then
        center_out_loop problem max_tiles rest
          (placed_tiles ++ [(x, y, tile_w problem, tile_h problem, "original")])
          (occupy occupied x y (tile_w problem) (tile_h problem))
      else center_out_loop problem max_tiles rest placed_tiles occupied
  end.

Definition solve_center_out (problem : PackingProblem) : list TilePosition :=
  center_out_loop problem (tile_budget problem) (center_out_candidates problem) [] ∅.

(** [GreedySolver(strategy).solve]; the strategy is a string and an unknown
    one raises. *)
Definition greedy_solve (strategy : string) (problem : PackingProblem)
  : Error + PackingSolution :=
  if String.eqb strategy "bottom_left" then
    inr (mkSolution (solve_bottom_left problem)
           (container_w problem) (container_h problem) ("Greedy_" +:+ strategy))
  else if String.eqb strategy "center_out" then
    inr (mkSolution (solve_center_out problem)
           (container_w problem) (container_h problem) ("Greedy_" +:+ strategy))
  else inl (ValueError ("Unknown strategy: " +:+ strategy)).

(** *** backtrack_solver.py *)

(** The occupancy grid: [height] rows of [width] labels, 0 for empty. *)
Abbreviation Grid := (list (list Z)).

Definition new_grid (problem : PackingProblem) : Grid :=
  replicate (Z.to_nat (container_h problem))
            (replicate (Z.to_nat (container_w problem)) 0).

(** [len(grid[0])]. *)
Definition width (grid : Grid) : nat :=
  match grid with [] => O | row :: _ => length row end.

(** [grid[i][j]] for indices in range (the only ones the solver reads). *)
Definition cell (grid : Grid) (i j : nat) : Z :=
  default 0 (grid !! i ≫= fun row => row !! j).

(** [grid[i][j] = v] for indices in range (the only ones the solver
    writes: every write is guarded by [_can_place]). *)
Definition set_cell (grid : Grid) (i j : nat) (v : Z) : Grid :=
  alter (fun row => <[j := v]> row) i grid.

(** The cells in the order of
    [for row in range(len(grid)): for col in range(len(grid[0]))]. *)
Definition grid_cells (grid : Grid) : list (nat * nat) :=
  row ← seq 0 (length grid); col ← seq 0 (width grid); [(row, col)].

Definition find_first_empty (grid : Grid) : option (nat * nat) :=
  find (fun '(row, col) => cell grid row col =? 0) (grid_cells grid).

Definition can_place (grid : Grid) (r c h w : nat) : bool :=
  if (length grid <? r + h)%nat || (width grid <? c + w)%nat then false
  else forallb (fun i => forallb (fun j => cell grid i j =? 0) (seq c w)) (seq r h).

(** The two nested loops shared by [_place_tile] and [_remove_tile]:
    [for j in range(c, c + w): grid[i][j] = v] inside
    [for i in range(r, r + h)]. *)
Definition fill_row (grid : Grid) (i c w : nat) (v : Z) : Grid :=
  foldl (fun g j => set_cell g i j v) grid (seq c w).

Definition fill_tile (grid : Grid) (r c h w : nat) (v : Z) : Grid :=
  foldl (fun g i => fill_row g i c w v) grid (seq r h).

Definition place_tile (grid : Grid) (r c h w : nat) (tile_id : Z) : Grid :=
  fill_tile grid r c h w tile_id.

Definition remove_tile (grid : Grid) (r c h w : nat) : Grid :=
  fill_tile grid r c h w 0.

(** [while c + w < width and grid[r][c + w] == tile_id: w += 1]; the loop
    runs fewer than [width] times, which bounds the recursion. *)
Fixpoint grow_w (fuel : nat) (grid : Grid) (r c : nat) (tile_id : Z) (w : nat) : nat :=
  match fuel with
  | O => w
  | S fuel' =>
      if (c + w <? width grid)%nat && (cell grid r (c + w) =? tile_id)
      then grow_w fuel' grid r c tile_id (S w) else w
  end.

(** [while r + h < height and grid[r + h][c] == tile_id: h += 1]. *)
Fixpoint grow_h (fuel : nat) (grid : Grid) (r c : nat) (tile_id : Z) (h : nat) : nat :=
  match fuel with
  | O => h
  | S fuel' =>
      if (r + h <? length grid)%nat && (cell grid (r + h) c =? tile_id)
      then grow_h fuel' grid r c tile_id (S h) else h
  end.

(** The body of the double loop of [_extract_solution] at cell (r, c). *)
Definition extract_step (grid : Grid) (problem : PackingProblem)
    (tiles : gmap Z TilePosition) (rc : nat * nat) : gmap Z TilePosition :=
  let '(r, c) := rc in
  let tile_id := cell grid r c in
  if negb (tile_id =? 0) && negb (bool_decide (tile_id ∈ dom tiles)) then
    let w := Z.of_nat (grow_w (width grid) grid r c tile_id 1) in
    let h := Z.of_nat (grow_h (length grid) grid r c tile_id 1) in
    let orientation :=
      if (w =? tile_h problem) && (h =? tile_w problem) then "rotated" else "original" in
    <[tile_id := (Z.of_nat c, Z.of_nat r, w, h, orientation)]> tiles
  else tiles.

Definition extract_tiles (grid : Grid) (problem : PackingProblem) : gmap Z TilePosition :=
  foldl (extract_step grid problem) ∅ (grid_cells grid).

(** [[tiles[tid] for tid in sorted(tiles.keys())]]; the keys are distinct,
    so any sorting algorithm yields the same list. *)
Definition extract_solution (grid : Grid) (problem : PackingProblem) : list TilePosition :=
  let tiles := extract_tiles grid problem in
  omap (fun tid => tiles !! tid) (merge_sort Z.le (elements (dom tiles))).

(** The search state threaded through [_backtrack_solve]: the shared grid,
    the shared list [solutions], and the number of deadline polls made. *)
Definition SearchState : Type := Grid * list (list TilePosition) * nat.

Section Backtrack.
(** [expired n] is the outcome of the n-th evaluation of
    [time.time() - self._start_time > self.time_limit]. *)
Variable expired : nat → bool.

(** [_backtrack_solve]; [None] only when the recursion bound is hit.  (The
    interpreter's own recursion limit is a resource bound outside this
    model.) *)
Fixpoint backtrack_solve (fuel : nat) (grid : Grid) (tiles_left tile_id : Z)
    (solutions : list (list TilePosition)) (polls : nat)
    (problem : PackingProblem) (max_solutions : Z) : option SearchState :=
  match fuel with
  | O => None
  | S fuel' =>
      if expired polls then Some (grid, solutions, S polls)
      else
        let polls := S polls in
        if Z.of_nat (length solutions) >=? max_solutions
        then Some (grid, solutions, polls)
        else
          match find_first_empty grid with
          | None => Some (grid, solutions ++ [extract_solution grid problem], polls)
          | Some (row, col) =>
              if tiles_left =? 0 then
                Some (grid, solutions ++ [extract_solution grid problem], polls)
              else
                let th := Z.to_nat (tile_h problem) in
                let tw := Z.to_nat (tile_w problem) in
                '(grid, solutions, polls) ←
                  (if can_place grid row col th tw then
                     '(g, s, n) ← backtrack_solve fuel'
                                    (place_tile grid row col th tw tile_id)
                                    (tiles_left - 1) (tile_id + 1) solutions polls
                                    problem max_solutions;
                     Some (remove_tile g row col th tw, s, n)
                   else Some (grid, solutions, polls));
                if allow_rotation problem && negb (tile_w problem =? tile_h problem)
                   && can_place grid row col tw th then
                  '(g, s, n) ← backtrack_solve fuel'
                                 (place_tile grid row col tw th tile_id)
                                 (tiles_left - 1) (tile_id + 1) solutions polls
                                 problem max_solutions;
                  Some (remove_tile g row col tw th, s, n)
                else Some (grid, solutions, polls)
          end
  end.

(** Every recursive call follows the labelling of an empty cell, so the
    depth is at most the number of cells. *)
Definition backtrack_fuel (problem : PackingProblem) : nat :=
  S (Z.to_nat (container_h problem) * Z.to_nat (container_w problem)).

(** [BacktrackSolver.solve_all_optimal(problem, max_solutions)]. *)
Definition backtrack_solve_all_optimal (problem : PackingProblem) (max_solutions : Z)
  : option (list PackingSolution) :=
  let grid := new_grid problem in
  let max_tiles := tile_budget problem in
  '(_, solutions_list, _) ←
    backtrack_solve (backtrack_fuel problem) grid max_tiles 1 [] 0 problem max_solutions;
  match solutions_list with
  | [] => Some []
  | _ =>
      let max_tiles_found := py_max (map (fun sol => Z.of_nat (length sol)) solutions_list) in
      let optimal_solutions :=
        filter (fun sol => Z.of_nat (length sol) = max_tiles_found) solutions_list in
      Some (map (fun positions =>
                   mkSolution positions (container_w problem) (container_h problem)
                              "Backtrack")
                (py_take max_solutions optimal_solutions))
  end.

(** [BacktrackSolver.solve]. *)
Definition backtrack_solve_best (problem : PackingProblem) : option PackingSolution :=
  solutions ← backtrack_solve_all_optimal problem 1;
  match solutions with
  | s :: _ => Some s
  | [] => Some (mkSolution [] (container_w problem) (container_h problem) "Backtrack")
  end.

(** *** hybrid_solver.py *)

(** Python's [float] is an IEEE 754 double.  A non-negative one is
    [m * 2^e] with [0 <= m <= 2^53] and [-1074 <= e <= 971], or infinity. *)
Inductive PyFloat : Type :=
  | Finite (m e : Z)
  | Infinity.

(** [p / q] rounded to the nearest integer, a tie going to the even one
    ([0 <= p], [0 < q]). *)
Definition round_half_even (p q : Z) : Z :=
  let d := p / q in
  let r := p mod q in
  if 2 * r <? q then d
  else if q <? 2 * r then d + 1
  else if Z.even d then d else d + 1.

(** The double nearest to [p / q] ([0 <= p], [0 < q]), a tie going to the
    even mantissa: 53 bits are kept, the last of them worth at least
    [2^-1074]; past the largest double the result is infinity. *)
Definition nearest_double (p q : Z) : PyFloat :=
  if p =? 0 then Finite 0 0
  else
    let k := Z.log2 p - Z.log2 q in
    (* [floor (log2 (p / q))] is [k] or [k - 1] *)
    let fl := if q * 2 ^ Z.max 0 k <=? p * 2 ^ Z.max 0 (- k) then k else k - 1 in
    let e := Z.max (fl - 52) (-1074) in
    let m := round_half_even (p * 2 ^ Z.max 0 (- e)) (q * 2 ^ Z.max 0 e) in
    if (971 <? e) || ((e =? 971) && (m =? 2 ^ 53)) then Infinity else Finite m e.

(** [x * n] for a float [x] and a small positive [int] [n] (one that
    converts to a float exactly): the product is rounded once. *)
Definition py_float_mul_int (x : PyFloat) (n : Z) : PyFloat :=
  match x with
  | Finite m e => nearest_double (n * m * 2 ^ Z.max 0 e) (2 ^ Z.max 0 (- e))
  | Infinity => Infinity
  end.

(** [x >= n] for a float [x] and an [int] [n]; Python compares the two
    values exactly. *)
Definition py_float_ge_int (x : PyFloat) (n : Z) : bool :=
  match x with
  | Finite m e => n * 2 ^ Z.max 0 (- e) <=? m * 2 ^ Z.max 0 e
  | Infinity => true
  end.

(** [PackingSolution.efficiency >= 95], computed as the source does in
    floats: [total_tile_area / container_area] is the correctly rounded
    quotient of the two integers, the product with 100 is rounded again,
    and the result is compared with 95.  A quotient that is not positive
    gives an efficiency of at most 0.0, and the test fails.  The source
    raises where [container_area] is 0 (ZeroDivisionError) and where the
    quotient is past the largest double (OverflowError); neither happens
    for tiles placed inside a container of positive area. *)
Definition efficiency_at_least_95 (s : PackingSolution) : bool :=
  if num_tiles s =? 0 then false
  else
    let total_tile_area := foldr Z.add 0 (map (fun t => tp_w t * tp_h t) (tile_positions s)) in
    let container_area := sol_container_w s * sol_container_h s in
    if 0 <? total_tile_area * container_area then
      py_float_ge_int
        (py_float_mul_int
           (nearest_double (Z.abs total_tile_area) (Z.abs container_area)) 100)
        95
    else false.

(** [best_solution.solver_name = f"Hybrid({best_solution.solver_name})"]. *)
Definition tag_hybrid (s : PackingSolution) : PackingSolution :=
  mkSolution (tile_positions s) (sol_container_w s) (sol_container_h s)
             ("Hybrid(" +:+ solver_name s +:+ ")").

(** [HybridSolver.solve].  [ilp_solver] is the optional OR-tools tier
    ([None] when OR-tools is not installed); [over70] and [over80] are the
    outcomes of the two tests [elapsed > self.time_limit * 0.7] and
    [elapsed > self.time_limit * 0.8]. *)
Definition hybrid_solve (ilp_solver : option (PackingProblem → PackingSolution))
    (over70 over80 : bool) (problem : PackingProblem) : option PackingSolution :=
  let best_solution :=
    mkSolution [] (container_w problem) (container_h problem) "Hybrid" in
  (* Tier 1 *)
  let math_solution := mathematical_solve problem in
  let tier1_done :=
    (num_tiles math_solution >? 0) &&
    ((num_tiles math_solution >=? theoretical_max_tiles problem)
     || efficiency_at_least_95 math_solution) in
  let best_solution :=
    if num_tiles math_solution >? 0 then math_solution else best_solution in
  if tier1_done then Some (tag_hybrid best_solution)
  else
    (* Tier 2 *)
    let greedy_solution :=
      mkSolution (solve_center_out problem)
                 (container_w problem) (container_h problem) "Greedy_center_out" in
    let best_solution :=
      if num_tiles greedy_solution >? num_tiles best_solution
      then greedy_solution else best_solution in
    if num_tiles best_solution >=? theoretical_max_tiles problem
    then Some (tag_hybrid best_solution)
    else if over70 then Some best_solution
    else
      (* Tier 3 *)
      backtrack_solution ← backtrack_solve_best problem;
      let improved := num_tiles backtrack_solution >? num_tiles best_solution in
      let best_solution := if improved then backtrack_solution else best_solution in
      if improved && (num_tiles best_solution >=? theoretical_max_tiles problem)
      then Some (tag_hybrid best_solution)
      else
        (* [if elapsed > self.time_limit * 0.8 or not self.ilp_solver] *)
        match (if over80 then None else ilp_solver) with
        | None => Some best_solution
        | Some ilp_solve =>
            (* Tier 4 *)
            let ilp_solution := ilp_solve problem in
            let best_solution :=
              if num_tiles ilp_solution >? num_tiles best_solution
              then ilp_solution else best_solution in
            Some (tag_hybrid best_solution)
        end.
End Backtrack.

(** *** The properties claimed of a solution *)

Definition within_container (problem : PackingProblem) (t : TilePosition) : Prop :=
  let '(x, y, w, h, _) := t in
  0 <= x ∧ 0 <= y ∧ x + w <= container_w problem ∧ y + h <= container_h problem.

Definition tiles_overlap (t1 t2 : TilePosition) : bool :=
  rectangles_overlap (tp_x t1) (tp_y t1) (tp_w t1) (tp_h t1)
                     (tp_x t2) (tp_y t2) (tp_w t2) (tp_h t2).

(** Pairwise non-overlapping placements, all inside the container. *)
Definition placements_ok (problem : PackingProblem) (positions : list TilePosition) : Prop :=
  (∀ t, t ∈ positions → within_container problem t) ∧
  (∀ (i j : nat) t1 t2, i ≠ j → positions !! i = Some t1 → positions !! j = Some t2 →
     tiles_overlap t1 t2 = false).

(** The invariant of both greedy loops: the placements made so far are
    fine and their cells are all in [occupied]. *)
Definition greedy_inv (problem : PackingProblem) (placed : list TilePosition)
    (occupied : gset (Z * Z)) : Prop :=
  placements_ok problem placed ∧
  (∀ t, t ∈ placed → 0 < tp_w t ∧ 0 < tp_h t) ∧
  ∀ t c, t ∈ placed → c ∈ footprint (tp_x t) (tp_y t) (tp_w t) (tp_h t) → c ∈ occupied.

(** What every arrangement returned by [_find_rectangular_arrangements]
    satisfies. *)
Definition arrangement_fits (problem : PackingProblem) (a : Arrangement) : Prop :=
  let '(rows, cols, start_x, start_y, _) := a in
  1 <= rows ∧ 1 <= cols ∧
  cols * tile_w problem <= container_w problem ∧
  rows * tile_h problem <= container_h problem ∧
  start_x = (container_w problem - cols * tile_w problem) / 2 ∧
  start_y = (container_h problem - rows * tile_h problem) / 2.

(** *** The invariant of the backtracking search *)

(** A grid of [H] rows of [W] cells each. *)
Definition shaped (H W : nat) (grid : Grid) : Prop :=
  length grid = H ∧ ∀ i row, grid !! i = Some row → length row = W.

(** A footprint (r, c, h, w) on the grid and the cells it covers. *)
Definition Footprint : Type := nat * nat * nat * nat.

Definition in_rect (t : Footprint) (i j : nat) : Prop :=
  let '(r, c, h, w) := t in (r <= i < r + h)%nat ∧ (c <= j < c + w)%nat.

(** The grid holds exactly the footprints placed so far: the k-th one
    (counting from 0) is labelled k + 1, it lies on the grid, and every
    labelled cell belongs to one of them. *)
Record grid_inv (H W : nat) (grid : Grid) (rects : list Footprint) : Prop := {
  gi_shaped : shaped H W grid;
  gi_bounds : ∀ k r c h w, rects !! k = Some (r, c, h, w) →
                (0 < h ∧ 0 < w ∧ r + h <= H ∧ c + w <= W)%nat;
  gi_owned : ∀ k t i j, rects !! k = Some t → in_rect t i j →
               cell grid i j = Z.of_nat (S k);
  gi_label : ∀ i j, (i < H)%nat → (j < W)%nat → cell grid i j ≠ 0 →
               ∃ k t, rects !! k = Some t ∧ in_rect t i j
}.

(** The number of empty cells, which bounds the depth of the search. *)
Definition zeros (grid : Grid) : nat :=
  length (filter (fun rc => cell grid rc.1 rc.2 = 0) (grid_cells grid)).

(** An extracted placement lies inside the footprint that carries its label. *)
Definition extracted_from (rects : list Footprint) (tile_id : Z) (t : TilePosition) : Prop :=
  ∃ k r c h w, tile_id = Z.of_nat (S k) ∧ rects !! k = Some (r, c, h, w) ∧
    0 < tp_w t ∧ 0 < tp_h t ∧
    Z.of_nat c <= tp_x t ∧ tp_x t + tp_w t <= Z.of_nat (c + w) ∧
    Z.of_nat r <= tp_y t ∧ tp_y t + tp_h t <= Z.of_nat (r + h).

(** The 15x15 container with the 10x10 tile. *)
Definition single_tile_problem : PackingProblem :=
  mkProblem 15 15 10 10 None true true.

End Solvers.

(* ===================================================================== *)
(** ** More of the core: src/core/geometry.py, src/core/solution.py *)
(* ===================================================================== *)

Module Solution.
Import Core.

(** src/core/geometry.py: the two point mirrors. *)
Definition mirror_point_horizontal (x y cw ch : Z) : Z * Z := (cw - 1 - x, y).
Definition mirror_point_vertical (x y cw ch : Z) : Z * Z := (x, ch - 1 - y).

(** [PackingSolution.bounding_box]. *)
Definition bounding_box (s : PackingSolution) : Z * Z * Z * Z :=
  match tile_positions s with
  | [] => (0, 0, 0, 0)
  | _ => (min_x (tile_positions s), min_y (tile_positions s),
          max_x (tile_positions s), max_y (tile_positions s))
  end.

(** [PackingSolution.is_centered]. *)
Definition is_centered (s : PackingSolution) : bool :=
  match tile_positions s with
  | [] => true
  | _ =>
      let '(min_x, min_y, max_x, max_y) := bounding_box s in
      let used_w := max_x - min_x in
      let used_h := max_y - min_y in
      let expected_offset_x := (sol_container_w s - used_w) / 2 in
      let expected_offset_y := (sol_container_h s - used_h) / 2 in
      let tolerance := 1 in
      (Z.abs (min_x - expected_offset_x) <=? tolerance) &&
      (Z.abs (min_y - expected_offset_y) <=? tolerance)
  end.

(** [PackingSolution.get_tile_at_position]: the index of the first tile
    that covers the point, or [None]. *)
Definition covers (px py : Z) (t : TilePosition) : Prop :=
  let '(tx, ty, tw, th, _) := t in tx <= px < tx + tw ∧ ty <= py < ty + th.

#[global] Instance covers_dec px py t : Decision (covers px py t).
Proof. destruct t as [[[[tx ty] tw] th] o]. simpl. apply _. Defined.

Definition get_tile_at_position (s : PackingSolution) (x y : Z) : option nat :=
  fst <$> list_find (covers x y) (tile_positions s).

(** The unit cells a placement covers, as a set. *)
Definition tile_cells (t : TilePosition) : gset (Z * Z) :=
  list_to_set (Solvers.footprint (tp_x t) (tp_y t) (tp_w t) (tp_h t)).

(** A placement that has the problem's tile dimensions, in either
    orientation. *)
Definition tile_sized (problem : PackingProblem) (t : TilePosition) : Prop :=
  (tp_w t = tile_w problem ∧ tp_h t = tile_h problem) ∨
  (tp_w t = tile_h problem ∧ tp_h t = tile_w problem).

End Solution.

(* ===================================================================== *)
(** ** Validation: src/utils/validation.py *)
(* ===================================================================== *)

Module Validation.
Import Core.

(** An f-string field [{n}] for an integer prints its decimal digits. *)
Definition show (n : Z) : string := pretty n.

(** [check_overlaps]: one message per overlapping pair (i, j), i < j, in
    the order of the two nested loops; tiles are numbered from 1. *)
Definition overlap_message (i j : nat) (t1 t2 : TilePosition) : string :=
  "Tiles " +:+ show (Z.of_nat i + 1) +:+ " and " +:+ show (Z.of_nat j + 1)
  +:+ " overlap: (" +:+ show (tp_x t1) +:+ "," +:+ show (tp_y t1) +:+ ","
  +:+ show (tp_w t1) +:+ "," +:+ show (tp_h t1) +:+ ") and ("
  +:+ show (tp_x t2) +:+ "," +:+ show (tp_y t2) +:+ ","
  +:+ show (tp_w t2) +:+ "," +:+ show (tp_h t2) +:+ ")".

(** The inner loop [for j, ... in enumerate(positions[i+1:], i+1)]. *)
Fixpoint overlaps_with (i j : nat) (t1 : TilePosition) (rest : list TilePosition)
  : list string :=
  match rest with
  | [] => []
  | t2 :: rest' =>
      (if rectangles_overlap (tp_x t1) (tp_y t1) (tp_w t1) (tp_h t1)
                             (tp_x t2) (tp_y t2) (tp_w t2) (tp_h t2)
       then [overlap_message i j t1 t2] else [])
      ++ overlaps_with i (S j) t1 rest'
  end.

(** The outer loop, from index [i] on. *)
Fixpoint check_overlaps_from (i : nat) (positions : list TilePosition) : list string :=
  match positions with
  | [] => []
  | t1 :: rest => overlaps_with i (S i) t1 rest ++ check_overlaps_from (S i) rest
  end.

Definition check_overlaps (positions : list TilePosition) : list string :=
  check_overlaps_from 0 positions.

(** The checks [validate_solution] makes on the tile with index [i]; each
    failed check appends its message. *)
Definition tile_errors (problem : PackingProblem) (i : nat) (t : TilePosition)
  : list string :=
  let '(x, y, w, h, orientation) := t in
  let n := show (Z.of_nat i + 1) in
  let valid_dims :=
    (tile_w problem, tile_h problem) ::
    (if allow_rotation problem then [(tile_h problem, tile_w problem)] else []) in
  (if (x <? 0) || (y <? 0) then
     ["Tile " +:+ n +:+ " has negative coordinates: (" +:+ show x +:+ ", "
      +:+ show y +:+ ")"] else [])
  ++ (if x + w >? container_w problem then
        ["Tile " +:+ n +:+ " extends beyond container width: x=" +:+ show x
         +:+ ", w=" +:+ show w +:+ ", container_w=" +:+ show (container_w problem)]
      else [])
  ++ (if y + h >? container_h problem then
        ["Tile " +:+ n +:+ " extends beyond container height: y=" +:+ show y
         +:+ ", h=" +:+ show h +:+ ", container_h=" +:+ show (container_h problem)]
      else [])
  ++ (if (w <=? 0) || (h <=? 0) then
        ["Tile " +:+ n +:+ " has invalid dimensions: " +:+ show w +:+ "×" +:+ show h]
      else [])
  ++ (if bool_decide ((w, h) ∈ valid_dims) then []
      else ["Tile " +:+ n +:+ " has incorrect dimensions: " +:+ show w +:+ "×"
            +:+ show h +:+ ", expected " +:+ show (tile_w problem) +:+ "×"
            +:+ show (tile_h problem)])
  ++ (if bool_decide (orientation ∈ ["original"; "rotated"]) then []
      else ["Tile " +:+ n +:+ " has invalid orientation: " +:+ orientation])
  ++ (if String.eqb orientation "rotated" && negb (allow_rotation problem) then
        ["Tile " +:+ n +:+ " is rotated but rotation not allowed"] else [])
  ++ (if String.eqb orientation "rotated"
         && negb (bool_decide ((w, h) = (tile_h problem, tile_w problem))) then
        ["Tile " +:+ n +:+ " marked as rotated but dimensions don't match: "
         +:+ show w +:+ "×" +:+ show h] else [])
  ++ (if String.eqb orientation "original"
         && negb (bool_decide ((w, h) = (tile_w problem, tile_h problem))) then
        ["Tile " +:+ n +:+ " marked as original but dimensions don't match: "
         +:+ show w +:+ "×" +:+ show h] else []).

(** The loop [for i, (...) in enumerate(solution.tile_positions)]. *)
Fixpoint tiles_errors_from (problem : PackingProblem) (i : nat)
    (positions : list TilePosition) : list string :=
  match positions with
  | [] => []
  | t :: rest => tile_errors problem i t ++ tiles_errors_from problem (S i) rest
  end.

(** [validate_solution]: the pair (is_valid, error_messages). *)
Definition validate_solution (solution : PackingSolution) (problem : PackingProblem)
  : bool * list string :=
  let errors :=
    (if negb (sol_container_w solution =? container_w problem)
        || negb (sol_container_h solution =? container_h problem) then
       ["Container dimensions mismatch: solution has "
        +:+ show (sol_container_w solution) +:+ "×" +:+ show (sol_container_h solution)
        +:+ ", problem expects " +:+ show (container_w problem) +:+ "×"
        +:+ show (container_h problem)]
     else [])
    ++ tiles_errors_from problem 0 (tile_positions solution)
    ++ check_overlaps (tile_positions solution)
    ++ (match max_tiles problem with
        | Some m =>
            if num_tiles solution >? m then
              ["Too many tiles: " +:+ show (num_tiles solution) +:+ " > " +:+ show m]
            else []
        | None => []
        end) in
  (bool_decide (length errors = 0%nat), errors).



(** What [validate_solution] accepts, said without the loops. *)
Definition tile_legal (problem : PackingProblem) (t : TilePosition) : Prop :=
  let '(x, y, w, h, orientation) := t in
  0 <= x ∧ 0 <= y ∧ x + w <= container_w problem ∧ y + h <= container_h problem ∧
  0 < w ∧ 0 < h ∧
  ((orientation = "original" ∧ w = tile_w problem ∧ h = tile_h problem) ∨
   (orientation = "rotated" ∧ allow_rotation problem = true ∧
    w = tile_h problem ∧ h = tile_w problem)).

Definition solution_legal (solution : PackingSolution) (problem : PackingProblem) : Prop :=
  sol_container_w solution = container_w problem ∧
  sol_container_h solution = container_h problem ∧
  (∀ t, t ∈ tile_positions solution → tile_legal problem t) ∧
  (∀ (i j : nat) t1 t2, (i < j)%nat →
     tile_positions solution !! i = Some t1 → tile_positions solution !! j = Some t2 →
     rectangles_overlap (tp_x t1) (tp_y t1) (tp_w t1) (tp_h t1)
                        (tp_x t2) (tp_y t2) (tp_w t2) (tp_h t2) = false) ∧
  (∀ m, max_tiles problem = Some m → num_tiles solution <= m).

End Validation.


(* ===================================================================== *)
(** ** The rest of packing.py *)
(* ===================================================================== *)

Module Packing.
Import Core FreeRects.

(** [FreeRectangleManager.__init__]: the whole container is free. *)
Definition new_manager (container_w container_h : Z) : list Rect :=
  [(0, 0, container_w, container_h)].

(** A placement is (x, y, width, height, rotated) with [rotated] 0 or 1. *)
Definition Placement : Type := Z * Z * Z * Z * Z.

(** The body of the loop of [get_valid_placements] for one free
    rectangle. *)
Definition rect_placements (tile_w tile_h : Z) (rect : Rect) : list Placement :=
  let '(rect_x, rect_y, rect_w, rect_h) := rect in
  (if (tile_w <=? rect_w) && (tile_h <=? rect_h) then
     y ← Solvers.py_range rect_y (rect_y + rect_h - tile_h + 1);
     x ← Solvers.py_range rect_x (rect_x + rect_w - tile_w + 1);
     [(x, y, tile_w, tile_h, 0)]
   else [])
  ++
  (if negb (tile_w =? tile_h) && (tile_h <=? rect_w) && (tile_w <=? rect_h) then
     y ← Solvers.py_range rect_y (rect_y + rect_h - tile_w + 1);
     x ← Solvers.py_range rect_x (rect_x + rect_w - tile_h + 1);
     [(x, y, tile_h, tile_w, 1)]
   else []).

Definition get_valid_placements (free_rects : list Rect) (tile_w tile_h : Z)
  : list Placement :=
  free_rects ≫= rect_placements tile_w tile_h.

(** The intersection test of [place_tile]. *)
Definition intersects (x y w h : Z) (rect : Rect) : bool :=
  let '(rect_x, rect_y, rect_w, rect_h) := rect in
  (rect_x <? x + w) && (rect_x + rect_w >? x) &&
  (rect_y <? y + h) && (rect_y + rect_h >? y).

(** The body of the loop of [place_tile] for one free rectangle: the
    rectangles appended to [new_rects]. *)
Definition split_rect (x y w h : Z) (rect : Rect) : list Rect :=
  let '(rect_x, rect_y, rect_w, rect_h) := rect in
  if intersects x y w h rect then
    (if rect_x <? x then [(rect_x, rect_y, x - rect_x, rect_h)] else [])
    ++ (if rect_x + rect_w >? x + w
        then [(x + w, rect_y, rect_x + rect_w - (x + w), rect_h)] else [])
    ++ (if rect_y <? y
        then [(Z.max rect_x x, rect_y,
               Z.min (rect_x + rect_w) (x + w) - Z.max rect_x x, y - rect_y)]
        else [])
    ++ (if rect_y + rect_h >? y + h
        then [(Z.max rect_x x, y + h,
               Z.min (rect_x + rect_w) (x + w) - Z.max rect_x x,
               rect_y + rect_h - (y + h))]
        else [])
  else [rect].

(** [place_tile]: split every free rectangle around the tile, then merge;
    [fuel] bounds the passes of [_merge_rectangles]. *)
Definition place_tile (fuel : nat) (x y w h : Z) (free_rects : list Rect)
  : option (list Rect) :=
  merge_rectangles fuel (free_rects ≫= split_rect x y w h).

(** [get_total_free_area]. *)
Definition rect_area (rect : Rect) : Z := let '(_, _, w, h) := rect in w * h.

Definition get_total_free_area (free_rects : list Rect) : Z :=
  foldr Z.add 0 (map rect_area free_rects).

(** [normalize_solution]. *)
Definition normalize_solution (positions : list TilePosition) (container_w container_h : Z)
  : list TilePosition :=
  match positions with
  | [] => positions
  | _ =>
      let coords := map (fun '(x, y, w, h, _) => (x, y, w, h)) positions in
      let min_x := py_min (map (fun '(x, y, w, h) => x) coords) in
      let min_y := py_min (map (fun '(x, y, w, h) => y) coords) in
      let max_x := py_max (map (fun '(x, y, w, h) => x + w) coords) in
      let max_y := py_max (map (fun '(x, y, w, h) => y + h) coords) in
      let used_w := max_x - min_x in
      let used_h := max_y - min_y in
      let offset_x := (container_w - used_w) / 2 - min_x in
      let offset_y := (container_h - used_h) / 2 - min_y in
      map (fun '(x, y, w, h, orientation) => (x + offset_x, y + offset_y, w, h, orientation))
          positions
  end.

(** [tiles.sort()] on pairs (w, h): tuples compare lexicographically. *)
Definition pair_le (a b : Z * Z) : bool :=
  let '(a1, a2) := a in
  let '(b1, b2) := b in
  if negb (a1 =? b1) then a1 <? b1 else a2 <=? b2.

Fixpoint insert_pair (a : Z * Z) (l : list (Z * Z)) : list (Z * Z) :=
  match l with
  | [] => [a]
  | b :: l' => if pair_le a b then a :: b :: l' else b :: insert_pair a l'
  end.

Definition sort_pairs (l : list (Z * Z)) : list (Z * Z) := foldr insert_pair [] l.

(** The local [solution_to_signature] of [are_solutions_equivalent]. *)
Definition tile_dims (sol : list TilePosition) : list (Z * Z) :=
  map (fun '(x, y, w, h, _) => (w, h)) sol.

Definition solution_to_signature (sol : list TilePosition) : list (Z * Z) :=
  sort_pairs (tile_dims sol).

(** packing.py's own [are_solutions_equivalent], on position lists. *)
Definition are_solutions_equivalent (sol1 sol2 : list TilePosition) : bool :=
  if negb (length sol1 =? length sol2)%nat then false
  else bool_decide (solution_to_signature sol1 = solution_to_signature sol2).

(** packing.py's own [deduplicate_solutions]: the quadratic loop. *)
Definition deduplicate_solutions (solutions : list (list TilePosition))
  : list (list TilePosition) :=
  match solutions with
  | [] => solutions
  | _ =>
      foldl (fun unique_solutions sol =>
               if existsb (fun existing_sol => are_solutions_equivalent sol existing_sol)
                          unique_solutions
               then unique_solutions else unique_solutions ++ [sol])
            [] solutions
  end.

(** The points of a rectangle: the half-open box. *)
Definition in_box (rect : Rect) (px py : Z) : Prop :=
  let '(x, y, w, h) := rect in x <= px < x + w ∧ y <= py < y + h.

(** A point is free when some free rectangle contains it. *)
Definition free_at (free_rects : list Rect) (px py : Z) : Prop :=
  ∃ rect, rect ∈ free_rects ∧ in_box rect px py.

Definition positive_rect (rect : Rect) : Prop :=
  let '(_, _, w, h) := rect in 0 < w ∧ 0 < h.

(** The area of the part of a rectangle that a tile covers. *)
Definition overlap_area (x y w h : Z) (rect : Rect) : Z :=
  let '(rect_x, rect_y, rect_w, rect_h) := rect in
  Z.max 0 (Z.min (rect_x + rect_w) (x + w) - Z.max rect_x x) *
  Z.max 0 (Z.min (rect_y + rect_h) (y + h) - Z.max rect_y y).

(** The entries of the slice [l] (which starts at index [i]) whose index
    is not in [used]: the rectangles a pass has still to account for. *)
Fixpoint pending (i : nat) (l : list Rect) (used : gset nat) : list Rect :=
  match l with
  | [] => []
  | r :: rest =>
      (if bool_decide (i ∈ used) then [] else [r]) ++ pending (S i) rest used
  end.

(** The rectangle the inner loop of [_merge_rectangles] appends for a
    pair, if the pair merges. *)
Definition merge_of (rect1 rect2 : Rect) : option Rect :=
  let '(x1, y1, w1, h1) := rect1 in
  let '(x2, y2, w2, h2) := rect2 in
  if can_merge_horizontally rect1 rect2 then Some (Z.min x1 x2, y1, w1 + w2, h1)
  else if can_merge_vertically rect1 rect2 then Some (x1, Z.min y1 y2, w1, h1 + h2)
  else None.

(** [coalesced l l']: [l'] arises from [l] by reordering and by replacing
    pairs of rectangles by their merge. *)
Inductive coalesced : list Rect → list Rect → Prop :=
| coalesced_perm l l' : l ≡ₚ l' → coalesced l l'
| coalesced_merge r1 r2 m rest :
    merge_of r1 r2 = Some m → coalesced (r1 :: r2 :: rest) (m :: rest)
| coalesced_trans l1 l2 l3 : coalesced l1 l2 → coalesced l2 l3 → coalesced l1 l3.

End Packing.

(* ===================================================================== *)
(** ** src/utils/symmetry.py: equivalence of solutions *)
(* ===================================================================== *)

Module Equivalence.
Import Core Symmetry.

(** [are_solutions_equivalent] of src/utils/symmetry.py, on
    [PackingSolution] objects. *)
Definition are_solutions_equivalent (sol1 sol2 : PackingSolution) : bool :=
  if negb (num_tiles sol1 =? num_tiles sol2) then false
  else if negb (sol_container_w sol1 =? sol_container_w sol2)
          || negb (sol_container_h sol1 =? sol_container_h sol2) then false
  else
    let canonical1 :=
      get_canonical_form (tile_positions sol1) (sol_container_w sol1) (sol_container_h sol1) in
    let canonical2 :=
      get_canonical_form (tile_positions sol2) (sol_container_w sol2) (sol_container_h sol2) in
    bool_decide (canonical1 = canonical2).

(** Distinct placements have distinct sort keys (y, x, w, h): no two
    entries differ in the orientation string only. *)
Definition key_injective (positions : list TilePosition) : Prop :=
  ∀ t u, t ∈ positions → u ∈ positions → sort_key t = sort_key u → t = u.

End Equivalence.


(* ===================================================================== *)
(** ** Notions used to state what the solvers return *)
(* ===================================================================== *)

Module SolverSpecs.
Import Core Solvers.

(** The greedy bookkeeping, converse to [greedy_inv]: every occupied cell
    belongs to a placed tile, and every placed tile is an unrotated tile
    of the problem. *)
Definition greedy_exact (problem : PackingProblem) (placed : list TilePosition)
    (occupied : gset (Z * Z)) : Prop :=
  (∀ c, c ∈ occupied →
     ∃ t, t ∈ placed ∧ c ∈ footprint (tp_x t) (tp_y t) (tp_w t) (tp_h t)) ∧
  (∀ t, t ∈ placed → ∃ x y, t = (x, y, tile_w problem, tile_h problem, "original")).

(** No further unrotated tile can be added: wherever one would fit into
    the container, it overlaps a tile of the list. *)
Definition maximal_unrotated (problem : PackingProblem) (ps : list TilePosition) : Prop :=
  ∀ x y, 0 <= x → 0 <= y →
    x + tile_w problem <= container_w problem →
    y + tile_h problem <= container_h problem →
    ∃ t, t ∈ ps ∧
      tiles_overlap t (x, y, tile_w problem, tile_h problem, "original") = true.

End SolverSpecs.

(* ===================================================================== *)
(** ** Insertion into a sorted list, in general *)
(* ===================================================================== *)

Module InsertionSort.

(** The shape shared by the sorts above: insert from the right, before the
    first element that is not smaller; equal keys keep their input order,
    as with Python's stable [sorted]. *)
Fixpoint insertion {A} (le : A → A → bool) (a : A) (l : list A) : list A :=
  match l with
  | [] => [a]
  | b :: l' => if le a b then a :: b :: l' else b :: insertion le a l'
  end.

Definition insertion_sort {A} (le : A → A → bool) (l : list A) : list A :=
  foldr (insertion le) [] l.

End InsertionSort.

Module SortKeys.
Import Core Symmetry.

(** The order [sorted(..., key=lambda t: (t[1], t[0], t[2], t[3]))] sorts
    by, as a comparison of tiles. *)
Definition tile_key_le (a b : TilePosition) : bool := key_le (sort_key a) (sort_key b).

(** A tile-wise map under which the sort key of the image determines the
    sort key of the tile. *)
Definition key_faithful (f : TilePosition → TilePosition) : Prop :=
  ∀ t u, sort_key (f t) = sort_key (f u) → sort_key t = sort_key u.

End SortKeys.

(* ===================================================================== *)
(** ** Notions used to state what the free-rectangle manager keeps *)
(* ===================================================================== *)

Module PackingSpecs.
Import Core FreeRects Packing.

#[global] Instance in_box_dec rect px py : Decision (in_box rect px py).
Proof. destruct rect as [[[x y] w] h]. simpl. apply _. Defined.

(** The number of free rectangles that contain a point. *)
Definition multiplicity (free_rects : list Rect) (px py : Z) : nat :=
  length (filter (fun rect => in_box rect px py) free_rects).

(** No point lies in two free rectangles. *)
Definition disjoint_rects (free_rects : list Rect) : Prop :=
  ∀ px py, (multiplicity free_rects px py <= 1)%nat.

(** The points of a placed tile. *)
Definition in_tile (x y w h px py : Z) : Prop := x <= px < x + w ∧ y <= py < y + h.

(** The free area a tile takes away, summed over the free rectangles. *)
Definition total_overlap (x y w h : Z) (free_rects : list Rect) : Z :=
  foldr Z.add 0 (map (overlap_area x y w h) free_rects).

End PackingSpecs.

(* ===================================================================== *)
(** ** Notions used to state what the backtracking search records *)
(* ===================================================================== *)

Module BacktrackSpecs.
Import Core Solvers.

(** The placement [_extract_solution] reads off a footprint (r, c, h, w):
    the corner (c, r), the size (w, h), and the orientation test of the
    source. *)
Definition tile_of (problem : PackingProblem) (t : Footprint) : TilePosition :=
  let '(r, c, h, w) := t in
  let w := Z.of_nat w in
  let h := Z.of_nat h in
  (Z.of_nat c, Z.of_nat r, w, h,
   if (w =? tile_h problem) && (h =? tile_w problem) then "rotated" else "original").

(** The footprints the search writes: the tile as given, or, when
    rotation is allowed and the tile is not square, the tile turned. *)
Definition search_sized (problem : PackingProblem) (t : Footprint) : Prop :=
  let '(_, _, h, w) := t in
  (h = Z.to_nat (tile_h problem) ∧ w = Z.to_nat (tile_w problem)) ∨
  (allow_rotation problem = true ∧ tile_w problem ≠ tile_h problem ∧
   h = Z.to_nat (tile_w problem) ∧ w = Z.to_nat (tile_h problem)).

(** The cells the double loop of [_extract_solution] has visited when it
    reaches (r, c). *)
Definition scanned_before (r c i j : nat) : Prop := (i < r ∨ (i = r ∧ j < c))%nat.

(** A solution the search records: it is read off a grid that holds the
    footprints placed so far, at a moment when the grid has no empty cell
    or the budget is used up. *)
Definition recorded (problem : PackingProblem) (sol : list TilePosition) : Prop :=
  ∃ (g : Grid) (rects : list Footprint),
    grid_inv (Z.to_nat (container_h problem)) (Z.to_nat (container_w problem)) g rects ∧
    Forall (search_sized problem) rects ∧
    sol = extract_solution g problem ∧
    (0 <= tile_budget problem → Z.of_nat (length rects) <= tile_budget problem) ∧
    (find_first_empty g = None ∨ Z.of_nat (length rects) = tile_budget problem).

(** Every unit cell of the container lies under a tile of the list. *)
Definition covers_container (problem : PackingProblem) (sol : list TilePosition) : Prop :=
  ∀ x y, 0 <= x < container_w problem → 0 <= y < container_h problem →
    ∃ t, t ∈ sol ∧ Solution.covers x y t.

End BacktrackSpecs.

(* ===================================================================== *)
(** ** hybrid_solver.py: solve_all_optimal *)
(* ===================================================================== *)

Module HybridAll.
Import Core Solvers Symmetry Solution.

(** [not solutions or solutions[0].num_tiles < target_tiles]. *)
Definition below_target (solutions : list PackingSolution) (target_tiles : Z) : bool :=
  match solutions with
  | [] => true
  | s :: _ => num_tiles s <? target_tiles
  end.

(** The body of the centering loop: a solution that is not centered gets
    its placements replaced, in place, by the centred ones. *)
Definition recenter (problem : PackingProblem) (solution : PackingSolution)
  : PackingSolution :=
  if require_centering problem && negb (is_centered solution) then
    mkSolution (center_solution (tile_positions solution)
                  (container_w problem) (container_h problem))
               (sol_container_w solution) (sol_container_h solution)
               (solver_name solution)
  else solution.

(** [HybridSolver.solve_all_optimal].  [expired_solve] answers the
    deadline polls of the backtracking run inside [solve], [expired_all]
    those of the exhaustive run made here; the other parameters are those
    of [hybrid_solve]. *)
Definition hybrid_solve_all_optimal (expired_solve expired_all : nat → bool)
    (ilp_solver : option (PackingProblem → PackingSolution))
    (over70 over80 : bool) (problem : PackingProblem) (max_solutions : Z)
  : option (list PackingSolution) :=
  best_single ← hybrid_solve expired_solve ilp_solver over70 over80 problem;
  if num_tiles best_single =? 0 then Some []
  else
    let target_tiles := num_tiles best_single in
    solutions ←
      (if target_tiles <=? 10 then
         backtrack_solve_all_optimal expired_all problem max_solutions
       else
         let solutions := mathematical_solve_all_optimal problem max_solutions in
         if below_target solutions target_tiles then
           solutions ← backtrack_solve_all_optimal expired_all problem max_solutions;
           if below_target solutions target_tiles then Some [best_single]
           else Some solutions
         else Some solutions);
    let solutions :=
      if (1 <? length solutions)%nat then deduplicate_solutions solutions problem
      else solutions in
    let solutions := map (recenter problem) solutions in
    Some (map tag_hybrid solutions).

(** A solution fit to be returned: valid placements, in a solution object
    that carries the problem's container dimensions. *)
Definition presentable (problem : PackingProblem) (s : PackingSolution) : Prop :=
  placements_ok problem (tile_positions s) ∧
  sol_container_w s = container_w problem ∧
  sol_container_h s = container_h problem.

End HybridAll.

(* ===================================================================== *)
(** * Properties *)
(* ===================================================================== *)

Module CoreFacts.
Import Core.

(** What [__post_init__] accepts: positive dimensions and a tile that fits
    as given; [allow_rotation] is not consulted. *)
Lemma post_init_accepts (p : PackingProblem) :
  post_init p = inr p ↔
  0 < container_w p ∧ 0 < container_h p ∧ 0 < tile_w p ∧ 0 < tile_h p ∧
  tile_w p <= container_w p ∧ tile_h p <= container_h p.
Proof.
  unfold post_init.
  destruct (container_w p <=? 0) eqn:E1; destruct (container_h p <=? 0) eqn:E2;
  destruct (tile_w p <=? 0) eqn:E3; destruct (tile_h p <=? 0) eqn:E4;
  destruct (tile_w p >? container_w p) eqn:E5;
  destruct (tile_h p >? container_h p) eqn:E6; simpl;
  split; intros H; try discriminate; try reflexivity; lia.
Qed.

Lemma post_init_inr (p q : PackingProblem) : post_init p = inr q → q = p.
Proof.
  unfold post_init. repeat case_match; intros; simplify_eq; done.
Qed.

Lemma valid_problem_dims (p : PackingProblem) :
  valid_problem p →
  0 < container_w p ∧ 0 < container_h p ∧ 0 < tile_w p ∧ 0 < tile_h p ∧
  tile_w p <= container_w p ∧ tile_h p <= container_h p.
Proof. intros H. by apply post_init_accepts. Qed.

(** C2 (evaluation of the constructor on the rotated-only class): whenever
    all four dimensions are positive, rotation is allowed and the tile fits
    the container only after swapping its sides, [__post_init__] raises
    [ValueError "Tile cannot fit in container"] instead of succeeding. *)
Theorem C2_rotated_only_fit_is_rejected (cw ch tw th : Z) (mt : option Z) (cen : bool) :
  0 < cw → 0 < ch → 0 < tw → 0 < th →
  th <= cw → tw <= ch → (tw > cw ∨ th > ch) →
  new_problem cw ch tw th mt true cen = inl (ValueError "Tile cannot fit in container").
Proof.
  intros Hcw Hch Htw Hth Hfit1 Hfit2 Hno.
  unfold new_problem, post_init; simpl.
  destruct (cw <=? 0) eqn:E1; [lia|].
  destruct (ch <=? 0) eqn:E2; [lia|].
  destruct (tw <=? 0) eqn:E3; [lia|].
  destruct (th <=? 0) eqn:E4; [lia|].
  destruct (tw >? cw) eqn:E5; destruct (th >? ch) eqn:E6; simpl; try reflexivity.
  lia.
Qed.

Lemma C2_rotated_only_fit_is_rejected_witness :
  new_problem 5 10 10 5 None true true = inl (ValueError "Tile cannot fit in container").
Proof.
  apply (C2_rotated_only_fit_is_rejected 5 10 10 5 None true); lia.
Defined.

(** C3 (evaluation at container 5x5, tile 10x10): constructing the problem
    raises [ValueError], so whatever solver would be run on the constructed
    problem is never reached and no zero-tile solution is returned. *)
Theorem C3_oversized_tile_raises_at_construction :
  ∀ solve : PackingProblem → PackingSolution,
    sum_map id solve (new_problem 5 5 10 10 None true true)
    = inl (ValueError "Tile cannot fit in container").
Proof. intros solve. reflexivity. Qed.

(** *** Centering *)

Lemma foldl_min_shift (d : Z) (l : list Z) (a : Z) :
  foldl Z.min (a + d) (map (fun v => v + d) l) = foldl Z.min a l + d.
Proof.
  revert a. induction l as [|b l IH]; intros a; simpl; [done|].
  rewrite <- IH. f_equal. lia.
Qed.

Lemma foldl_max_shift (d : Z) (l : list Z) (a : Z) :
  foldl Z.max (a + d) (map (fun v => v + d) l) = foldl Z.max a l + d.
Proof.
  revert a. induction l as [|b l IH]; intros a; simpl; [done|].
  rewrite <- IH. f_equal. lia.
Qed.

Lemma py_min_shift (d : Z) (l : list Z) :
  l ≠ [] → py_min (map (fun v => v + d) l) = py_min l + d.
Proof. destruct l as [|a l]; [done|]. intros _. simpl. apply foldl_min_shift. Qed.

Lemma py_max_shift (d : Z) (l : list Z) :
  l ≠ [] → py_max (map (fun v => v + d) l) = py_max l + d.
Proof. destruct l as [|a l]; [done|]. intros _. simpl. apply foldl_max_shift. Qed.

Section Translate.
Variables (ps : list TilePosition) (dx dy : Z).
Hypothesis nonempty : ps ≠ [].

Lemma map_nonempty {A B} (f : A → B) (l : list A) : l ≠ [] → map f l ≠ [].
Proof. by destruct l. Qed.

Lemma translate_nonempty : translate_solution ps dx dy ≠ [].
Proof. unfold translate_solution. by apply map_nonempty. Qed.

Lemma min_x_translate : min_x (translate_solution ps dx dy) = min_x ps + dx.
Proof.
  unfold min_x, translate_solution. rewrite map_map.
  rewrite <- py_min_shift by by apply map_nonempty.
  rewrite map_map. f_equal. apply map_ext. by intros [[[[x y] w] h] o].
Qed.

Lemma min_y_translate : min_y (translate_solution ps dx dy) = min_y ps + dy.
Proof.
  unfold min_y, translate_solution. rewrite map_map.
  rewrite <- py_min_shift by by apply map_nonempty.
  rewrite map_map. f_equal. apply map_ext. by intros [[[[x y] w] h] o].
Qed.

Lemma max_x_translate : max_x (translate_solution ps dx dy) = max_x ps + dx.
Proof.
  unfold max_x, translate_solution. rewrite map_map.
  rewrite <- py_max_shift by by apply map_nonempty.
  rewrite map_map. f_equal. apply map_ext.
  intros [[[[x y] w] h] o]; simpl; lia.
Qed.

Lemma max_y_translate : max_y (translate_solution ps dx dy) = max_y ps + dy.
Proof.
  unfold max_y, translate_solution. rewrite map_map.
  rewrite <- py_max_shift by by apply map_nonempty.
  rewrite map_map. f_equal. apply map_ext.
  intros [[[[x y] w] h] o]; simpl; lia.
Qed.
End Translate.

Lemma translate_zero (ps : list TilePosition) : translate_solution ps 0 0 = ps.
Proof.
  unfold translate_solution. induction ps as [|[[[[x y] w] h] o] ps IH]; simpl; [done|].
  rewrite IH. by rewrite !Z.add_0_r.
Qed.

Lemma center_solution_unfold (ps : list TilePosition) (cw ch : Z) :
  ps ≠ [] →
  center_solution ps cw ch =
  translate_solution ps ((cw - (max_x ps - min_x ps)) / 2 - min_x ps)
                        ((ch - (max_y ps - min_y ps)) / 2 - min_y ps).
Proof. by destruct ps. Qed.

Lemma bounding_box_unfold (ps : list TilePosition) :
  ps ≠ [] → calculate_bounding_box ps = (min_x ps, min_y ps, max_x ps, max_y ps).
Proof. by destruct ps. Qed.

(** Centering a centred list moves nothing. *)
Lemma center_solution_idempotent (ps : list TilePosition) (cw ch : Z) :
  center_solution (center_solution ps cw ch) cw ch = center_solution ps cw ch.
Proof.
  destruct (decide (ps = [])) as [->|Hne]; [done|].
  rewrite (center_solution_unfold ps) by done.
  set (dx := _ / 2 - min_x ps). set (dy := _ / 2 - min_y ps).
  rewrite center_solution_unfold by by apply translate_nonempty.
  rewrite min_x_translate, max_x_translate, min_y_translate, max_y_translate by done.
  replace (max_x ps + dx - (min_x ps + dx)) with (max_x ps - min_x ps) by lia.
  replace (max_y ps + dy - (min_y ps + dy)) with (max_y ps - min_y ps) by lia.
  replace (_ / 2 - (min_x ps + dx)) with 0 by (unfold dx; lia).
  replace (_ / 2 - (min_y ps + dy)) with 0 by (unfold dy; lia).
  apply translate_zero.
Qed.

(** Centering leaves the middle of the bounding box at the middle of the
    container or half a unit before it. *)
Lemma half_offset (a b c : Z) :
  -1 <= a + b - c <= 0 →
  ((inject_Z a + inject_Z b) / 2 - inject_Z c / 2 == 0 ∨
   (inject_Z a + inject_Z b) / 2 - inject_Z c / 2 == - (1 # 2))%Q.
Proof.
  intros H.
  assert (Heq : ((inject_Z a + inject_Z b) / 2 - inject_Z c / 2 ==
                 inject_Z (a + b - c) / 2)%Q).
  { unfold Z.sub. rewrite !inject_Z_plus, inject_Z_opp. field. }
  assert (Hcases : a + b - c = 0 ∨ a + b - c = -1) by lia.
  destruct Hcases as [Hc|Hc]; rewrite Heq, Hc; [left|right]; reflexivity.
Qed.

Lemma centered_offset_x (ps : list TilePosition) (cw ch : Z) :
  ps ≠ [] →
  -1 <= min_x (center_solution ps cw ch) + max_x (center_solution ps cw ch) - cw <= 0.
Proof.
  intros Hne. rewrite center_solution_unfold by done.
  rewrite min_x_translate, max_x_translate by done.
  pose proof (Z.div_mod (cw - (max_x ps - min_x ps)) 2 ltac:(lia)).
  pose proof (Z.mod_pos_bound (cw - (max_x ps - min_x ps)) 2 ltac:(lia)).
  lia.
Qed.

Lemma centered_offset_y (ps : list TilePosition) (cw ch : Z) :
  ps ≠ [] →
  -1 <= min_y (center_solution ps cw ch) + max_y (center_solution ps cw ch) - ch <= 0.
Proof.
  intros Hne. rewrite center_solution_unfold by done.
  rewrite min_y_translate, max_y_translate by done.
  pose proof (Z.div_mod (ch - (max_y ps - min_y ps)) 2 ltac:(lia)).
  pose proof (Z.mod_pos_bound (ch - (max_y ps - min_y ps)) 2 ltac:(lia)).
  lia.
Qed.

(** C8: for a non-empty placement list, the bounding box of
    [center_solution positions cw ch] has its center
    ((min_x + max_x)/2, (min_y + max_y)/2) within 1 unit of (cw/2, ch/2):
    the offset is at most 1/2 on each axis, so the squared Euclidean
    distance is at most 1 as well; and centering a second time leaves the
    bounding box unchanged.  (No assumption that the list fits the container
    is needed.) *)
Theorem C8_center_solution_centered_and_stable
    (positions : list TilePosition) (cw ch : Z) :
  positions ≠ [] →
  let centered := center_solution positions cw ch in
  let '(bx0, by0, bx1, by1) := calculate_bounding_box centered in
  let dx := ((inject_Z bx0 + inject_Z bx1) / 2 - inject_Z cw / 2)%Q in
  let dy := ((inject_Z by0 + inject_Z by1) / 2 - inject_Z ch / 2)%Q in
  (Qabs dx <= 1 # 2)%Q ∧ (Qabs dy <= 1 # 2)%Q ∧
  (Qabs dx <= 1)%Q ∧ (Qabs dy <= 1)%Q ∧
  (dx * dx + dy * dy <= 1)%Q ∧
  calculate_bounding_box (center_solution centered cw ch)
  = calculate_bounding_box centered.
Proof.
  intros Hne centered.
  assert (Hc : centered ≠ []).
  { subst centered. rewrite center_solution_unfold by done. by apply translate_nonempty. }
  assert (Hstable : calculate_bounding_box (center_solution centered cw ch)
                    = calculate_bounding_box centered).
  { subst centered. by rewrite center_solution_idempotent. }
  rewrite Hstable. rewrite (bounding_box_unfold centered Hc). cbv zeta.
  destruct (half_offset _ _ _ (centered_offset_x positions cw ch Hne)) as [Hx|Hx];
  destruct (half_offset _ _ _ (centered_offset_y positions cw ch Hne)) as [Hy|Hy];
  fold centered in Hx, Hy; rewrite Hx, Hy; repeat split; done.
Qed.

Lemma C8_center_solution_centered_and_stable_witness :
  let positions : list TilePosition :=
    [(10, 10, 5, 5, "original"); (15, 10, 5, 5, "original")] in
  let centered := center_solution positions 30 30 in
  let '(bx0, by0, bx1, by1) := calculate_bounding_box centered in
  let dx := ((inject_Z bx0 + inject_Z bx1) / 2 - inject_Z 30 / 2)%Q in
  let dy := ((inject_Z by0 + inject_Z by1) / 2 - inject_Z 30 / 2)%Q in
  (Qabs dx <= 1 # 2)%Q ∧ (Qabs dy <= 1 # 2)%Q ∧
  (Qabs dx <= 1)%Q ∧ (Qabs dy <= 1)%Q ∧
  (dx * dx + dy * dy <= 1)%Q ∧
  calculate_bounding_box (center_solution centered 30 30)
  = calculate_bounding_box centered.
Proof.
  apply (C8_center_solution_centered_and_stable
           [(10, 10, 5, 5, "original"); (15, 10, 5, 5, "original")] 30 30).
  discriminate.
Defined.

(** The repository's centering test: two 5x5 tiles in a 30x30 container
    end up at x = 10 and 15, y = 12. *)
Example center_solution_example :
  center_solution [(10, 10, 5, 5, "original"); (15, 10, 5, 5, "original")] 30 30
  = [(10, 12, 5, 5, "original"); (15, 12, 5, 5, "original")].
Proof. vm_compute. reflexivity. Qed.

End CoreFacts.

Module SymmetryFacts.
Import Core Symmetry.

(** C4 (evaluation at the failing input): in a 20x20 container the
    canonical form of the arrangement rotated by 90 degrees is not the
    canonical form of the arrangement itself; the rotated form even carries
    a negative coordinate. *)
Theorem C4_canonical_form_not_invariant_under_rot90 :
  get_canonical_form two_tiles 20 20
    = [(0, 0, 5, 3, "original"); (5, 0, 5, 3, "original")] ∧
  get_canonical_form (apply_dihedral Rot90 two_tiles 20 20) 20 20
    = [(-2, 2, 3, 5, "original"); (-2, 7, 3, 5, "original")] ∧
  get_canonical_form (apply_dihedral Rot90 two_tiles 20 20) 20 20
    ≠ get_canonical_form two_tiles 20 20.
Proof. split; [|split]; [vm_compute; reflexivity ..|]. vm_compute. discriminate. Qed.

(** *** detect_symmetry_type *)

Lemma positions_equivalent_same_length (pos1 pos2 : list TilePosition) :
  length pos1 = length pos2 →
  positions_equivalent pos1 pos2 = true ↔ sorted_by_key pos1 = sorted_by_key pos2.
Proof.
  intros Hlen. unfold positions_equivalent.
  rewrite Hlen, Nat.eqb_refl. simpl. apply bool_decide_eq_true.
Qed.

Lemma elem_of_snoc_if (b : bool) (l : list string) (s x : string) :
  x ∈ (if b then l ++ [s] else l) ↔ x ∈ l ∨ (b = true ∧ x = s).
Proof.
  destruct b.
  - rewrite elem_of_app, list_elem_of_singleton. naive_solver.
  - naive_solver.
Qed.

(** [detect_symmetry_type] makes five tests, one for each of the lists
    [rotate_solution_90], [rotate_solution_180], [rotate_solution_270],
    [mirror_solution_horizontal] and [mirror_solution_vertical] return:
    equality of the key-sorted list with the key-sorted original; a name is
    reported exactly when its test succeeds. *)
Lemma detect_symmetry_type_spec
    (positions : list TilePosition) (cw ch : Z) (name : string) :
  name ∈ detect_symmetry_type positions cw ch ↔
    (name = "rotational_90" ∧
       sorted_by_key positions = sorted_by_key (rotate_solution_90 positions cw ch)) ∨
    (name = "rotational_180" ∧
       sorted_by_key positions = sorted_by_key (rotate_solution_180 positions cw ch)) ∨
    (name = "rotational_270" ∧
       sorted_by_key positions = sorted_by_key (rotate_solution_270 positions cw ch)) ∨
    (name = "mirror_horizontal" ∧
       sorted_by_key positions = sorted_by_key (mirror_solution_horizontal positions cw)) ∨
    (name = "mirror_vertical" ∧
       sorted_by_key positions = sorted_by_key (mirror_solution_vertical positions ch)).
Proof.
  unfold detect_symmetry_type.
  rewrite !elem_of_snoc_if.
  rewrite !positions_equivalent_same_length
    by (unfold rotate_solution_90, rotate_solution_180, rotate_solution_270,
          mirror_solution_horizontal, mirror_solution_vertical;
        by rewrite length_map).
  rewrite elem_of_nil. naive_solver.
Qed.

(** C7, as stated, fails: the single unit tile at the origin of a 3x3
    container equals its image under the mirrored 90-degree rotation (one of
    the eight transforms), yet nothing is reported for it. *)
Lemma C7_counterexample_mirrored_rotation_unreported :
  ¬ (∀ (positions : list TilePosition) (cw ch : Z) (T : Dihedral),
       positions_equivalent positions (apply_dihedral T positions cw ch) = true →
       detect_symmetry_type positions cw ch ≠ []).
Proof.
  intros H.
  apply (H [(0, 0, 1, 1, "original")] 3 3 MirrorRot90); vm_compute; reflexivity.
Qed.

(** *** deduplicate_solutions *)

Section Dedup.
Variables cw ch : Z.

Let canon (s : PackingSolution) : list TilePosition :=
  get_canonical_form (tile_positions s) cw ch.

Lemma dedup_loop_kept (l acc : list PackingSolution) (seen : gset (list TilePosition)) :
  dedup_loop cw ch l acc seen = acc ++ kept cw ch seen l.
Proof.
  revert acc seen. induction l as [|s l IH]; intros acc seen; simpl.
  - by rewrite app_nil_r.
  - fold (canon s). case_bool_decide.
    + apply IH.
    + rewrite IH. by rewrite <- app_assoc.
Qed.

Lemma kept_not_seen (l : list PackingSolution) (seen : gset (list TilePosition)) :
  ∀ s, s ∈ kept cw ch seen l → canon s ∉ seen.
Proof.
  revert seen. induction l as [|a l IH]; intros seen s; simpl.
  - by rewrite elem_of_nil.
  - fold (canon a). case_bool_decide as Ha.
    + apply IH.
    + rewrite elem_of_cons. intros [->|Hs]; [done|].
      apply IH in Hs. set_solver.
Qed.

Lemma kept_NoDup (l : list PackingSolution) (seen : gset (list TilePosition)) :
  NoDup (map canon (kept cw ch seen l)).
Proof.
  revert seen. induction l as [|a l IH]; intros seen; simpl.
  - constructor.
  - fold (canon a). case_bool_decide as Ha; [apply IH|].
    simpl. constructor; [|apply IH].
    intros Hin. apply list_elem_of_fmap in Hin as (s & Heq & Hs).
    apply kept_not_seen in Hs. set_solver.
Qed.

Lemma kept_sublist (l : list PackingSolution) (seen : gset (list TilePosition)) :
  sublist (kept cw ch seen l) l.
Proof.
  revert seen. induction l as [|a l IH]; intros seen; simpl; [done|].
  fold (canon a). case_bool_decide.
  - by apply sublist_cons.
  - by apply sublist_skip.
Qed.

(** A list whose canonical forms are pairwise distinct and new is kept
    whole. *)
Lemma kept_fixed (l : list PackingSolution) (seen : gset (list TilePosition)) :
  NoDup (map canon l) → (∀ s, s ∈ l → canon s ∉ seen) → kept cw ch seen l = l.
Proof.
  revert seen. induction l as [|a l IH]; intros seen Hnd Hseen; simpl; [done|].
  inversion Hnd as [|? ? Hnotin Hnd']; subst.
  fold (canon a). case_bool_decide as Ha.
  - exfalso. by apply (Hseen a); [left|].
  - f_equal. apply IH; [done|].
    intros s Hs Hin. apply elem_of_union in Hin as [Hin|Hin].
    + apply elem_of_singleton in Hin. apply Hnotin.
      rewrite <- Hin. apply list_elem_of_fmap. by exists s.
    + by apply (Hseen s); [right|].
Qed.

Lemma kept_idempotent (l : list PackingSolution) :
  kept cw ch ∅ (kept cw ch ∅ l) = kept cw ch ∅ l.
Proof. apply kept_fixed; [apply kept_NoDup|]. intros; set_solver. Qed.

(** An element with no earlier element of its class is kept. *)
Lemma kept_first (l : list PackingSolution) (seen : gset (list TilePosition))
    (i : nat) (s : PackingSolution) :
  l !! i = Some s → canon s ∉ seen →
  (∀ j s', (j < i)%nat → l !! j = Some s' → canon s' ≠ canon s) →
  s ∈ kept cw ch seen l.
Proof.
  revert seen i. induction l as [|a l IH]; intros seen i Hi Hseen Hfirst; [done|].
  destruct i as [|i]; simpl in *.
  - simplify_eq. rewrite bool_decide_eq_false_2 by done. by left.
  - assert (Ha : canon a ≠ canon s) by (apply (Hfirst 0%nat a); [lia|done]).
    fold (canon a). case_bool_decide.
    + apply (IH seen i); [done..|].
      intros j s' Hj Hs'. apply (Hfirst (S j) s'); [lia|done].
    + right. apply (IH _ i); [done|set_solver|].
      intros j s' Hj Hs'. apply (Hfirst (S j) s'); [lia|done].
Qed.

(** Every kept element is the first of its class in the input. *)
Lemma kept_is_first (l : list PackingSolution) (seen : gset (list TilePosition))
    (s : PackingSolution) :
  s ∈ kept cw ch seen l →
  ∃ i, l !! i = Some s ∧
       ∀ j s', (j < i)%nat → l !! j = Some s' → canon s' ≠ canon s.
Proof.
  revert seen. induction l as [|a l IH]; intros seen; simpl.
  - by rewrite elem_of_nil.
  - fold (canon a). case_bool_decide as Ha.
    + intros Hs. pose proof (kept_not_seen _ _ _ Hs) as Hns.
      destruct (IH _ Hs) as (i & Hi & Hfirst).
      exists (S i). split; [done|].
      intros [|j] s' Hj Hs'; simpl in Hs'.
      * simplify_eq. congruence.
      * apply (Hfirst j); [lia|done].
    + rewrite elem_of_cons. intros [->|Hs].
      * exists 0%nat. split; [done|]. intros; lia.
      * pose proof (kept_not_seen _ _ _ Hs) as Hns.
        destruct (IH _ Hs) as (i & Hi & Hfirst).
        exists (S i). split; [done|].
        intros [|j] s' Hj Hs'; simpl in Hs'.
        -- simplify_eq. set_solver.
        -- apply (Hfirst j); [lia|done].
Qed.
End Dedup.

Lemma deduplicate_solutions_kept (S : list PackingSolution) (problem : PackingProblem) :
  deduplicate_solutions S problem
  = kept (container_w problem) (container_h problem) ∅ S.
Proof.
  destruct S as [|s S]; [done|].
  unfold deduplicate_solutions. by rewrite dedup_loop_kept.
Qed.

(** C9: over a fixed problem, deduplicating twice equals deduplicating
    once; the result is a subsequence of the input (input order kept), its
    canonical forms are pairwise distinct, and a solution is in the result
    exactly when it stands at an index of the input before which no solution
    has the same canonical form. *)
Theorem C9_deduplicate_idempotent_keeps_first_of_each_class
    (S : list PackingSolution) (problem : PackingProblem) :
  let canon s :=
    get_canonical_form (tile_positions s) (container_w problem) (container_h problem) in
  deduplicate_solutions (deduplicate_solutions S problem) problem
    = deduplicate_solutions S problem ∧
  sublist (deduplicate_solutions S problem) S ∧
  NoDup (map canon (deduplicate_solutions S problem)) ∧
  ∀ s, s ∈ deduplicate_solutions S problem ↔
       ∃ i, S !! i = Some s ∧
            ∀ j s', (j < i)%nat → S !! j = Some s' → canon s' ≠ canon s.
Proof.
  intros canon. rewrite !deduplicate_solutions_kept.
  split; [apply kept_idempotent|].
  split; [apply kept_sublist|].
  split; [apply kept_NoDup|].
  intros s. split.
  - apply kept_is_first.
  - intros (i & Hi & Hfirst). apply (kept_first _ _ _ _ i); [done|set_solver|done].
Qed.

End SymmetryFacts.

Module FreeRectsFacts.
Import FreeRects.

Lemma can_merge_horizontally_sym (r1 r2 : Rect) :
  can_merge_horizontally r1 r2 = can_merge_horizontally r2 r1.
Proof.
  destruct r1 as [[[x1 y1] w1] h1], r2 as [[[x2 y2] w2] h2]; simpl.
  rewrite (Z.eqb_sym y1 y2), (Z.eqb_sym h1 h2). f_equal. apply orb_comm.
Qed.

Lemma can_merge_vertically_sym (r1 r2 : Rect) :
  can_merge_vertically r1 r2 = can_merge_vertically r2 r1.
Proof.
  destruct r1 as [[[x1 y1] w1] h1], r2 as [[[x2 y2] w2] h2]; simpl.
  rewrite (Z.eqb_sym x1 x2), (Z.eqb_sym w1 w2). f_equal. apply orb_comm.
Qed.

Lemma mergeable_sym (r1 r2 : Rect) : mergeable r1 r2 = mergeable r2 r1.
Proof.
  unfold mergeable.
  by rewrite can_merge_horizontally_sym, can_merge_vertically_sym.
Qed.

(** The partner found by the inner loop is an unused index of the slice. *)
Lemma find_partner_Some rect1 (j : nat) rest used k m :
  find_partner rect1 j rest used = Some (k, m) →
  (j <= k < j + length rest)%nat ∧ k ∉ used.
Proof.
  revert j. induction rest as [|rect2 rest IH]; intros j; simpl; [done|].
  case_bool_decide as Hj.
  - intros H. apply IH in H as [H1 H2]. split; [lia|done].
  - destruct rect1 as [[[x1 y1] w1] h1], rect2 as [[[x2 y2] w2] h2].
    repeat case_match; intros Hf; simplify_eq; try (split; [lia|done]).
    apply IH in Hf as [H1 H2]. split; [lia|done].
Qed.

(** With nothing used, no partner means nothing in the slice merges. *)
Lemma find_partner_None rect1 (j : nat) rest :
  find_partner rect1 j rest ∅ = None →
  ∀ rect2, rect2 ∈ rest → mergeable rect1 rect2 = false.
Proof.
  revert j. induction rest as [|r rest IH]; intros j; simpl.
  - intros _ rect2 H. by apply elem_of_nil in H.
  - rewrite bool_decide_eq_false_2 by set_solver.
    destruct rect1 as [[[x1 y1] w1] h1], r as [[[x2 y2] w2] h2].
    destruct (can_merge_horizontally (x1, y1, w1, h1) (x2, y2, w2, h2)) eqn:Eh; [done|].
    destruct (can_merge_vertically (x1, y1, w1, h1) (x2, y2, w2, h2)) eqn:Ev; [done|].
    intros H rect2. rewrite elem_of_cons. intros [->|Hin].
    + unfold mergeable. by rewrite Eh, Ev.
    + by apply (IH (S j)).
Qed.

(** Once set, the flag [merged] stays set for the rest of the pass. *)
Lemma merge_pass_from_sticky (l : list Rect) (i : nat) nr used :
  (merge_pass_from i l (nr, used, true)).2 = true.
Proof.
  revert i nr used. induction l as [|r l IH]; intros i nr used; simpl; [done|].
  case_bool_decide; [apply IH|].
  destruct (find_partner r (S i) l used) as [[j m]|]; apply IH.
Qed.

(** A pass that ends with [merged = False] started from an unused set
    leaves the list as it was, and no two entries of it merge. *)
Lemma merge_pass_from_quiet (l : list Rect) (i : nat) nr b nr' used' :
  merge_pass_from i l (nr, ∅, b) = (nr', used', false) →
  nr' = nr ++ l ∧
  ∀ (a c : nat) r1 r2, (a < c)%nat → l !! a = Some r1 → l !! c = Some r2 →
    mergeable r1 r2 = false.
Proof.
  revert i nr b. induction l as [|r l IH]; intros i nr b; simpl.
  - intros H. simplify_eq. split; [by rewrite app_nil_r|]. intros; done.
  - rewrite bool_decide_eq_false_2 by set_solver.
    destruct (find_partner r (S i) l ∅) as [[j m]|] eqn:Ef.
    + intros H.
      pose proof (merge_pass_from_sticky l (S i) (nr ++ [m]) ({[i]} ∪ {[j]} ∪ ∅)) as Hs.
      rewrite H in Hs. done.
    + intros H. apply IH in H as [-> Hpairs].
      split; [by rewrite <- app_assoc|].
      intros [|a] [|c] r1 r2 Hac H1 H2; simpl in *; try lia.
      * simplify_eq. eapply find_partner_None; [done|].
        by eapply list_elem_of_lookup_2.
      * apply (Hpairs a c); [lia|done..].
Qed.

Lemma unused_S (i n : nat) (used : gset nat) :
  unused i (S n) used = ((if bool_decide (i ∈ used) then 0 else 1) + unused (S i) n used)%nat.
Proof.
  unfold unused. simpl. rewrite filter_cons.
  case_decide; case_bool_decide; done.
Qed.

Lemma unused_mono (i n : nat) (used used' : gset nat) :
  used ⊆ used' → (unused i n used' <= unused i n used)%nat.
Proof.
  intros Hsub. revert i. induction n as [|n IH]; intros i; [done|].
  rewrite !unused_S. specialize (IH (S i)).
  repeat case_bool_decide; try lia. set_solver.
Qed.

Lemma unused_add (i n : nat) (used : gset nat) (a j : nat) :
  (i <= j < i + n)%nat → j ∉ used →
  (unused i n ({[a]} ∪ {[j]} ∪ used) + 1 <= unused i n used)%nat.
Proof.
  revert i. induction n as [|n IH]; intros i Hj Hnot; [lia|].
  rewrite !unused_S.
  destruct (decide (i = j)) as [->|Hne].
  - rewrite (bool_decide_eq_true_2 (j ∈ {[a]} ∪ {[j]} ∪ used)) by set_solver.
    rewrite (bool_decide_eq_false_2 (j ∈ used)) by done.
    pose proof (unused_mono (S j) n used ({[a]} ∪ {[j]} ∪ used) ltac:(set_solver)).
    lia.
  - specialize (IH (S i) ltac:(lia) Hnot).
    repeat case_bool_decide; try lia. set_solver.
Qed.

(** Length accounting for one pass: every unused index contributes at most
    one rectangle, and a pass that sets [merged] contributes one fewer. *)
Lemma merge_pass_from_length (l : list Rect) (i : nat) nr used b nr' used' b' :
  merge_pass_from i l (nr, used, b) = (nr', used', b') →
  (length nr' + (if b' && negb b then 1 else 0)
   <= length nr + unused i (length l) used)%nat.
Proof.
  revert i nr used b. induction l as [|r l IH]; intros i nr used b; simpl.
  - intros H. simplify_eq. destruct b'; simpl; lia.
  - rewrite unused_S. case_bool_decide as Hi.
    + intros H. apply IH in H. lia.
    + destruct (find_partner r (S i) l used) as [[j m]|] eqn:Ef.
      * intros H. pose proof H as Hb.
        apply (f_equal snd) in Hb. rewrite merge_pass_from_sticky in Hb. simpl in Hb.
        subst b'. apply IH in H. rewrite length_app in H. simpl in H.
        apply find_partner_Some in Ef as [Hj Hnot].
        pose proof (unused_add (S i) (length l) used i j Hj Hnot).
        destruct b; simpl in *; lia.
      * intros H. apply IH in H. rewrite length_app in H. simpl in H. lia.
Qed.

Lemma unused_empty (i n : nat) : unused i n ∅ = n.
Proof.
  revert i. induction n as [|n IH]; intros i; [done|].
  rewrite unused_S, IH. by rewrite bool_decide_eq_false_2 by set_solver.
Qed.

(** A pass that merges returns strictly fewer rectangles. *)
Lemma merge_pass_decreases (rects new_rects : list Rect) :
  merge_pass rects = (new_rects, true) → (length new_rects < length rects)%nat.
Proof.
  unfold merge_pass.
  destruct (merge_pass_from 0 rects ([], ∅, false)) as [[nr u] b] eqn:E.
  intros H. simplify_eq.
  apply merge_pass_from_length in E. rewrite unused_empty in E. simpl in E. lia.
Qed.

(** A pass that does not merge returns its input, which is a fixed point. *)
Lemma merge_pass_quiet (rects new_rects : list Rect) :
  merge_pass rects = (new_rects, false) →
  new_rects = rects ∧ merge_fixed_point rects.
Proof.
  unfold merge_pass.
  destruct (merge_pass_from 0 rects ([], ∅, false)) as [[nr u] b] eqn:E.
  intros H. simplify_eq.
  apply merge_pass_from_quiet in E as [-> Hpairs]. split; [done|].
  intros i j r1 r2 Hij H1 H2.
  destruct (decide (i < j)%nat).
  - by apply (Hpairs i j).
  - rewrite mergeable_sym. apply (Hpairs j i); [lia|done..].
Qed.

Lemma merge_rectangles_total (fuel : nat) (rects : list Rect) :
  (length rects < fuel)%nat →
  ∃ out, merge_rectangles fuel rects = Some out ∧ merge_fixed_point out ∧
         (length out <= length rects)%nat.
Proof.
  revert rects. induction fuel as [|fuel IH]; intros rects Hlen; [lia|].
  simpl. destruct (merge_pass rects) as [new_rects [|]] eqn:E.
  - apply merge_pass_decreases in E.
    destruct (IH new_rects ltac:(lia)) as (out & Hout & Hfix & Hle).
    exists out. split; [done|]. split; [done|lia].
  - apply merge_pass_quiet in E as [-> Hfix]. by exists rects.
Qed.

(** With nothing used, a rectangle that merges with nothing in the slice
    finds no partner. *)
Lemma find_partner_fixed (rect1 : Rect) (j : nat) (rest : list Rect) :
  (∀ rect2, rect2 ∈ rest → mergeable rect1 rect2 = false) →
  find_partner rect1 j rest ∅ = None.
Proof.
  revert j. induction rest as [|rect2 rest IH]; intros j Hrest; simpl; [done|].
  rewrite bool_decide_eq_false_2 by set_solver.
  destruct rect1 as [[[x1 y1] w1] h1], rect2 as [[[x2 y2] w2] h2].
  pose proof (Hrest (x2, y2, w2, h2) ltac:(by left)) as Hm.
  unfold mergeable in Hm. apply orb_false_iff in Hm as [-> ->].
  apply IH. intros rect3 H3. apply Hrest. by right.
Qed.

(** A pass over a fixed point merges nothing and returns the list. *)
Lemma merge_pass_fixed (rects : list Rect) :
  merge_fixed_point rects → merge_pass rects = (rects, false).
Proof.
  intros Hfix. unfold merge_pass.
  assert (Hgen : ∀ l i nr b,
            merge_fixed_point l →
            merge_pass_from i l (nr, ∅, b) = (nr ++ l, ∅, b)).
  { induction l as [|r l IH]; intros i nr b Hl; simpl.
    - by rewrite app_nil_r.
    - rewrite bool_decide_eq_false_2 by set_solver.
      rewrite find_partner_fixed.
      + rewrite IH; [by rewrite <- app_assoc|].
        intros a c r1 r2 Hac H1 H2. apply (Hl (S a) (S c)); [lia|done..].
      + intros r2 Hin. apply list_elem_of_lookup_1 in Hin as [k Hk].
        apply (Hl 0%nat (S k)); [lia|done..]. }
  by rewrite (Hgen rects 0%nat [] false Hfix).
Qed.

(** The loop at work: three unit squares in a row and the strip above them
    coalesce into one rectangle in three merging passes. *)
Example merge_rectangles_example :
  merge_pass [(0, 0, 1, 1); (1, 0, 1, 1); (2, 0, 1, 1); (0, 1, 3, 1)]
    = ([(0, 0, 2, 1); (2, 0, 1, 1); (0, 1, 3, 1)], true) ∧
  merge_rectangles 5 [(0, 0, 1, 1); (1, 0, 1, 1); (2, 0, 1, 1); (0, 1, 3, 1)]
    = Some [(0, 0, 3, 2)].
Proof. split; vm_compute; reflexivity. Qed.

(** C10: for every list of free rectangles, each pass of the merge loop
    that performs a merge returns strictly fewer rectangles; hence the loop
    stops within [length rects + 1] passes, and the list it stops with is a
    fixed point: no two entries share an edge with equal heights or equal
    widths, and a further pass returns it unchanged. *)
Theorem C10_merge_pass_terminates_at_fixed_point (rects : list Rect) :
  (∀ l new_rects, merge_pass l = (new_rects, true) →
                  (length new_rects < length l)%nat) ∧
  ∃ out, merge_rectangles (S (length rects)) rects = Some out ∧
         merge_fixed_point out ∧
         merge_pass out = (out, false).
Proof.
  split; [apply merge_pass_decreases|].
  destruct (merge_rectangles_total (S (length rects)) rects ltac:(lia))
    as (out & Hout & Hfix & _).
  exists out. split; [done|]. split; [done|]. by apply merge_pass_fixed.
Qed.

End FreeRectsFacts.

Module SolverFacts.
Import Core Solvers.

(** *** Overlap and shared cells *)

Lemma elem_of_py_range (lo hi k : Z) : k ∈ py_range lo hi ↔ lo <= k < hi.
Proof. unfold py_range. rewrite elem_of_seqZ. lia. Qed.

Lemma elem_of_footprint (x y w h cx cy : Z) :
  (cx, cy) ∈ footprint x y w h ↔ x <= cx < x + w ∧ y <= cy < y + h.
Proof.
  unfold footprint. rewrite list_elem_of_bind. split.
  - intros (fx & Hin & Hfx). apply list_elem_of_bind in Hin as (fy & Hin & Hfy).
    apply list_elem_of_singleton in Hin. simplify_eq.
    apply elem_of_py_range in Hfx, Hfy. lia.
  - intros [Hx Hy]. exists cx. split; [|by apply elem_of_py_range].
    apply list_elem_of_bind. exists cy. split; [by apply list_elem_of_singleton|].
    by apply elem_of_py_range.
Qed.

(** Two overlapping rectangles of positive size share an integer cell. *)
Lemma overlap_shares_cell (t1 t2 : TilePosition) :
  0 < tp_w t1 → 0 < tp_h t1 → 0 < tp_w t2 → 0 < tp_h t2 →
  tiles_overlap t1 t2 = true →
  ∃ cx cy, (cx, cy) ∈ footprint (tp_x t1) (tp_y t1) (tp_w t1) (tp_h t1) ∧
           (cx, cy) ∈ footprint (tp_x t2) (tp_y t2) (tp_w t2) (tp_h t2).
Proof.
  unfold tiles_overlap, rectangles_overlap.
  intros Hw1 Hh1 Hw2 Hh2 H. apply negb_true_iff in H.
  repeat (apply orb_false_iff in H as [H ?]).
  repeat match goal with Hle : (_ <=? _) = false |- _ => apply Z.leb_gt in Hle end.
  exists (Z.max (tp_x t1) (tp_x t2)), (Z.max (tp_y t1) (tp_y t2)).
  rewrite !elem_of_footprint. lia.
Qed.

Lemma tiles_overlap_sym (t1 t2 : TilePosition) :
  tiles_overlap t1 t2 = tiles_overlap t2 t1.
Proof.
  unfold tiles_overlap, rectangles_overlap. f_equal.
  destruct (tp_x t1 + tp_w t1 <=? tp_x t2), (tp_x t2 + tp_w t2 <=? tp_x t1),
           (tp_y t1 + tp_h t1 <=? tp_y t2), (tp_y t2 + tp_h t2 <=? tp_y t1); done.
Qed.

Lemma placements_ok_nil (problem : PackingProblem) : placements_ok problem [].
Proof. split; [intros t H; by apply elem_of_nil in H|intros; done]. Qed.

(** Appending a placement that is inside the container and overlaps none
    of the earlier ones. *)
Lemma placements_ok_snoc (problem : PackingProblem) (l : list TilePosition) (t : TilePosition) :
  placements_ok problem l → within_container problem t →
  (∀ u, u ∈ l → tiles_overlap u t = false) →
  placements_ok problem (l ++ [t]).
Proof.
  intros [Hin Hpair] Ht Hnew. split.
  - intros u. rewrite elem_of_app, list_elem_of_singleton. intros [Hu| ->]; auto.
  - intros i j t1 t2 Hij H1 H2.
    apply lookup_snoc_Some in H1 as [[Hi H1]|[Hi <-]];
    apply lookup_snoc_Some in H2 as [[Hj H2]|[Hj <-]].
    + by apply (Hpair i j).
    + apply Hnew. by eapply list_elem_of_lookup_2.
    + rewrite tiles_overlap_sym. apply Hnew. by eapply list_elem_of_lookup_2.
    + lia.
Qed.

(** A duplicate-free list whose distinct members do not overlap. *)
Lemma placements_ok_NoDup (problem : PackingProblem) (l : list TilePosition) :
  NoDup l →
  (∀ t, t ∈ l → within_container problem t) →
  (∀ t1 t2, t1 ∈ l → t2 ∈ l → t1 ≠ t2 → tiles_overlap t1 t2 = false) →
  placements_ok problem l.
Proof.
  intros Hnd Hin Hpair. split; [done|].
  intros i j t1 t2 Hij H1 H2.
  apply Hpair; [by eapply list_elem_of_lookup_2..|].
  intros ->. apply Hij. by eapply NoDup_lookup.
Qed.

(** *** Greedy *)

Lemma can_place_at_true (x y w h : Z) (occupied : gset (Z * Z)) :
  can_place_at x y w h occupied = true ↔
  ∀ c, c ∈ footprint x y w h → c ∉ occupied.
Proof.
  unfold can_place_at. rewrite forallb_forall. split.
  - intros H c Hc. apply list_elem_of_In in Hc. apply H in Hc.
    apply negb_true_iff, bool_decide_eq_false in Hc. done.
  - intros H c Hc. apply list_elem_of_In in Hc.
    apply negb_true_iff, bool_decide_eq_false. by apply H.
Qed.

Lemma elem_of_foldl_insert (l : list (Z * Z)) (occ : gset (Z * Z)) (c : Z * Z) :
  c ∈ foldl (fun occ c => {[c]} ∪ occ) occ l ↔ c ∈ occ ∨ c ∈ l.
Proof.
  revert occ. induction l as [|a l IH]; intros occ; simpl.
  - rewrite elem_of_nil. tauto.
  - rewrite IH, elem_of_cons. set_solver.
Qed.

Lemma elem_of_occupy (occupied : gset (Z * Z)) (x y w h : Z) (c : Z * Z) :
  c ∈ occupy occupied x y w h ↔ c ∈ occupied ∨ c ∈ footprint x y w h.
Proof. apply elem_of_foldl_insert. Qed.

Lemma greedy_inv_init (problem : PackingProblem) : greedy_inv problem [] ∅.
Proof.
  split; [apply placements_ok_nil|].
  split; [intros t H|intros t c H]; by apply elem_of_nil in H.
Qed.

Lemma greedy_inv_step (problem : PackingProblem) placed occupied (x y w h : Z) (o : string) :
  greedy_inv problem placed occupied →
  can_place_at x y w h occupied = true →
  0 < w → 0 < h →
  within_container problem (x, y, w, h, o) →
  greedy_inv problem (placed ++ [(x, y, w, h, o)]) (occupy occupied x y w h).
Proof.
  intros (Hok & Hpos & Hocc) Hfree Hw Hh Hin. split; [|split].
  - apply placements_ok_snoc; [done..|].
    intros u Hu. destruct (tiles_overlap u (x, y, w, h, o)) eqn:E; [|done].
    apply overlap_shares_cell in E as (cx & cy & H1 & H2);
      [|by apply Hpos..|done|done].
    simpl in H2.
    exfalso. eapply can_place_at_true; [done|exact H2|]. by eapply Hocc.
  - intros t. rewrite elem_of_app, list_elem_of_singleton.
    intros [Ht| ->]; [by apply Hpos|done].
  - intros t c. rewrite elem_of_app, list_elem_of_singleton, elem_of_occupy.
    intros [Ht| ->] Hc; [left; by eapply Hocc|right; done].
Qed.

Lemma find_best_bottom_left_position_Some problem occupied (x y w h : Z) :
  find_best_bottom_left_position problem occupied = Some (x, y, w, h) →
  w = tile_w problem ∧ h = tile_h problem ∧
  0 <= x ∧ x + w <= container_w problem ∧ 0 <= y ∧ y + h <= container_h problem ∧
  can_place_at x y w h occupied = true.
Proof.
  unfold find_best_bottom_left_position.
  destruct (find _ _) as [[x' y']|] eqn:E; [|done].
  intros H. simplify_eq. apply find_some in E as [Hin Hfree].
  apply list_elem_of_In, list_elem_of_bind in Hin as (y0 & Hin & Hy).
  apply list_elem_of_bind in Hin as (x0 & Hin & Hx).
  apply list_elem_of_singleton in Hin. simplify_eq.
  apply elem_of_py_range in Hx, Hy. repeat split; try done; lia.
Qed.

Lemma bottom_left_loop_ok problem (n : nat) placed occupied :
  0 < tile_w problem → 0 < tile_h problem →
  greedy_inv problem placed occupied →
  placements_ok problem (bottom_left_loop problem n placed occupied).
Proof.
  intros Htw Hth.
  revert placed occupied. induction n as [|n IH]; intros placed occupied Hinv; simpl.
  - apply Hinv.
  - destruct (find_best_bottom_left_position problem occupied)
      as [[[[x y] w] h]|] eqn:E; [|apply Hinv].
    apply find_best_bottom_left_position_Some in E as (-> & -> & ? & ? & ? & ? & Hfree).
    apply IH. apply greedy_inv_step; [done..|]. simpl. lia.
Qed.

Lemma elem_of_insert_triple (a b : Z * Z * Z) (l : list (Z * Z * Z)) :
  b ∈ insert_triple a l ↔ b = a ∨ b ∈ l.
Proof.
  induction l as [|c l IH]; simpl.
  - rewrite list_elem_of_singleton, elem_of_nil. tauto.
  - destruct (triple_le a c); rewrite !elem_of_cons; [done|]. rewrite IH. tauto.
Qed.

Lemma elem_of_sort_triples (b : Z * Z * Z) (l : list (Z * Z * Z)) :
  b ∈ sort_triples l ↔ b ∈ l.
Proof.
  induction l as [|a l IH]; simpl; [done|].
  rewrite elem_of_insert_triple, elem_of_cons, IH. done.
Qed.

Lemma center_out_candidates_fit problem (d x y : Z) :
  (d, x, y) ∈ center_out_candidates problem →
  0 <= x ∧ 0 <= y ∧
  x + tile_w problem <= container_w problem ∧ y + tile_h problem <= container_h problem.
Proof.
  unfold center_out_candidates. rewrite elem_of_sort_triples.
  intros Hin. apply list_elem_of_bind in Hin as (x0 & Hin & Hx).
  apply list_elem_of_bind in Hin as (y0 & Hin & Hy).
  apply elem_of_py_range in Hx, Hy.
  destruct (x0 + tile_w problem <=? container_w problem) eqn:E1;
  destruct (y0 + tile_h problem <=? container_h problem) eqn:E2;
  simpl in Hin; try by apply elem_of_nil in Hin.
  apply list_elem_of_singleton in Hin. simplify_eq. lia.
Qed.

Lemma center_out_loop_ok problem (max_tiles : Z) positions placed occupied :
  0 < tile_w problem → 0 < tile_h problem →
  (∀ d x y, (d, x, y) ∈ positions →
     0 <= x ∧ 0 <= y ∧
     x + tile_w problem <= container_w problem ∧ y + tile_h problem <= container_h problem) →
  greedy_inv problem placed occupied →
  placements_ok problem (center_out_loop problem max_tiles positions placed occupied).
Proof.
  intros Htw Hth. revert placed occupied.
  induction positions as [|[[d x] y] rest IH]; intros placed occupied Hfit Hinv; simpl.
  - apply Hinv.
  - destruct (Z.of_nat (length placed) >=? max_tiles); [apply Hinv|].
    assert (Hrest : ∀ d x y, (d, x, y) ∈ rest →
              0 <= x ∧ 0 <= y ∧ x + tile_w problem <= container_w problem ∧
              y + tile_h problem <= container_h problem).
    { intros d' x' y' H. apply (Hfit d'). by right. }
    destruct (can_place_at x y (tile_w problem) (tile_h problem) occupied) eqn:E.
    + apply IH; [done|]. apply greedy_inv_step; [done..|].
      simpl. specialize (Hfit d x y ltac:(by left)). lia.
    + by apply IH.
Qed.

Lemma solve_bottom_left_ok problem :
  0 < tile_w problem → 0 < tile_h problem →
  placements_ok problem (solve_bottom_left problem).
Proof. intros. apply bottom_left_loop_ok; [done..|apply greedy_inv_init]. Qed.

Lemma solve_center_out_ok problem :
  0 < tile_w problem → 0 < tile_h problem →
  placements_ok problem (solve_center_out problem).
Proof.
  intros Htw Hth. apply center_out_loop_ok; [exact Htw|exact Hth| |apply greedy_inv_init].
  intros d x y. apply center_out_candidates_fit.
Qed.

(** *** Mathematical *)

Lemma elem_of_insert_desc (a b : Arrangement) (l : list Arrangement) :
  b ∈ insert_desc a l ↔ b = a ∨ b ∈ l.
Proof.
  induction l as [|c l IH]; simpl.
  - rewrite list_elem_of_singleton, elem_of_nil. tauto.
  - destruct (arr_total c <=? arr_total a); rewrite !elem_of_cons; [done|].
    rewrite IH. tauto.
Qed.

Lemma elem_of_sort_desc (b : Arrangement) (l : list Arrangement) :
  b ∈ sort_desc l ↔ b ∈ l.
Proof.
  induction l as [|a l IH]; simpl; [done|].
  rewrite elem_of_insert_desc, elem_of_cons, IH. done.
Qed.

Lemma find_rectangular_arrangements_fit problem (a : Arrangement) :
  a ∈ find_rectangular_arrangements problem → arrangement_fits problem a.
Proof.
  unfold find_rectangular_arrangements. rewrite elem_of_sort_desc.
  intros Hin. apply list_elem_of_bind in Hin as (rows & Hin & Hrows).
  apply list_elem_of_bind in Hin as (cols & Hin & Hcols).
  apply elem_of_py_range in Hrows, Hcols.
  destruct (rows * cols <=? tile_budget problem); [|by apply elem_of_nil in Hin].
  destruct (cols * tile_w problem <=? container_w problem) eqn:E1;
  destruct (rows * tile_h problem <=? container_h problem) eqn:E2;
  simpl in Hin; try by apply elem_of_nil in Hin.
  apply list_elem_of_singleton in Hin. subst a. simpl.
  apply Z.leb_le in E1, E2. lia.
Qed.

Lemma max_by_total_elem (a : Arrangement) (l : list Arrangement) :
  max_by_total a l ∈ a :: l.
Proof.
  unfold max_by_total. revert a. induction l as [|b l IH]; intros a; simpl.
  - by left.
  - destruct (arr_total b >? arr_total a).
    + right. apply IH.
    + specialize (IH a). apply elem_of_cons in IH as [->|IH]; [by left|].
      right. by right.
Qed.

Lemma elem_of_grid_positions problem (a : Arrangement) (t : TilePosition) :
  t ∈ grid_positions problem a ↔
  let '(rows, cols, start_x, start_y, _) := a in
  ∃ r c, 0 <= r < rows ∧ 0 <= c < cols ∧
         t = (start_x + c * tile_w problem, start_y + r * tile_h problem,
              tile_w problem, tile_h problem, "original").
Proof.
  destruct a as [[[[rows cols] start_x] start_y] total]. unfold grid_positions.
  rewrite list_elem_of_bind. split.
  - intros (r & Hin & Hr). apply list_elem_of_bind in Hin as (c & Hin & Hc).
    apply list_elem_of_singleton in Hin. apply elem_of_py_range in Hr, Hc.
    exists r, c. split; [lia|]. split; [lia|done].
  - intros (r & c & Hr & Hc & ->). exists r. split; [|apply elem_of_py_range; lia].
    apply list_elem_of_bind. exists c. split; [|apply elem_of_py_range; lia].
    by apply list_elem_of_singleton.
Qed.

Lemma grid_positions_NoDup problem (a : Arrangement) :
  0 < tile_w problem → 0 < tile_h problem → NoDup (grid_positions problem a).
Proof.
  intros Htw Hth. destruct a as [[[[rows cols] start_x] start_y] total].
  unfold grid_positions. apply NoDup_bind; [| |apply NoDup_seqZ].
  - intros r1 r2 t _ _ H1 H2.
    apply list_elem_of_bind in H1 as (c1 & H1 & _).
    apply list_elem_of_bind in H2 as (c2 & H2 & _).
    apply list_elem_of_singleton in H1, H2. simplify_eq. nia.
  - intros r _. apply NoDup_bind; [| |apply NoDup_seqZ].
    + intros c1 c2 t _ _ H1 H2.
      apply list_elem_of_singleton in H1, H2. simplify_eq. nia.
    + intros c _. apply NoDup_singleton.
Qed.

(** The tiles of an arrangement that fits are laid out without overlap
    inside the container. *)
Lemma grid_positions_ok problem (a : Arrangement) :
  0 < tile_w problem → 0 < tile_h problem →
  arrangement_fits problem a →
  placements_ok problem (grid_positions problem a).
Proof.
  intros Htw Hth Hfit. apply placements_ok_NoDup.
  - by apply grid_positions_NoDup.
  - intros t Ht. apply elem_of_grid_positions in Ht.
    destruct a as [[[[rows cols] start_x] start_y] total].
    destruct Ht as (r & c & Hr & Hc & ->).
    destruct Hfit as (Hrows & Hcols & Hw & Hh & -> & ->). simpl.
    pose proof (Z.div_mod (container_w problem - cols * tile_w problem) 2 ltac:(lia)).
    pose proof (Z.mod_pos_bound (container_w problem - cols * tile_w problem) 2 ltac:(lia)).
    pose proof (Z.div_mod (container_h problem - rows * tile_h problem) 2 ltac:(lia)).
    pose proof (Z.mod_pos_bound (container_h problem - rows * tile_h problem) 2 ltac:(lia)).
    nia.
  - intros t1 t2 H1 H2 Hne.
    apply elem_of_grid_positions in H1, H2.
    destruct a as [[[[rows cols] start_x] start_y] total].
    destruct H1 as (r1 & c1 & Hr1 & Hc1 & ->).
    destruct H2 as (r2 & c2 & Hr2 & Hc2 & ->).
    unfold tiles_overlap, rectangles_overlap; simpl.
    apply negb_false_iff. rewrite !orb_true_iff, !Z.leb_le.
    destruct (decide (c1 = c2)) as [->|Hc].
    + destruct (decide (r1 = r2)) as [->|Hr]; [done|].
      destruct (decide (r1 < r2)); [left; right|right]; nia.
    + left. left. destruct (decide (c1 < c2)); [left|right]; nia.
Qed.

Lemma mathematical_solve_ok problem :
  0 < tile_w problem → 0 < tile_h problem →
  placements_ok problem (tile_positions (mathematical_solve problem)).
Proof.
  intros Htw Hth. unfold mathematical_solve.
  destruct (find_rectangular_arrangements problem) as [|a l] eqn:E; simpl.
  - apply placements_ok_nil.
  - apply grid_positions_ok; [done..|].
    apply find_rectangular_arrangements_fit. rewrite E. apply max_by_total_elem.
Qed.

Lemma elem_of_py_take {A} (n : Z) (l : list A) (x : A) : x ∈ py_take n l → x ∈ l.
Proof.
  unfold py_take. destruct (n <? 0); apply subseteq_take.
Qed.

Lemma mathematical_solve_all_optimal_ok problem (max_solutions : Z) (s : PackingSolution) :
  0 < tile_w problem → 0 < tile_h problem →
  s ∈ mathematical_solve_all_optimal problem max_solutions →
  placements_ok problem (tile_positions s).
Proof.
  intros Htw Hth. unfold mathematical_solve_all_optimal.
  destruct (find_rectangular_arrangements problem) as [|a l] eqn:E.
  - intros H. by apply elem_of_nil in H.
  - intros H. apply list_elem_of_fmap in H as (arr & -> & Harr). simpl.
    apply elem_of_py_take, list_elem_of_filter in Harr as [_ Harr].
    apply grid_positions_ok; [done..|].
    apply find_rectangular_arrangements_fit. by rewrite E.
Qed.


(** *** The occupancy grid *)

Lemma cell_lookup (g : Grid) (i j : nat) (row : list Z) (v : Z) :
  g !! i = Some row → row !! j = Some v → cell g i j = v.
Proof. intros Hi Hj. unfold cell. rewrite Hi. simpl. by rewrite Hj. Qed.

Lemma shaped_lookup (H W : nat) (g : Grid) (i j : nat) :
  shaped H W g → (i < H)%nat → (j < W)%nat →
  ∃ row, g !! i = Some row ∧ length row = W ∧ row !! j = Some (cell g i j).
Proof.
  intros [Hlen Hrows] Hi Hj.
  destruct (lookup_lt_is_Some_2 g i ltac:(lia)) as [row Hrow].
  pose proof (Hrows i row Hrow) as Hw.
  destruct (lookup_lt_is_Some_2 row j ltac:(lia)) as [v Hv].
  exists row. split; [done|]. split; [done|].
  by rewrite (cell_lookup g i j row v).
Qed.

Lemma shaped_width (H W : nat) (g : Grid) :
  shaped H W g → (0 < H)%nat → width g = W.
Proof.
  intros [Hlen Hrows] HH. destruct g as [|row g]; simpl in *; [lia|].
  by apply (Hrows 0%nat).
Qed.

Lemma shaped_new_grid (problem : PackingProblem) :
  shaped (Z.to_nat (container_h problem)) (Z.to_nat (container_w problem))
         (new_grid problem).
Proof.
  unfold new_grid. split; [apply length_replicate|].
  intros i row Hrow. apply lookup_replicate in Hrow as [-> _].
  apply length_replicate.
Qed.

Lemma cell_new_grid (problem : PackingProblem) (i j : nat) :
  cell (new_grid problem) i j = 0.
Proof.
  unfold cell. destruct (new_grid problem !! i) as [row|] eqn:Hrow; [|done].
  apply lookup_replicate in Hrow as [-> _]. simpl.
  destruct (_ !! j) as [v|] eqn:Hv; [|done].
  by apply lookup_replicate in Hv as [-> _].
Qed.

Lemma set_cell_shaped (H W : nat) (g : Grid) (i j : nat) (v : Z) :
  shaped H W g → shaped H W (set_cell g i j v).
Proof.
  intros [Hlen Hrows]. unfold set_cell. split; [by rewrite length_alter|].
  intros i' row. destruct (decide (i = i')) as [->|Hne].
  - rewrite list_lookup_alter_eq. destruct (g !! i') as [row'|] eqn:E; simpl; [|done].
    intros ?; simplify_eq. rewrite length_insert. by eapply Hrows.
  - rewrite list_lookup_alter_ne by done. apply Hrows.
Qed.

Lemma cell_set_cell_eq (H W : nat) (g : Grid) (i j : nat) (v : Z) :
  shaped H W g → (i < H)%nat → (j < W)%nat → cell (set_cell g i j v) i j = v.
Proof.
  intros Hs Hi Hj. destruct (shaped_lookup H W g i j Hs Hi Hj) as (row & Hrow & Hlen & _).
  unfold cell, set_cell. rewrite list_lookup_alter_eq, Hrow. simpl.
  by rewrite list_lookup_insert_eq by lia.
Qed.

Lemma cell_set_cell_ne (g : Grid) (i j i' j' : nat) (v : Z) :
  (i, j) ≠ (i', j') → cell (set_cell g i j v) i' j' = cell g i' j'.
Proof.
  intros Hne. unfold cell, set_cell.
  destruct (decide (i = i')) as [->|Hi].
  - rewrite list_lookup_alter_eq. destruct (g !! i') as [row|]; simpl; [|done].
    rewrite list_lookup_insert_ne by congruence. done.
  - by rewrite list_lookup_alter_ne.
Qed.

Lemma fill_row_spec (H W : nat) (i : nat) (v : Z) (w c : nat) (g : Grid) :
  shaped H W g → (i < H)%nat → (c + w <= W)%nat →
  shaped H W (fill_row g i c w v) ∧
  ∀ i' j', cell (fill_row g i c w v) i' j' =
           if decide (i' = i ∧ (c <= j' < c + w)%nat) then v else cell g i' j'.
Proof.
  unfold fill_row. revert c g. induction w as [|w IH]; intros c g Hs Hi Hc; simpl.
  - split; [done|]. intros i' j'. case_decide; [lia|done].
  - destruct (IH (S c) (set_cell g i c v)) as [Hs' Hcell];
      [by apply set_cell_shaped|done|lia|].
    split; [done|]. intros i' j'. rewrite Hcell.
    destruct (decide (i' = i ∧ (S c <= j' < S c + w)%nat)) as [[-> Hj]|Hout].
    + rewrite decide_True by lia. done.
    + destruct (decide ((i, c) = (i', j'))) as [Heq|Hne].
      * simplify_eq. rewrite decide_True by lia.
        by apply (cell_set_cell_eq H W); [|lia..].
      * rewrite cell_set_cell_ne by done.
        rewrite decide_False; [done|]. intros [-> Hj]. 
        destruct (decide (j' = c)) as [->|]; [done|]. apply Hout. lia.
Qed.

Lemma fill_tile_spec (H W : nat) (c w : nat) (v : Z) (h r : nat) (g : Grid) :
  shaped H W g → (r + h <= H)%nat → (c + w <= W)%nat →
  shaped H W (fill_tile g r c h w v) ∧
  ∀ i j, cell (fill_tile g r c h w v) i j =
         if decide (in_rect (r, c, h, w) i j) then v else cell g i j.
Proof.
  unfold fill_tile. revert r g. induction h as [|h IH]; intros r g Hs Hr Hc; simpl.
  - split; [done|]. intros i j. case_decide; [lia|done].
  - destruct (fill_row_spec H W r v w c g Hs ltac:(lia) Hc) as [Hs1 Hcell1].
    destruct (IH (S r) (fill_row g r c w v) Hs1 ltac:(lia) Hc) as [Hs2 Hcell2].
    split; [done|]. intros i j. rewrite Hcell2, Hcell1. simpl.
    repeat case_decide; try done; lia.
Qed.

(** Two grids of the same shape with the same cells are the same list. *)
Lemma grid_ext (H W : nat) (g1 g2 : Grid) :
  shaped H W g1 → shaped H W g2 →
  (∀ i j, (i < H)%nat → (j < W)%nat → cell g1 i j = cell g2 i j) → g1 = g2.
Proof.
  intros Hs1 Hs2 Hcells. apply list_eq. intros i.
  destruct (decide (i < H)%nat) as [Hi|Hi].
  - destruct (lookup_lt_is_Some_2 g1 i ltac:(destruct Hs1; lia)) as [row1 Hrow1].
    destruct (lookup_lt_is_Some_2 g2 i ltac:(destruct Hs2; lia)) as [row2 Hrow2].
    rewrite Hrow1, Hrow2. f_equal. apply list_eq. intros j.
    destruct (decide (j < W)%nat) as [Hj|Hj].
    + destruct (shaped_lookup H W g1 i j Hs1 Hi Hj) as (r1 & Hr1 & _ & Hc1).
      destruct (shaped_lookup H W g2 i j Hs2 Hi Hj) as (r2 & Hr2 & _ & Hc2).
      simplify_eq. rewrite Hc1, Hc2. f_equal. by apply Hcells.
    + rewrite !lookup_ge_None_2; [done|..].
      * rewrite (proj2 Hs2 i row2 Hrow2). lia.
      * rewrite (proj2 Hs1 i row1 Hrow1). lia.
  - rewrite !lookup_ge_None_2; [done|destruct Hs2; lia|destruct Hs1; lia].
Qed.

Lemma elem_of_grid_cells (H W : nat) (g : Grid) (i j : nat) :
  shaped H W g → (0 < H)%nat →
  (i, j) ∈ grid_cells g ↔ (i < H)%nat ∧ (j < W)%nat.
Proof.
  intros Hs HH. unfold grid_cells.
  rewrite (shaped_width H W g Hs HH), (proj1 Hs).
  rewrite list_elem_of_bind. split.
  - intros (i' & Hin & Hi). apply list_elem_of_bind in Hin as (j' & Hin & Hj).
    apply list_elem_of_singleton in Hin. simplify_eq.
    apply elem_of_seq in Hi, Hj. lia.
  - intros [Hi Hj]. exists i. split; [|apply elem_of_seq; lia].
    apply list_elem_of_bind. exists j. split; [by apply list_elem_of_singleton|].
    apply elem_of_seq; lia.
Qed.

Lemma find_first_empty_Some (H W : nat) (g : Grid) (row col : nat) :
  shaped H W g → (0 < H)%nat →
  find_first_empty g = Some (row, col) →
  (row < H)%nat ∧ (col < W)%nat ∧ cell g row col = 0.
Proof.
  intros Hs HH Hfind. unfold find_first_empty in Hfind.
  apply find_some in Hfind as [Hin Hzero].
  apply list_elem_of_In, (elem_of_grid_cells H W) in Hin; [|done..].
  apply Z.eqb_eq in Hzero. tauto.
Qed.

Lemma can_place_true (H W : nat) (g : Grid) (r c h w : nat) :
  shaped H W g → (0 < H)%nat →
  can_place g r c h w = true ↔
  (r + h <= H)%nat ∧ (c + w <= W)%nat ∧ ∀ i j, in_rect (r, c, h, w) i j → cell g i j = 0.
Proof.
  intros Hs HH. unfold can_place.
  rewrite (shaped_width H W g Hs HH), (proj1 Hs).
  destruct (H <? r + h)%nat eqn:E1; simpl.
  { apply Nat.ltb_lt in E1. split; [done|lia]. }
  destruct (W <? c + w)%nat eqn:E2; simpl.
  { apply Nat.ltb_lt in E2. split; [done|lia]. }
  apply Nat.ltb_ge in E1, E2. rewrite forallb_forall. split.
  - intros Hall. split; [done|]. split; [done|]. intros i j [Hi Hj].
    specialize (Hall i). rewrite <- list_elem_of_In, elem_of_seq in Hall.
    specialize (Hall ltac:(lia)). rewrite forallb_forall in Hall.
    specialize (Hall j). rewrite <- list_elem_of_In, elem_of_seq in Hall.
    apply Z.eqb_eq, Hall. lia.
  - intros (_ & _ & Hzero) i Hi. apply list_elem_of_In, elem_of_seq in Hi.
    apply forallb_forall. intros j Hj. apply list_elem_of_In, elem_of_seq in Hj.
    apply Z.eqb_eq, Hzero. simpl. lia.
Qed.

(** Clearing a footprint that was written on empty cells restores the grid. *)
Lemma remove_place_tile (H W : nat) (g : Grid) (r c h w : nat) (tile_id : Z) :
  shaped H W g → (0 < H)%nat → can_place g r c h w = true →
  remove_tile (place_tile g r c h w tile_id) r c h w = g.
Proof.
  intros Hs HH Hcan. apply (can_place_true H W) in Hcan as (Hr & Hc & Hzero); [|done..].
  unfold remove_tile, place_tile.
  destruct (fill_tile_spec H W c w tile_id h r g Hs Hr Hc) as [Hs1 Hcell1].
  destruct (fill_tile_spec H W c w 0 h r _ Hs1 Hr Hc) as [Hs2 Hcell2].
  apply (grid_ext H W); [done..|]. intros i j _ _.
  rewrite Hcell2, Hcell1. case_decide; [|done]. symmetry. by apply Hzero.
Qed.

Lemma filter_length_lt {A} (P Q : A → Prop) `{∀ x, Decision (P x)} `{∀ x, Decision (Q x)}
    (l : list A) (x0 : A) :
  (∀ x, x ∈ l → P x → Q x) → x0 ∈ l → Q x0 → ¬ P x0 →
  (length (filter P l) < length (filter Q l))%nat.
Proof.
  intros HPQ Hin HQ HnP.
  assert (Heq : filter P l = filter P (filter Q l)).
  { clear Hin. induction l as [|a l IH]; [done|].
    rewrite !filter_cons.
    assert (IH' : filter P l = filter P (filter Q l)).
    { apply IH. intros x Hx. apply HPQ. by right. }
    destruct (decide (P a)) as [Ha|Ha].
    - rewrite decide_True by (apply HPQ; [by left|done]).
      rewrite filter_cons, decide_True by done. by f_equal.
    - destruct (decide (Q a)); [|done].
      by rewrite filter_cons, decide_False by done. }
  rewrite Heq. apply (length_filter_lt _ _ x0); [|done].
  by apply list_elem_of_filter.
Qed.

(** Labelling an empty footprint of positive size removes empty cells. *)
Lemma zeros_place_tile (H W : nat) (g : Grid) (r c h w : nat) (tile_id : Z) :
  shaped H W g → (0 < H)%nat → can_place g r c h w = true →
  (0 < h)%nat → (0 < w)%nat → tile_id ≠ 0 →
  (zeros (place_tile g r c h w tile_id) < zeros g)%nat.
Proof.
  intros Hs HH Hcan Hh Hw Hid.
  apply (can_place_true H W) in Hcan as (Hr & Hc & Hzero); [|done..].
  destruct (fill_tile_spec H W c w tile_id h r g Hs Hr Hc) as [Hs1 Hcell1].
  unfold zeros, place_tile.
  assert (Hcells : grid_cells (fill_tile g r c h w tile_id) = grid_cells g).
  { unfold grid_cells. 
    by rewrite (shaped_width H W _ Hs1 HH), (shaped_width H W _ Hs HH), (proj1 Hs1), (proj1 Hs). }
  rewrite Hcells.
  apply (filter_length_lt _ _ _ (r, c)).
  - intros [i j] _. simpl. rewrite Hcell1. case_decide; [done|done].
  - apply (elem_of_grid_cells H W); [done..|lia].
  - simpl. apply Hzero. simpl. lia.
  - simpl. rewrite Hcell1. rewrite decide_True by (simpl; lia). done.
Qed.


(** *** Extraction of placements from the grid *)

Lemma grow_w_spec (g : Grid) (r c : nat) (tile_id : Z) (fuel w0 : nat) :
  (w0 <= grow_w fuel g r c tile_id w0)%nat ∧
  ((c + w0 <= width g)%nat → (c + grow_w fuel g r c tile_id w0 <= width g)%nat) ∧
  ∀ k, (w0 <= k < grow_w fuel g r c tile_id w0)%nat → cell g r (c + k) = tile_id.
Proof.
  revert w0. induction fuel as [|fuel IH]; intros w0; simpl.
  - split; [lia|]. split; [done|]. intros; lia.
  - destruct (c + w0 <? width g)%nat eqn:E1; simpl; [|split; [lia|split; [done|intros; lia]]].
    destruct (cell g r (c + w0) =? tile_id) eqn:E2; [|split; [lia|split; [done|intros; lia]]].
    apply Nat.ltb_lt in E1. apply Z.eqb_eq in E2.
    destruct (IH (S w0)) as (Hle & Hbound & Hcells).
    split; [lia|]. split; [intros _; apply Hbound; lia|].
    intros k Hk. destruct (decide (k = w0)) as [->|Hne]; [done|]. apply Hcells. lia.
Qed.

Lemma grow_h_spec (g : Grid) (r c : nat) (tile_id : Z) (fuel h0 : nat) :
  (h0 <= grow_h fuel g r c tile_id h0)%nat ∧
  ((r + h0 <= length g)%nat → (r + grow_h fuel g r c tile_id h0 <= length g)%nat) ∧
  ∀ k, (h0 <= k < grow_h fuel g r c tile_id h0)%nat → cell g (r + k) c = tile_id.
Proof.
  revert h0. induction fuel as [|fuel IH]; intros h0; simpl.
  - split; [lia|]. split; [done|]. intros; lia.
  - destruct (r + h0 <? length g)%nat eqn:E1; simpl; [|split; [lia|split; [done|intros; lia]]].
    destruct (cell g (r + h0) c =? tile_id) eqn:E2; [|split; [lia|split; [done|intros; lia]]].
    apply Nat.ltb_lt in E1. apply Z.eqb_eq in E2.
    destruct (IH (S h0)) as (Hle & Hbound & Hcells).
    split; [lia|]. split; [intros _; apply Hbound; lia|].
    intros k Hk. destruct (decide (k = h0)) as [->|Hne]; [done|]. apply Hcells. lia.
Qed.

(** The loops stop because their guard fails, not because the bound on
    the number of iterations is reached. *)
Lemma grow_w_exit (g : Grid) (r c : nat) (tile_id : Z) (fuel w0 : nat) :
  (width g <= c + w0 + fuel)%nat →
  let w := grow_w fuel g r c tile_id w0 in
  (c + w <? width g)%nat && (cell g r (c + w) =? tile_id) = false.
Proof.
  revert w0. induction fuel as [|fuel IH]; intros w0 Hfuel; simpl.
  - replace (c + w0 <? width g)%nat with false; [done|].
    symmetry. apply Nat.ltb_ge. lia.
  - destruct ((c + w0 <? width g)%nat && (cell g r (c + w0) =? tile_id)) eqn:E; [|done].
    apply IH. lia.
Qed.

Lemma grow_h_exit (g : Grid) (r c : nat) (tile_id : Z) (fuel h0 : nat) :
  (length g <= r + h0 + fuel)%nat →
  let h := grow_h fuel g r c tile_id h0 in
  (r + h <? length g)%nat && (cell g (r + h) c =? tile_id) = false.
Proof.
  revert h0. induction fuel as [|fuel IH]; intros h0 Hfuel; simpl.
  - replace (r + h0 <? length g)%nat with false; [done|].
    symmetry. apply Nat.ltb_ge. lia.
  - destruct ((r + h0 <? length g)%nat && (cell g (r + h0) c =? tile_id)) eqn:E; [|done].
    apply IH. lia.
Qed.

Section Extraction.
Variables (H W : nat) (g : Grid) (rects : list Footprint) (problem : PackingProblem).
Hypothesis Hinv : grid_inv H W g rects.
Hypothesis HH : (0 < H)%nat.

(** A labelled cell belongs to the footprint numbered by its label. *)
Lemma labelled_cell (i j : nat) :
  (i < H)%nat → (j < W)%nat → cell g i j ≠ 0 →
  ∃ k t, rects !! k = Some t ∧ in_rect t i j ∧ cell g i j = Z.of_nat (S k).
Proof.
  intros Hi Hj Hne. destruct (gi_label H W g rects Hinv i j Hi Hj Hne) as (k & t & Hk & Hin).
  exists k, t. split; [done|]. split; [done|]. by eapply gi_owned.
Qed.

Lemma extract_step_inv (tiles : gmap Z TilePosition) (r c : nat) :
  (r < H)%nat → (c < W)%nat →
  (∀ id t, tiles !! id = Some t → extracted_from rects id t) →
  ∀ id t, extract_step g problem tiles (r, c) !! id = Some t → extracted_from rects id t.
Proof.
  intros Hr Hc Htiles id t. unfold extract_step.
  destruct (negb (cell g r c =? 0) && negb (bool_decide (cell g r c ∈ dom tiles))) eqn:E;
    [|apply Htiles].
  apply andb_true_iff in E as [E _]. apply negb_true_iff, Z.eqb_neq in E.
  rewrite lookup_insert. case_decide as Hid; [|apply Htiles].
  intros Ht. subst id.
  destruct (labelled_cell r c Hr Hc E) as (k & [[[r0 c0] h0] w0] & Hk & [Hir Hic] & Hlab).
  pose proof (shaped_width H W g (gi_shaped _ _ _ _ Hinv) HH) as Hwidth.
  pose proof (proj1 (gi_shaped _ _ _ _ Hinv)) as Hheight.
  destruct (grow_w_spec g r c (cell g r c) (width g) 1) as (Hw1 & Hwb & Hwc).
  destruct (grow_h_spec g r c (cell g r c) (length g) 1) as (Hh1 & Hhb & Hhc).
  set (w := grow_w (width g) g r c (cell g r c) 1) in *.
  set (h := grow_h (length g) g r c (cell g r c) 1) in *.
  specialize (Hwb ltac:(lia)). specialize (Hhb ltac:(lia)).
  (* the last cell of the first row and of the first column *)
  assert (Hlastw : (c + (w - 1) < c0 + w0)%nat).
  { destruct (decide (w = 1%nat)) as [->|Hw]; [lia|].
    specialize (Hwc (w - 1)%nat ltac:(lia)).
    destruct (labelled_cell r (c + (w - 1)) Hr ltac:(lia) ltac:(congruence))
      as (k' & [[[r1 c1] h1] w1] & Hk' & [_ Hjc] & Hlab').
    assert (k' = k) by lia. simplify_eq. lia. }
  assert (Hlasth : (r + (h - 1) < r0 + h0)%nat).
  { destruct (decide (h = 1%nat)) as [->|Hh]; [lia|].
    specialize (Hhc (h - 1)%nat ltac:(lia)).
    destruct (labelled_cell (r + (h - 1)) c ltac:(lia) Hc ltac:(congruence))
      as (k' & [[[r1 c1] h1] w1] & Hk' & [Hjr _] & Hlab').
    assert (k' = k) by lia. simplify_eq. lia. }
  exists k, r0, c0, h0, w0. simplify_eq. simpl.
  split; [done|]. split; [done|]. lia.
Qed.

Lemma extract_tiles_inv (id : Z) (t : TilePosition) :
  extract_tiles g problem !! id = Some t → extracted_from rects id t.
Proof.
  unfold extract_tiles.
  assert (Hgen : ∀ cells tiles,
            (∀ r c, (r, c) ∈ cells → (r < H)%nat ∧ (c < W)%nat) →
            (∀ id t, tiles !! id = Some t → extracted_from rects id t) →
            ∀ id t, foldl (extract_step g problem) tiles cells !! id = Some t →
                    extracted_from rects id t).
  { induction cells as [|[r c] cells IH]; intros tiles Hcells Htiles; simpl; [done|].
    apply IH.
    - intros r' c' Hin. apply Hcells. by right.
    - destruct (Hcells r c ltac:(by left)). by apply extract_step_inv. }
  apply Hgen.
  - intros r c Hin. by apply (elem_of_grid_cells H W g) in Hin; [|apply Hinv|].
  - intros id' t'. by rewrite lookup_empty.
Qed.
End Extraction.

Lemma omap_lookup_total {A B} (f : A → option B) (l : list A) (i : nat) (y : B) :
  (∀ x, x ∈ l → is_Some (f x)) → omap f l !! i = Some y →
  ∃ x, l !! i = Some x ∧ f x = Some y.
Proof.
  revert i. induction l as [|a l IH]; intros i Hall; simpl; [done|].
  destruct (Hall a ltac:(by left)) as [b Hb]. rewrite Hb.
  destruct i as [|i]; simpl.
  - intros ?; simplify_eq. by exists a.
  - apply IH. intros x Hx. apply Hall. by right.
Qed.

(** Two placements extracted under different labels do not overlap. *)
Lemma extracted_disjoint (H W : nat) (g : Grid) (rects : list Footprint)
    (id1 id2 : Z) (t1 t2 : TilePosition) :
  grid_inv H W g rects →
  extracted_from rects id1 t1 → extracted_from rects id2 t2 → id1 ≠ id2 →
  tiles_overlap t1 t2 = false.
Proof.
  intros Hinv (k1 & r1 & c1 & h1 & w1 & -> & Hk1 & Hw1 & Hh1 & Hx1 & Hx1' & Hy1 & Hy1')
         (k2 & r2 & c2 & h2 & w2 & -> & Hk2 & Hw2 & Hh2 & Hx2 & Hx2' & Hy2 & Hy2') Hne.
  destruct (tiles_overlap t1 t2) eqn:E; [|done]. exfalso.
  apply overlap_shares_cell in E as (cx & cy & Hc1 & Hc2); [|done..].
  apply elem_of_footprint in Hc1, Hc2.
  pose proof (gi_owned H W g rects Hinv k1 _ (Z.to_nat cy) (Z.to_nat cx) Hk1) as Ho1.
  pose proof (gi_owned H W g rects Hinv k2 _ (Z.to_nat cy) (Z.to_nat cx) Hk2) as Ho2.
  simpl in Ho1, Ho2.
  rewrite Ho1 in Ho2 by lia. specialize (Ho2 ltac:(lia)). apply Hne. done.
Qed.

Lemma extract_solution_ok (g : Grid) (rects : list Footprint) (problem : PackingProblem) :
  0 < container_h problem → 0 < container_w problem →
  grid_inv (Z.to_nat (container_h problem)) (Z.to_nat (container_w problem)) g rects →
  placements_ok problem (extract_solution g problem).
Proof.
  intros Hch Hcw Hinv.
  set (H := Z.to_nat (container_h problem)) in *.
  set (W := Z.to_nat (container_w problem)) in *.
  assert (HH : (0 < H)%nat) by lia.
  pose proof (extract_tiles_inv H W g rects problem Hinv HH) as Htiles.
  unfold extract_solution.
  set (tiles := extract_tiles g problem) in *.
  set (keys := merge_sort Z.le (elements (dom tiles))).
  assert (Hperm : keys ≡ₚ elements (dom tiles)) by apply merge_sort_Permutation.
  assert (Hnd : NoDup keys) by (rewrite Hperm; apply NoDup_elements).
  assert (Hdom : ∀ x, x ∈ keys → is_Some (tiles !! x)).
  { intros x Hx. rewrite Hperm in Hx. by apply elem_of_elements, elem_of_dom in Hx. }
  split.
  - intros t Ht. apply list_elem_of_omap in Ht as (id & _ & Hid).
    destruct (Htiles id t Hid) as (k & r & c & h & w & _ & Hk & Hw & Hh & Hx & Hx' & Hy & Hy').
    pose proof (gi_bounds H W g rects Hinv k r c h w Hk) as (_ & _ & Hr & Hc).
    destruct t as [[[[x y] tw] th] o]. simpl in *. lia.
  - intros i j t1 t2 Hij H1 H2.
    apply omap_lookup_total in H1 as (id1 & Hi1 & Ht1); [|done].
    apply omap_lookup_total in H2 as (id2 & Hi2 & Ht2); [|done].
    apply (extracted_disjoint H W g rects id1 id2); [done|by apply Htiles..|].
    intros ->. apply Hij. by eapply NoDup_lookup.
Qed.


(** *** The backtracking search *)

Lemma grid_inv_new_grid (problem : PackingProblem) :
  grid_inv (Z.to_nat (container_h problem)) (Z.to_nat (container_w problem))
           (new_grid problem) [].
Proof.
  split.
  - apply shaped_new_grid.
  - intros; done.
  - intros; done.
  - intros i j _ _ Hne. by rewrite cell_new_grid in Hne.
Qed.

(** Writing the next label on an empty footprint extends the invariant. *)
Lemma grid_inv_place_tile (H W : nat) (g : Grid) (rects : list Footprint) (r c h w : nat) :
  grid_inv H W g rects → (0 < H)%nat → (0 < h)%nat → (0 < w)%nat →
  can_place g r c h w = true →
  grid_inv H W (place_tile g r c h w (Z.of_nat (S (length rects))))
           (rects ++ [(r, c, h, w)]).
Proof.
  intros Hinv HH Hh Hw Hcan.
  pose proof (gi_shaped _ _ _ _ Hinv) as Hs.
  apply (can_place_true H W) in Hcan as (Hr & Hc & Hzero); [|done..].
  unfold place_tile.
  destruct (fill_tile_spec H W c w (Z.of_nat (S (length rects))) h r g Hs Hr Hc)
    as [Hs1 Hcell1].
  split.
  - done.
  - intros k r' c' h' w' Hk.
    apply lookup_snoc_Some in Hk as [[_ Hk]|[_ Hk]].
    + by eapply gi_bounds.
    + simplify_eq. lia.
  - intros k t i j Hk Hin. rewrite Hcell1.
    apply lookup_snoc_Some in Hk as [[Hlt Hk]|[Hlen Hk]].
    + pose proof (gi_owned _ _ _ _ Hinv k t i j Hk Hin) as Hown.
      case_decide as Hnew; [|done].
      apply Hzero in Hnew. lia.
    + simplify_eq. by rewrite decide_True.
  - intros i j Hi Hj. rewrite Hcell1. case_decide as Hnew.
    + intros _. exists (length rects), (r, c, h, w). split; [|done].
      apply lookup_snoc_Some. right. done.
    + intros Hne. destruct (gi_label _ _ _ _ Hinv i j Hi Hj Hne) as (k & t & Hk & Hin).
      exists k, t. split; [|done]. apply lookup_snoc_Some. left.
      split; [|done]. by eapply lookup_lt_Some.
Qed.

Section BacktrackSearch.
Variable expired : nat → bool.
Variable problem : PackingProblem.
Variable max_solutions : Z.
Hypothesis Hvalid : valid_problem problem.

Let H := Z.to_nat (container_h problem).
Let W := Z.to_nat (container_w problem).

Lemma backtrack_solve_unfold (fuel' : nat) (grid : Grid) (tiles_left tile_id : Z)
    (solutions : list (list TilePosition)) (polls : nat) :
  backtrack_solve expired (S fuel') grid tiles_left tile_id solutions polls
                  problem max_solutions =
  if expired polls then Some (grid, solutions, S polls)
  else
    if Z.of_nat (length solutions) >=? max_solutions
    then Some (grid, solutions, S polls)
    else
      match find_first_empty grid with
      | None => Some (grid, solutions ++ [extract_solution grid problem], S polls)
      | Some (row, col) =>
          if tiles_left =? 0 then
            Some (grid, solutions ++ [extract_solution grid problem], S polls)
          else
            let th := Z.to_nat (tile_h problem) in
            let tw := Z.to_nat (tile_w problem) in
            '(grid, solutions, polls) ←
              (if can_place grid row col th tw then
                 '(g, s, n) ← backtrack_solve expired fuel'
                                (place_tile grid row col th tw tile_id)
                                (tiles_left - 1) (tile_id + 1) solutions (S polls)
                                problem max_solutions;
                 Some (remove_tile g row col th tw, s, n)
               else Some (grid, solutions, S polls));
            if allow_rotation problem && negb (tile_w problem =? tile_h problem)
               && can_place grid row col tw th then
              '(g, s, n) ← backtrack_solve expired fuel'
                             (place_tile grid row col tw th tile_id)
                             (tiles_left - 1) (tile_id + 1) solutions polls
                             problem max_solutions;
              Some (remove_tile g row col tw th, s, n)
            else Some (grid, solutions, polls)
      end.
Proof. reflexivity. Qed.

(** From a grid that holds the footprints placed so far, the search
    returns (given one unit of recursion depth per empty cell), restores
    the grid, and only appends solutions that are fine. *)
Lemma backtrack_solve_spec (fuel : nat) :
  ∀ (g : Grid) (rects : list Footprint) (tiles_left : Z)
    (sols : list (list TilePosition)) (polls : nat),
    grid_inv H W g rects → (zeros g < fuel)%nat →
    Forall (placements_ok problem) sols →
    ∃ sols' polls',
      backtrack_solve expired fuel g tiles_left (Z.of_nat (S (length rects)))
                      sols polls problem max_solutions = Some (g, sols', polls') ∧
      Forall (placements_ok problem) sols'.
Proof.
  destruct (CoreFacts.valid_problem_dims problem Hvalid) as (Hcw & Hch & Htw & Hth & _ & _).
  assert (HH : (0 < H)%nat) by (subst H; lia).
  induction fuel as [|fuel IH]; intros g rects tiles_left sols polls Hinv Hz Hsols; [lia|].
  pose proof (gi_shaped _ _ _ _ Hinv) as Hs.
  assert (Hextract : Forall (placements_ok problem) (sols ++ [extract_solution g problem])).
  { apply Forall_app. split; [done|]. apply Forall_singleton.
    by apply (extract_solution_ok g rects). }
  rewrite backtrack_solve_unfold.
  destruct (expired polls); [by eauto|].
  destruct (Z.of_nat (length sols) >=? max_solutions); [by eauto|].
  destruct (find_first_empty g) as [[row col]|] eqn:Hfind; [|by eauto].
  destruct (tiles_left =? 0); [by eauto|].
  cbv zeta.
  (* one orientation: place, search, the grid comes back labelled *)
  assert (Hbranch : ∀ (h w : nat) sols0 polls0,
    (0 < h)%nat → (0 < w)%nat → Forall (placements_ok problem) sols0 →
    can_place g row col h w = true →
    ∃ sols' polls',
      backtrack_solve expired fuel
        (place_tile g row col h w (Z.of_nat (S (length rects))))
        (tiles_left - 1) (Z.of_nat (S (length rects)) + 1) sols0 polls0
        problem max_solutions
      = Some (place_tile g row col h w (Z.of_nat (S (length rects))), sols', polls') ∧
      Forall (placements_ok problem) sols').
  { intros h w sols0 polls0 Hh Hw Hsols0 Hcan.
    replace (Z.of_nat (S (length rects)) + 1)
      with (Z.of_nat (S (length (rects ++ [(row, col, h, w)]))))
      by (rewrite length_app; simpl; lia).
    apply IH; [by apply grid_inv_place_tile| |done].
    pose proof (zeros_place_tile H W g row col h w (Z.of_nat (S (length rects)))
                  Hs HH Hcan Hh Hw ltac:(lia)).
    lia. }
  destruct (can_place g row col (Z.to_nat (tile_h problem)) (Z.to_nat (tile_w problem)))
    eqn:Hcan1.
  - destruct (Hbranch (Z.to_nat (tile_h problem)) (Z.to_nat (tile_w problem))
                       sols (S polls) ltac:(lia) ltac:(lia) Hsols Hcan1)
      as (sols1 & polls1 & -> & Hsols1).
    simpl. rewrite (remove_place_tile H W) by done.
    destruct (allow_rotation problem && negb (tile_w problem =? tile_h problem)); simpl;
      [|by eauto].
    destruct (can_place g row col (Z.to_nat (tile_w problem)) (Z.to_nat (tile_h problem)))
      eqn:Hcan2; [|by eauto].
    destruct (Hbranch (Z.to_nat (tile_w problem)) (Z.to_nat (tile_h problem))
                       sols1 polls1 ltac:(lia) ltac:(lia) Hsols1 Hcan2)
      as (sols2 & polls2 & -> & Hsols2).
    simpl. rewrite (remove_place_tile H W) by done. by eauto.
  - simpl.
    destruct (allow_rotation problem && negb (tile_w problem =? tile_h problem)); simpl;
      [|by eauto].
    destruct (can_place g row col (Z.to_nat (tile_w problem)) (Z.to_nat (tile_h problem)))
      eqn:Hcan2; [|by eauto].
    destruct (Hbranch (Z.to_nat (tile_w problem)) (Z.to_nat (tile_h problem))
                       sols (S polls) ltac:(lia) ltac:(lia) Hsols Hcan2)
      as (sols2 & polls2 & -> & Hsols2).
    simpl. rewrite (remove_place_tile H W) by done. by eauto.
Qed.

Lemma zeros_le_cells (g : Grid) :
  shaped H W g → (zeros g <= H * W)%nat.
Proof.
  intros Hs. unfold zeros. etrans; [apply length_filter|].
  unfold grid_cells. rewrite (proj1 Hs).
  assert (Hlen : ∀ (n m k : nat),
            length (row ← seq k n; col ← seq 0 m; [(row, col)]) = (n * m)%nat).
  { induction n as [|n IHn]; intros m k; simpl; [done|].
    rewrite length_app, IHn. f_equal.
    clear. generalize 0%nat. induction m as [|m IHm]; intros j; simpl; [done|].
    by rewrite IHm. }
  rewrite Hlen. destruct (decide (0 < H)%nat).
  - by rewrite (shaped_width H W g Hs).
  - assert (H = 0%nat) as -> by lia. lia.
Qed.

(** The search from the empty grid returns, and what it recorded is fine. *)
Lemma backtrack_solve_initial :
  ∃ sols polls,
    backtrack_solve expired (backtrack_fuel problem) (new_grid problem)
                    (tile_budget problem) 1 [] 0 problem max_solutions
    = Some (new_grid problem, sols, polls) ∧
    Forall (placements_ok problem) sols.
Proof.
  apply (backtrack_solve_spec (backtrack_fuel problem) (new_grid problem) []).
  - apply grid_inv_new_grid.
  - pose proof (zeros_le_cells (new_grid problem) (shaped_new_grid problem)).
    unfold backtrack_fuel. subst H W. lia.
  - constructor.
Qed.

Lemma backtrack_solve_all_optimal_ok :
  ∃ solutions,
    backtrack_solve_all_optimal expired problem max_solutions = Some solutions ∧
    ∀ s, s ∈ solutions → placements_ok problem (tile_positions s).
Proof.
  destruct backtrack_solve_initial as (sols & polls & Hrun & Hsols).
  unfold backtrack_solve_all_optimal. rewrite Hrun. simpl.
  destruct sols as [|s0 sols].
  - exists []. split; [done|]. intros s Hs. by apply elem_of_nil in Hs.
  - eexists. split; [done|].
    intros s Hs. apply list_elem_of_fmap in Hs as (positions & -> & Hpos). simpl.
    apply elem_of_py_take, list_elem_of_filter in Hpos as [_ Hpos].
    rewrite Forall_forall in Hsols. by apply Hsols.
Qed.
End BacktrackSearch.

Lemma backtrack_solve_best_ok (expired : nat → bool) (problem : PackingProblem) :
  valid_problem problem →
  ∃ s, backtrack_solve_best expired problem = Some s ∧
       placements_ok problem (tile_positions s).
Proof.
  intros Hvalid.
  destruct (backtrack_solve_all_optimal_ok expired problem 1 Hvalid) as (sols & Hrun & Hok).
  unfold backtrack_solve_best. rewrite Hrun. simpl.
  destruct sols as [|s sols].
  - eexists. split; [done|]. apply placements_ok_nil.
  - exists s. split; [done|]. apply Hok. by left.
Qed.


(** *** The solvers at work *)

(** Container 20x20, tile 10x10: the analytic grid has four tiles. *)
Example mathematical_solve_square :
  tile_positions (mathematical_solve (mkProblem 20 20 10 10 None true true))
  = [(0, 0, 10, 10, "original"); (10, 0, 10, 10, "original");
     (0, 10, 10, 10, "original"); (10, 10, 10, 10, "original")].
Proof. vm_compute. reflexivity. Qed.

(** Container 6x4, tile 3x2: bottom-left fill places four tiles, center-out
    fill places one in the middle and blocks the rest. *)
Example greedy_solve_strategies :
  let problem := mkProblem 6 4 3 2 None true true in
  sum_map id tile_positions (greedy_solve "bottom_left" problem)
    = inr [(0, 0, 3, 2, "original"); (3, 0, 3, 2, "original");
           (0, 2, 3, 2, "original"); (3, 2, 3, 2, "original")] ∧
  sum_map id tile_positions (greedy_solve "center_out" problem)
    = inr [(2, 1, 3, 2, "original")] ∧
  greedy_solve "spiral" problem = inl (ValueError "Unknown strategy: spiral").
Proof. split; [|split]; vm_compute; reflexivity. Qed.

(** Container 5x4, tile 3x2 with rotation: the search finds the two
    three-tile packings that mix orientations. *)
Example backtrack_solve_mixed_orientations :
  (map tile_positions <$>
     backtrack_solve_all_optimal (fun _ => false) (mkProblem 5 4 3 2 None true true) 10)
  = Some [[(0, 0, 3, 2, "original"); (3, 0, 2, 3, "rotated"); (0, 2, 3, 2, "original")];
          [(0, 0, 2, 3, "rotated"); (2, 0, 3, 2, "original"); (2, 2, 3, 2, "original")]].
Proof. vm_compute. reflexivity. Qed.

(** A deadline that has passed at the first poll leaves nothing recorded. *)
Example backtrack_solve_expired :
  backtrack_solve_all_optimal (fun _ => true) (mkProblem 5 4 3 2 None true true) 10
  = Some [].
Proof. vm_compute. reflexivity. Qed.

(** On a problem the analytic tier solves to the theoretical maximum the
    name is tagged. *)
Example hybrid_solve_tagged :
  solver_name <$> hybrid_solve (fun _ => false) None false false
                    (mkProblem 20 20 10 10 None true true)
  = Some "Hybrid(Mathematical)".
Proof. vm_compute. reflexivity. Qed.


(** *** Main results on the solvers *)

(** C1: for every valid problem, the solutions of the Mathematical strategy
    ([solve] and [solve_all_optimal]), of the Greedy strategy (bottom-left
    and center-out) and of the Backtracking strategy ([solve_all_optimal]
    and [solve], whatever the deadline polls answer) are produced, and in
    each of them every placement (x, y, w, h, o) has 0 <= x, 0 <= y,
    x + w <= container_w, y + h <= container_h, and no two placements
    overlap (open intervals on both axes). *)
Theorem C1_solvers_place_inside_without_overlap
    (problem : PackingProblem) (expired : nat → bool) (max_solutions : Z) :
  valid_problem problem →
  placements_ok problem (tile_positions (mathematical_solve problem)) ∧
  (∀ s, s ∈ mathematical_solve_all_optimal problem max_solutions →
        placements_ok problem (tile_positions s)) ∧
  (∃ s, greedy_solve "bottom_left" problem = inr s ∧
        placements_ok problem (tile_positions s)) ∧
  (∃ s, greedy_solve "center_out" problem = inr s ∧
        placements_ok problem (tile_positions s)) ∧
  (∃ solutions,
     backtrack_solve_all_optimal expired problem max_solutions = Some solutions ∧
     ∀ s, s ∈ solutions → placements_ok problem (tile_positions s)) ∧
  (∃ s, backtrack_solve_best expired problem = Some s ∧
        placements_ok problem (tile_positions s)).
Proof.
  intros Hvalid.
  destruct (CoreFacts.valid_problem_dims problem Hvalid) as (Hcw & Hch & Htw & Hth & _ & _).
  split; [by apply mathematical_solve_ok|].
  split; [intros s; by apply mathematical_solve_all_optimal_ok|].
  split; [eexists; split; [reflexivity|]; by apply solve_bottom_left_ok|].
  split; [eexists; split; [reflexivity|]; by apply solve_center_out_ok|].
  split; [by apply backtrack_solve_all_optimal_ok|].
  by apply backtrack_solve_best_ok.
Qed.

Lemma C1_solvers_place_inside_without_overlap_witness :
  let problem := mkProblem 5 4 3 2 None true true in
  let expired := fun _ : nat => false in
  valid_problem problem ∧
  (placements_ok problem (tile_positions (mathematical_solve problem)) ∧
   (∀ s, s ∈ mathematical_solve_all_optimal problem 10 →
         placements_ok problem (tile_positions s)) ∧
   (∃ s, greedy_solve "bottom_left" problem = inr s ∧
         placements_ok problem (tile_positions s)) ∧
   (∃ s, greedy_solve "center_out" problem = inr s ∧
         placements_ok problem (tile_positions s)) ∧
   (∃ solutions,
      backtrack_solve_all_optimal expired problem 10 = Some solutions ∧
      ∀ s, s ∈ solutions → placements_ok problem (tile_positions s)) ∧
   (∃ s, backtrack_solve_best expired problem = Some s ∧
         placements_ok problem (tile_positions s))).
Proof.
  intros problem expired.
  assert (Hvalid : valid_problem problem) by reflexivity.
  split; [exact Hvalid|].
  exact (C1_solvers_place_inside_without_overlap problem expired 10 Hvalid).
Defined.

(** A dead end: the first empty cell admits neither orientation and the
    budget is not exhausted.  The call returns without recording anything. *)
Lemma backtrack_dead_end (expired : nat → bool) (problem : PackingProblem)
    (max_solutions : Z) (fuel : nat) (g : Grid) (tiles_left tile_id : Z)
    (sols : list (list TilePosition)) (polls row col : nat) :
  find_first_empty g = Some (row, col) → tiles_left ≠ 0 →
  can_place g row col (Z.to_nat (tile_h problem)) (Z.to_nat (tile_w problem)) = false →
  allow_rotation problem && negb (tile_w problem =? tile_h problem)
    && can_place g row col (Z.to_nat (tile_w problem)) (Z.to_nat (tile_h problem)) = false →
  ∃ polls',
    backtrack_solve expired (S fuel) g tiles_left tile_id sols polls problem max_solutions
    = Some (g, sols, polls').
Proof.
  intros Hfind Hleft Horig Hrot. rewrite backtrack_solve_unfold.
  destruct (expired polls); [by eauto|].
  destruct (Z.of_nat (length sols) >=? max_solutions); [by eauto|].
  rewrite Hfind. apply Z.eqb_neq in Hleft. rewrite Hleft. cbv zeta.
  rewrite Horig. simpl. rewrite Hrot. by eauto.
Qed.

(** On the 15x15 / 10x10 problem the search records nothing, whatever the
    deadline polls answer and whatever the cap on solutions is: after the
    one tile that fits, the next empty cell (row 0, column 10) is a dead
    end. *)
Lemma backtrack_single_tile_records_nothing (expired : nat → bool) (max_solutions : Z) :
  backtrack_solve_all_optimal expired single_tile_problem max_solutions = Some [].
Proof.
  unfold backtrack_solve_all_optimal.
  assert (Hrun : ∃ g polls,
            backtrack_solve expired (backtrack_fuel single_tile_problem)
              (new_grid single_tile_problem) (tile_budget single_tile_problem) 1 [] 0
              single_tile_problem max_solutions = Some (g, [], polls)).
  { change (backtrack_fuel single_tile_problem) with (S (S 224)).
    rewrite backtrack_solve_unfold.
    destruct (expired 0%nat); [by eauto|].
    destruct (Z.of_nat (length (@nil (list TilePosition))) >=? max_solutions) eqn:Hcap;
      [by eauto|].
    replace (find_first_empty (new_grid single_tile_problem)) with (Some (0%nat, 0%nat))
      by (vm_compute; reflexivity).
    replace (tile_budget single_tile_problem =? 0) with false by (vm_compute; reflexivity).
    cbv zeta.
    replace (can_place (new_grid single_tile_problem) 0 0
               (Z.to_nat (tile_h single_tile_problem))
               (Z.to_nat (tile_w single_tile_problem)))
      with true by (vm_compute; reflexivity).
    replace (allow_rotation single_tile_problem &&
             negb (tile_w single_tile_problem =? tile_h single_tile_problem))
      with false by (vm_compute; reflexivity).
    destruct (backtrack_dead_end expired single_tile_problem max_solutions 224
                (place_tile (new_grid single_tile_problem) 0 0
                   (Z.to_nat (tile_h single_tile_problem))
                   (Z.to_nat (tile_w single_tile_problem)) 1)
                (tile_budget single_tile_problem - 1) (1 + 1) [] 1 0 10)
      as [polls' ->]; [vm_compute; reflexivity|vm_compute; discriminate|
                       vm_compute; reflexivity..|].
    simpl. by eauto. }
  destruct Hrun as (g & polls & ->). done.
Qed.

(** C5: on the valid problem with container 15x15 and tile 10x10, where one
    tile can be placed (the list holding the tile at the origin is a fine
    packing), [BacktrackSolver.solve_all_optimal] returns the empty list and
    [BacktrackSolver.solve] returns a solution with zero tiles, for every
    outcome of the deadline polls and every cap on the number of solutions. *)
Theorem C5_backtracking_drops_partial_packing :
  ∃ problem : PackingProblem,
    valid_problem problem ∧
    container_w problem = 15 ∧ container_h problem = 15 ∧
    tile_w problem = 10 ∧ tile_h problem = 10 ∧
    placements_ok problem [(0, 0, 10, 10, "original")] ∧
    ∀ (expired : nat → bool),
      (∀ max_solutions,
         backtrack_solve_all_optimal expired problem max_solutions = Some []) ∧
      ∃ s, backtrack_solve_best expired problem = Some s ∧
           tile_positions s = [] ∧ num_tiles s = 0.
Proof.
  exists single_tile_problem.
  split; [reflexivity|]. do 4 (split; [reflexivity|]).
  split.
  { split.
    - intros t Ht. apply list_elem_of_singleton in Ht as ->. simpl. lia.
    - intros [|i] [|j] t1 t2 Hij H1 H2; simpl in *; try done. }
  intros expired. split; [apply backtrack_single_tile_records_nothing|].
  unfold backtrack_solve_best. rewrite backtrack_single_tile_records_nothing. simpl.
  eexists. split; [reflexivity|]. done.
Qed.

(** C6 (evaluation at the failing input): on container 15x15 with tile
    10x10, [HybridSolver.solve] returns the Mathematical tier's solution
    with [solver_name] "Mathematical", not "Hybrid(Mathematical)", on each
    of the three exits that skip the tagging: elapsed time over 70% of the
    budget after tier 2, no ILP solver after tier 3, and elapsed time over
    80% of the budget after tier 3. *)
Theorem C6_hybrid_untagged_on_early_return :
  let best := mkSolution [(2, 2, 10, 10, "original")] 15 15 "Mathematical" in
  solver_name best ≠ "Hybrid(Mathematical)" ∧
  (∀ expired ilp_solver over80,
     hybrid_solve expired ilp_solver true over80 single_tile_problem = Some best) ∧
  (∀ expired over70 over80,
     hybrid_solve expired None over70 over80 single_tile_problem = Some best) ∧
  (∀ expired ilp_solver over70,
     hybrid_solve expired ilp_solver over70 true single_tile_problem = Some best).
Proof.
  intros best.
  assert (Hmath : mathematical_solve single_tile_problem = best)
    by (vm_compute; reflexivity).
  assert (Hgreedy : solve_center_out single_tile_problem = [(2, 2, 10, 10, "original")])
    by (vm_compute; reflexivity).
  assert (Hbt : ∀ expired, backtrack_solve_best expired single_tile_problem
            = Some (mkSolution [] 15 15 "Backtrack")).
  { intros expired. unfold backtrack_solve_best.
    by rewrite backtrack_single_tile_records_nothing. }
  assert (Hrun : ∀ expired ilp_solver over70 over80,
            hybrid_solve expired ilp_solver over70 over80 single_tile_problem =
            if over70 then Some best
            else match (if over80 then None else ilp_solver) with
                 | None => Some best
                 | Some ilp_solve =>
                     let ilp_solution := ilp_solve single_tile_problem in
                     Some (tag_hybrid
                             (if num_tiles ilp_solution >? num_tiles best
                              then ilp_solution else best))
                 end).
  { intros expired ilp_solver over70 over80. unfold hybrid_solve.
    rewrite Hmath, Hgreedy, Hbt. destruct over70; reflexivity. }
  split; [discriminate|].
  split; [|split].
  - intros. by rewrite Hrun.
  - intros. rewrite Hrun. by destruct over70, over80.
  - intros. rewrite Hrun. by destruct over70.
Qed.


End SolverFacts.

(* ===================================================================== *)
(** ** Geometry and solutions: further properties *)
(* ===================================================================== *)

Module GeometryFacts.
Import Core Symmetry Solvers Solution.

(** *** Bounds of [min] and [max] over a list *)

Lemma foldl_min_le (l : list Z) (a : Z) :
  foldl Z.min a l <= a ∧ ∀ x, x ∈ l → foldl Z.min a l <= x.
Proof.
  revert a. induction l as [|b l IH]; intros a; simpl.
  - split; [lia|]. intros x Hx. by apply elem_of_nil in Hx.
  - destruct (IH (Z.min a b)) as [H1 H2]. split; [lia|].
    intros x. rewrite elem_of_cons. intros [->|Hx]; [lia|auto].
Qed.

Lemma foldl_max_ge (l : list Z) (a : Z) :
  a <= foldl Z.max a l ∧ ∀ x, x ∈ l → x <= foldl Z.max a l.
Proof.
  revert a. induction l as [|b l IH]; intros a; simpl.
  - split; [lia|]. intros x Hx. by apply elem_of_nil in Hx.
  - destruct (IH (Z.max a b)) as [H1 H2]. split; [lia|].
    intros x. rewrite elem_of_cons. intros [->|Hx]; [lia|auto].
Qed.

Lemma foldl_min_glb (l : list Z) (a b : Z) :
  b <= a → (∀ x, x ∈ l → b <= x) → b <= foldl Z.min a l.
Proof.
  revert a. induction l as [|c l IH]; intros a Ha Hl; simpl; [done|].
  apply IH; [|intros x Hx; apply Hl; by right].
  pose proof (Hl c ltac:(by left)). lia.
Qed.

Lemma foldl_max_lub (l : list Z) (a b : Z) :
  a <= b → (∀ x, x ∈ l → x <= b) → foldl Z.max a l <= b.
Proof.
  revert a. induction l as [|c l IH]; intros a Ha Hl; simpl; [done|].
  apply IH; [|intros x Hx; apply Hl; by right].
  pose proof (Hl c ltac:(by left)). lia.
Qed.

Lemma py_min_le (l : list Z) (x : Z) : x ∈ l → py_min l <= x.
Proof.
  destruct l as [|a l]; [intros H; by apply elem_of_nil in H|].
  simpl. destruct (foldl_min_le l a) as [H1 H2].
  rewrite elem_of_cons. intros [->|Hx]; auto.
Qed.

Lemma py_max_ge (l : list Z) (x : Z) : x ∈ l → x <= py_max l.
Proof.
  destruct l as [|a l]; [intros H; by apply elem_of_nil in H|].
  simpl. destruct (foldl_max_ge l a) as [H1 H2].
  rewrite elem_of_cons. intros [->|Hx]; auto.
Qed.

Lemma py_min_glb (l : list Z) (b : Z) :
  l ≠ [] → (∀ x, x ∈ l → b <= x) → b <= py_min l.
Proof.
  destruct l as [|a l]; [done|]. intros _ Hl. simpl.
  apply foldl_min_glb; [apply Hl; by left|intros x Hx; apply Hl; by right].
Qed.

Lemma py_max_lub (l : list Z) (b : Z) :
  l ≠ [] → (∀ x, x ∈ l → x <= b) → py_max l <= b.
Proof.
  destruct l as [|a l]; [done|]. intros _ Hl. simpl.
  apply foldl_max_lub; [apply Hl; by left|intros x Hx; apply Hl; by right].
Qed.

(** Every tile lies inside the bounding box. *)
Lemma bounding_box_contains (ps : list TilePosition) (t : TilePosition) :
  t ∈ ps →
  min_x ps <= tp_x t ∧ min_y ps <= tp_y t ∧
  tp_x t + tp_w t <= max_x ps ∧ tp_y t + tp_h t <= max_y ps.
Proof.
  intros Ht. unfold min_x, min_y, max_x, max_y.
  repeat split.
  - apply py_min_le. apply list_elem_of_fmap. by exists t.
  - apply py_min_le. apply list_elem_of_fmap. by exists t.
  - apply (py_max_ge _ (tp_x t + tp_w t)). apply list_elem_of_fmap. by exists t.
  - apply (py_max_ge _ (tp_y t + tp_h t)). apply list_elem_of_fmap. by exists t.
Qed.

(** The bounding box of placements inside the container is inside it. *)
Lemma bounding_box_within (problem : PackingProblem) (ps : list TilePosition) :
  ps ≠ [] → (∀ t, t ∈ ps → within_container problem t) →
  0 <= min_x ps ∧ 0 <= min_y ps ∧
  max_x ps <= container_w problem ∧ max_y ps <= container_h problem.
Proof.
  intros Hne Hin. unfold min_x, min_y, max_x, max_y.
  assert (Hmap : ∀ f : TilePosition → Z, map f ps ≠ []).
  { intros f. destruct ps; [done|]. simpl. done. }
  repeat split.
  - apply py_min_glb; [apply Hmap|]. intros x Hx.
    apply list_elem_of_fmap in Hx as ([[[[tx ty] tw] th] o] & -> & Ht).
    specialize (Hin _ Ht). simpl in *. lia.
  - apply py_min_glb; [apply Hmap|]. intros x Hx.
    apply list_elem_of_fmap in Hx as ([[[[tx ty] tw] th] o] & -> & Ht).
    specialize (Hin _ Ht). simpl in *. lia.
  - apply py_max_lub; [apply Hmap|]. intros x Hx.
    apply list_elem_of_fmap in Hx as ([[[[tx ty] tw] th] o] & -> & Ht).
    specialize (Hin _ Ht). simpl in *. lia.
  - apply py_max_lub; [apply Hmap|]. intros x Hx.
    apply list_elem_of_fmap in Hx as ([[[[tx ty] tw] th] o] & -> & Ht).
    specialize (Hin _ Ht). simpl in *. lia.
Qed.

(** *** Translations *)

Lemma leb_ext (a b c d : Z) : (a <= b ↔ c <= d) → (a <=? b) = (c <=? d).
Proof. intros H. destruct (Z.leb_spec a b), (Z.leb_spec c d); try done; lia. Qed.

Lemma tiles_overlap_translate (t1 t2 : TilePosition) (dx dy : Z) :
  let shift := fun '(x, y, w, h, o) => (x + dx, y + dy, w, h, o) : TilePosition in
  tiles_overlap (shift t1) (shift t2) = tiles_overlap t1 t2.
Proof.
  destruct t1 as [[[[x1 y1] w1] h1] o1], t2 as [[[[x2 y2] w2] h2] o2].
  unfold tiles_overlap, rectangles_overlap. simpl. f_equal.
  f_equal; [f_equal; [f_equal|]|]; apply leb_ext; lia.
Qed.


(** A tile-wise map that keeps tiles inside the container and does not
    change which pairs overlap keeps a placement list fine. *)
Lemma placements_ok_map (problem : PackingProblem) (f : TilePosition → TilePosition)
    (ps : list TilePosition) :
  (∀ t, t ∈ ps → within_container problem (f t)) →
  (∀ t1 t2, tiles_overlap (f t1) (f t2) = tiles_overlap t1 t2) →
  (∀ (i j : nat) t1 t2, i ≠ j → ps !! i = Some t1 → ps !! j = Some t2 →
     tiles_overlap t1 t2 = false) →
  placements_ok problem (map f ps).
Proof.
  intros Hin Hov Hpair. split.
  - intros t Ht. apply list_elem_of_fmap in Ht as (u & -> & Hu). by apply Hin.
  - intros i j t1 t2 Hij H1 H2.
    change (map f ps) with (f <$> ps) in H1, H2.
    rewrite list_lookup_fmap in H1, H2.
    destruct (ps !! i) as [u1|] eqn:E1; [|done].
    destruct (ps !! j) as [u2|] eqn:E2; [|done].
    simpl in *. simplify_eq. rewrite Hov. by apply (Hpair i j).
Qed.

(** Centering moves the bounding box inside the container as a whole. *)
Lemma center_solution_placements_ok
    (problem : PackingProblem) (ps : list TilePosition) :
  placements_ok problem ps →
  placements_ok problem (center_solution ps (container_w problem) (container_h problem)).
Proof.
  intros [Hin Hpair].
  destruct (decide (ps = [])) as [->|Hne]; [by split|].
  rewrite CoreFacts.center_solution_unfold by done.
  destruct (bounding_box_within problem ps Hne Hin) as (Hx0 & Hy0 & Hx1 & Hy1).
  unfold translate_solution.
  apply placements_ok_map; [|intros t1 t2; apply tiles_overlap_translate|done].
  intros t Ht.
  destruct (bounding_box_contains ps t Ht) as (Hbx & Hby & Hbx' & Hby').
  specialize (Hin t Ht).
  destruct t as [[[[x y] w] h] o]. simpl in *.
  set (uw := max_x ps - min_x ps) in *. set (uh := max_y ps - min_y ps) in *.
  pose proof (Z.div_pos (container_w problem - uw) 2 ltac:(lia) ltac:(lia)).
  pose proof (Z.div_pos (container_h problem - uh) 2 ltac:(lia) ltac:(lia)).
  pose proof (Z.div_le_upper_bound (container_w problem - uw) 2
                (container_w problem - uw) ltac:(lia) ltac:(lia)).
  pose proof (Z.div_le_upper_bound (container_h problem - uh) 2
                (container_h problem - uh) ltac:(lia) ltac:(lia)).
  lia.
Qed.

(** X1: centering keeps a placement list valid: if every tile lies
    inside the container and no two tiles overlap, the same holds after
    [center_solution] with the container's dimensions. *)
Theorem X1_center_solution_keeps_placements_valid
    (problem : PackingProblem) (ps : list TilePosition) :
  placements_ok problem ps →
  placements_ok problem (center_solution ps (container_w problem) (container_h problem)).
Proof. apply center_solution_placements_ok. Qed.

Lemma X1_center_solution_keeps_placements_valid_witness :
  let problem := mkProblem 7 5 3 2 None true true in
  let ps := [(0, 0, 3, 2, "original"); (3, 0, 3, 2, "original")] : list TilePosition in
  placements_ok problem ps ∧
  placements_ok problem (center_solution ps (container_w problem) (container_h problem)).
Proof.
  intros problem ps.
  assert (Hok : placements_ok problem ps).
  { split.
    - intros t Ht. repeat (apply elem_of_cons in Ht as [->|Ht]; [simpl; lia|]).
      by apply elem_of_nil in Ht.
    - intros [|[|i]] [|[|j]] t1 t2 Hij H1 H2; simpl in *; simplify_eq; done. }
  split; [exact Hok|].
  exact (X1_center_solution_keeps_placements_valid problem ps Hok).
Defined.

(** The centred bounding box starts at the offset [is_centered] expects. *)
Lemma is_centered_center_solution
    (ps : list TilePosition) (cw ch : Z) (name : string) :
  is_centered (mkSolution (center_solution ps cw ch) cw ch name) = true.
Proof.
  destruct (decide (ps = [])) as [->|Hne]; [done|].
  rewrite CoreFacts.center_solution_unfold by done.
  set (dx := (cw - (max_x ps - min_x ps)) / 2 - min_x ps).
  set (dy := (ch - (max_y ps - min_y ps)) / 2 - min_y ps).
  pose proof (CoreFacts.translate_nonempty ps dx dy Hne) as Hne'.
  unfold is_centered, bounding_box. simpl.
  destruct (translate_solution ps dx dy) as [|t0 l0] eqn:E; [done|].
  rewrite <- E.
  rewrite (CoreFacts.min_x_translate ps dx dy Hne), (CoreFacts.min_y_translate ps dx dy Hne),
          (CoreFacts.max_x_translate ps dx dy Hne), (CoreFacts.max_y_translate ps dx dy Hne).
  apply andb_true_iff. split; apply Z.leb_le; unfold dx, dy.
  - replace (max_x ps + _ - (min_x ps + _)) with (max_x ps - min_x ps) by lia. lia.
  - replace (max_y ps + _ - (min_y ps + _)) with (max_y ps - min_y ps) by lia. lia.
Qed.

(** X2: a solution whose placements went through [center_solution] with
    the solution's own container dimensions satisfies [is_centered]: the
    centred bounding box starts exactly at the offset that [is_centered]
    expects, on both axes. *)
Theorem X2_centered_solution_is_centered
    (ps : list TilePosition) (cw ch : Z) (name : string) :
  is_centered (mkSolution (center_solution ps cw ch) cw ch name) = true.
Proof. apply is_centered_center_solution. Qed.


(** Two tiles that cover a common point overlap. *)
Lemma covers_overlap (x y : Z) (t1 t2 : TilePosition) :
  covers x y t1 → covers x y t2 → tiles_overlap t1 t2 = true.
Proof.
  destruct t1 as [[[[x1 y1] w1] h1] o1], t2 as [[[[x2 y2] w2] h2] o2].
  unfold covers, tiles_overlap, rectangles_overlap. simpl. intros H1 H2.
  apply negb_true_iff. repeat (apply orb_false_iff; split); apply Z.leb_gt; lia.
Qed.

(** X3: on a solution without overlapping tiles,
    [get_tile_at_position (x, y)] returns [None] exactly when no tile
    covers the point, and returns index i exactly when tile i covers it. *)
Theorem X3_get_tile_at_position_finds_the_covering_tile
    (s : PackingSolution) (x y : Z) :
  (∀ (i j : nat) t1 t2, i ≠ j →
     tile_positions s !! i = Some t1 → tile_positions s !! j = Some t2 →
     tiles_overlap t1 t2 = false) →
  (get_tile_at_position s x y = None ↔
   ∀ t, t ∈ tile_positions s → ¬ covers x y t) ∧
  (∀ i, get_tile_at_position s x y = Some i ↔
        ∃ t, tile_positions s !! i = Some t ∧ covers x y t).
Proof.
  intros Hpair. unfold get_tile_at_position. split.
  - rewrite fmap_None, list_find_None, Forall_forall. done.
  - intros i. rewrite fmap_Some. split.
    + intros ([j t] & Hfind & ->). apply list_find_Some in Hfind as (Hl & Hc & _).
      by exists t.
    + intros (t & Hl & Hc). exists (i, t). split; [|done].
      apply list_find_Some. split; [done|]. split; [done|].
      intros j u Hj Hlt Hu.
      assert (tiles_overlap u t = false) as Hno by (apply (Hpair j i); [lia|done..]).
      by rewrite (covers_overlap x y u t) in Hno.
Qed.

Lemma X3_get_tile_at_position_finds_the_covering_tile_witness :
  let s := mkSolution [(0, 0, 3, 2, "original"); (3, 0, 3, 2, "original")] 7 5 "Greedy" in
  (∀ (i j : nat) t1 t2, i ≠ j →
     tile_positions s !! i = Some t1 → tile_positions s !! j = Some t2 →
     tiles_overlap t1 t2 = false) ∧
  ((get_tile_at_position s 4 1 = None ↔
    ∀ t, t ∈ tile_positions s → ¬ covers 4 1 t) ∧
   (∀ i, get_tile_at_position s 4 1 = Some i ↔
         ∃ t, tile_positions s !! i = Some t ∧ covers 4 1 t)).
Proof.
  intros s.
  assert (Hpair : ∀ (i j : nat) t1 t2, i ≠ j →
     tile_positions s !! i = Some t1 → tile_positions s !! j = Some t2 →
     tiles_overlap t1 t2 = false).
  { intros [|[|i]] [|[|j]] t1 t2 Hij H1 H2; simpl in *; simplify_eq; done. }
  split; [exact Hpair|].
  exact (X3_get_tile_at_position_finds_the_covering_tile s 4 1 Hpair).
Defined.

(** *** Mirrors *)

(** X4: both mirrors are involutions: mirroring a placement list twice
    about the same container dimension gives the list back, for every list
    and every dimension. *)
Theorem X4_mirrors_are_involutions (ps : list TilePosition) (cw ch : Z) :
  mirror_solution_horizontal (mirror_solution_horizontal ps cw) cw = ps ∧
  mirror_solution_vertical (mirror_solution_vertical ps ch) ch = ps.
Proof.
  unfold mirror_solution_horizontal, mirror_solution_vertical.
  rewrite !map_map. split.
  - rewrite <- (map_id ps) at 2. apply map_ext.
    intros [[[[x y] w] h] o]. repeat f_equal. lia.
  - rewrite <- (map_id ps) at 2. apply map_ext.
    intros [[[[x y] w] h] o]. repeat f_equal. lia.
Qed.

(** X5: both mirrors keep a placement list valid: tiles inside the
    container stay inside, and tiles that did not overlap still do not. *)
Theorem X5_mirrors_keep_placements_valid
    (problem : PackingProblem) (ps : list TilePosition) :
  placements_ok problem ps →
  placements_ok problem (mirror_solution_horizontal ps (container_w problem)) ∧
  placements_ok problem (mirror_solution_vertical ps (container_h problem)).
Proof.
  intros [Hin Hpair]. split.
  - apply placements_ok_map; [| |done].
    + intros t Ht. specialize (Hin t Ht).
      destruct t as [[[[x y] w] h] o]. simpl in *. lia.
    + intros [[[[x1 y1] w1] h1] o1] [[[[x2 y2] w2] h2] o2].
      unfold tiles_overlap, rectangles_overlap. simpl. f_equal.
      rewrite (leb_ext (container_w problem - x1 - w1 + w1) (container_w problem - x2 - w2)
                 (x2 + w2) x1) by lia.
      rewrite (leb_ext (container_w problem - x2 - w2 + w2) (container_w problem - x1 - w1)
                 (x1 + w1) x2) by lia.
      by rewrite (orb_comm (x2 + w2 <=? x1)).
  - apply placements_ok_map; [| |done].
    + intros t Ht. specialize (Hin t Ht).
      destruct t as [[[[x y] w] h] o]. simpl in *. lia.
    + intros [[[[x1 y1] w1] h1] o1] [[[[x2 y2] w2] h2] o2].
      unfold tiles_overlap, rectangles_overlap. simpl. f_equal.
      rewrite (leb_ext (container_h problem - y1 - h1 + h1) (container_h problem - y2 - h2)
                 (y2 + h2) y1) by lia.
      rewrite (leb_ext (container_h problem - y2 - h2 + h2) (container_h problem - y1 - h1)
                 (y1 + h1) y2) by lia.
      rewrite <- !orb_assoc. f_equal. f_equal. apply orb_comm.
Qed.

Lemma X5_mirrors_keep_placements_valid_witness :
  let problem := mkProblem 7 5 3 2 None true true in
  let ps := [(0, 0, 3, 2, "original"); (3, 0, 3, 2, "original")] : list TilePosition in
  placements_ok problem ps ∧
  (placements_ok problem (mirror_solution_horizontal ps (container_w problem)) ∧
   placements_ok problem (mirror_solution_vertical ps (container_h problem))).
Proof.
  intros problem ps.
  assert (Hok : placements_ok problem ps).
  { split.
    - intros t Ht. repeat (apply elem_of_cons in Ht as [->|Ht]; [simpl; lia|]).
      by apply elem_of_nil in Ht.
    - intros [|[|i]] [|[|j]] t1 t2 Hij H1 H2; simpl in *; simplify_eq; done. }
  split; [exact Hok|].
  exact (X5_mirrors_keep_placements_valid problem ps Hok).
Defined.

End GeometryFacts.

(* ===================================================================== *)
(** ** The area bound *)
(* ===================================================================== *)

Module AreaFacts.
Import Core Solvers Solution.

Lemma length_bind_const {A B} (f : A → list B) (l : list A) (n : nat) :
  (∀ a, length (f a) = n) → length (l ≫= f) = (length l * n)%nat.
Proof.
  intros Hf. induction l as [|a l IH]; [done|].
  rewrite bind_cons, length_app, Hf, IH. simpl. lia.
Qed.

Lemma length_footprint (x y w h : Z) :
  length (footprint x y w h) = (Z.to_nat w * Z.to_nat h)%nat.
Proof.
  unfold footprint, py_range.
  rewrite (length_bind_const _ _ (Z.to_nat h)).
  - rewrite length_seqZ. f_equal. lia.
  - intros a. rewrite (length_bind_const _ _ 1%nat) by done.
    rewrite length_seqZ. lia.
Qed.

Lemma NoDup_footprint (x y w h : Z) : NoDup (footprint x y w h).
Proof.
  unfold footprint, py_range. apply NoDup_bind.
  - intros a b c _ _ Ha Hb.
    apply list_elem_of_bind in Ha as (? & Ha & _), Hb as (? & Hb & _).
    apply list_elem_of_singleton in Ha, Hb. congruence.
  - intros a _. apply NoDup_bind.
    + intros b1 b2 c _ _ H1 H2. apply list_elem_of_singleton in H1, H2. congruence.
    + intros b _. apply NoDup_singleton.
    + apply NoDup_seqZ.
  - apply NoDup_seqZ.
Qed.

Lemma size_tile_cells (t : TilePosition) :
  0 <= tp_w t → 0 <= tp_h t → Z.of_nat (size (tile_cells t)) = tp_w t * tp_h t.
Proof.
  intros Hw Hh. unfold tile_cells.
  rewrite size_list_to_set by apply NoDup_footprint.
  rewrite length_footprint. lia.
Qed.

Lemma elem_of_tile_cells (t : TilePosition) (cx cy : Z) :
  (cx, cy) ∈ tile_cells t ↔
  tp_x t <= cx < tp_x t + tp_w t ∧ tp_y t <= cy < tp_y t + tp_h t.
Proof. unfold tile_cells. rewrite elem_of_list_to_set. apply SolverFacts.elem_of_footprint. Qed.

(** Tiles that do not overlap cover disjoint sets of cells. *)
Lemma tile_cells_disjoint (t1 t2 : TilePosition) :
  tiles_overlap t1 t2 = false → tile_cells t1 ## tile_cells t2.
Proof.
  intros Hno [cx cy] H1 H2. apply elem_of_tile_cells in H1, H2.
  unfold tiles_overlap, rectangles_overlap in Hno.
  apply negb_false_iff in Hno.
  repeat (apply orb_true_iff in Hno as [Hno|Hno]); apply Z.leb_le in Hno; lia.
Qed.

Lemma pairwise_cons_inv (t : TilePosition) (ps : list TilePosition) :
  (∀ (i j : nat) t1 t2, i ≠ j → (t :: ps) !! i = Some t1 → (t :: ps) !! j = Some t2 →
     tiles_overlap t1 t2 = false) →
  (∀ u, u ∈ ps → tiles_overlap t u = false) ∧
  (∀ (i j : nat) t1 t2, i ≠ j → ps !! i = Some t1 → ps !! j = Some t2 →
     tiles_overlap t1 t2 = false).
Proof.
  intros H. split.
  - intros u Hu. apply list_elem_of_lookup_1 in Hu as [k Hk].
    by apply (H 0%nat (S k)).
  - intros i j t1 t2 Hij H1 H2. apply (H (S i) (S j)); [lia|done..].
Qed.

(** The cells covered by a valid placement list: their number is the
    number of tiles times the tile area, and they all belong to the
    container. *)
Lemma covered_cells (problem : PackingProblem) (ps : list TilePosition) :
  0 < tile_w problem → 0 < tile_h problem →
  placements_ok problem ps → (∀ t, t ∈ ps → tile_sized problem t) →
  Z.of_nat (size (⋃ (tile_cells <$> ps))) = Z.of_nat (length ps) * tile_area problem ∧
  ⋃ (tile_cells <$> ps)
    ⊆ list_to_set (footprint 0 0 (container_w problem) (container_h problem)).
Proof.
  intros Htw Hth [Hin Hpair] Hsz.
  induction ps as [|t ps IH].
  - simpl. split; [done|set_solver].
  - apply pairwise_cons_inv in Hpair as [Hnew Hpair].
    destruct IH as [IH1 IH2].
    { intros u Hu. apply Hin. by right. }
    { done. }
    { intros u Hu. apply Hsz. by right. }
    change (⋃ (tile_cells <$> t :: ps)) with (tile_cells t ∪ ⋃ (tile_cells <$> ps)).
    rewrite length_cons, Nat2Z.inj_succ. split.
    + rewrite size_union.
      * rewrite Nat2Z.inj_add, IH1, size_tile_cells.
        -- unfold tile_area. destruct (Hsz t ltac:(by left)) as [[-> ->]|[-> ->]]; lia.
        -- destruct (Hsz t ltac:(by left)) as [[-> _]|[-> _]]; lia.
        -- destruct (Hsz t ltac:(by left)) as [[_ ->]|[_ ->]]; lia.
      * intros c Hc Hc'. apply elem_of_union_list in Hc' as (X & HX & HcX).
        apply list_elem_of_fmap in HX as (u & -> & Hu).
        by apply (tile_cells_disjoint t u (Hnew u Hu) c).
    + apply union_subseteq. split; [|done].
      intros [cx cy] Hc. apply elem_of_tile_cells in Hc.
      apply elem_of_list_to_set, SolverFacts.elem_of_footprint.
      specialize (Hin t ltac:(by left)).
      destruct t as [[[[x y] w] h] o]. simpl in *. lia.
Qed.

(** X6: [theoretical_max_tiles] bounds every packing: a placement
    list whose tiles have the problem's tile dimensions (in either
    orientation), lie inside the container and do not overlap has at most
    [container_area // tile_area] tiles. *)
Theorem X6_theoretical_max_bounds_every_packing
    (problem : PackingProblem) (ps : list TilePosition) :
  valid_problem problem →
  placements_ok problem ps →
  (∀ t, t ∈ ps → tile_sized problem t) →
  Z.of_nat (length ps) <= theoretical_max_tiles problem.
Proof.
  intros Hvalid Hok Hsz.
  destruct (CoreFacts.valid_problem_dims problem Hvalid) as (Hcw & Hch & Htw & Hth & _ & _).
  destruct (covered_cells problem ps Htw Hth Hok Hsz) as [Hsize Hsub].
  apply subseteq_size in Hsub.
  rewrite size_list_to_set in Hsub by apply NoDup_footprint.
  rewrite length_footprint in Hsub.
  unfold theoretical_max_tiles, container_area.
  apply Z.div_le_lower_bound; [unfold tile_area; lia|].
  rewrite Z.mul_comm, <- Hsize. lia.
Qed.

Lemma X6_theoretical_max_bounds_every_packing_witness :
  let problem := mkProblem 7 5 3 2 None true true in
  let ps := [(0, 0, 3, 2, "original"); (3, 0, 2, 3, "rotated")] : list TilePosition in
  valid_problem problem ∧ placements_ok problem ps ∧
  (∀ t, t ∈ ps → tile_sized problem t) ∧
  Z.of_nat (length ps) <= theoretical_max_tiles problem.
Proof.
  intros problem ps.
  assert (Hvalid : valid_problem problem) by reflexivity.
  assert (Hok : placements_ok problem ps).
  { split.
    - intros t Ht. repeat (apply elem_of_cons in Ht as [->|Ht]; [simpl; lia|]).
      by apply elem_of_nil in Ht.
    - intros [|[|i]] [|[|j]] t1 t2 Hij H1 H2; simpl in *; simplify_eq; done. }
  assert (Hsz : ∀ t, t ∈ ps → tile_sized problem t).
  { intros t Ht. apply elem_of_cons in Ht as [->|Ht]; [by left|].
    apply elem_of_cons in Ht as [->|Ht]; [by right|]. by apply elem_of_nil in Ht. }
  split; [exact Hvalid|]. split; [exact Hok|]. split; [exact Hsz|].
  exact (X6_theoretical_max_bounds_every_packing problem ps Hvalid Hok Hsz).
Defined.

End AreaFacts.

(* ===================================================================== *)
(** ** Validation *)
(* ===================================================================== *)

Module ValidationFacts.
Import Core Solvers Validation.

Lemma if_one_nil {A} (b : bool) (m : A) : (if b then [m] else []) = [] ↔ b = false.
Proof. by destruct b. Qed.

Lemma if_nil_one {A} (b : bool) (m : A) : (if b then [] else [m]) = [] ↔ b = true.
Proof. by destruct b. Qed.

(** *** [check_overlaps] *)

Lemma overlaps_with_nil (i j : nat) (t1 : TilePosition) (rest : list TilePosition) :
  overlaps_with i j t1 rest = [] ↔ ∀ t2, t2 ∈ rest → tiles_overlap t1 t2 = false.
Proof.
  revert j. induction rest as [|t2 rest IH]; intros j; simpl.
  - split; [|done]. intros _ t2 H. by apply elem_of_nil in H.
  - rewrite app_nil, if_one_nil, IH. split.
    + intros [H1 H2] u. rewrite elem_of_cons. intros [->|Hu]; [done|auto].
    + intros H. split; [apply H; by left|]. intros u Hu. apply H. by right.
Qed.

Lemma check_overlaps_from_nil (i : nat) (positions : list TilePosition) :
  check_overlaps_from i positions = [] ↔
  ∀ (a b : nat) t1 t2, (a < b)%nat →
    positions !! a = Some t1 → positions !! b = Some t2 → tiles_overlap t1 t2 = false.
Proof.
  revert i. induction positions as [|t positions IH]; intros i; simpl.
  - split; [|done]. intros _ a b t1 t2 _ H. done.
  - rewrite app_nil, overlaps_with_nil, IH. split.
    + intros [H1 H2] [|a] [|b] t1 t2 Hab Ha Hb; simpl in *; try lia.
      * simplify_eq. apply H1. by eapply list_elem_of_lookup_2.
      * apply (H2 a b); [lia|done..].
    + intros H. split.
      * intros t2 Ht2. apply list_elem_of_lookup_1 in Ht2 as [k Hk].
        apply (H 0%nat (S k)); [lia|done..].
      * intros a b t1 t2 Hab Ha Hb. apply (H (S a) (S b)); [lia|done..].
Qed.

(** X7: [check_overlaps] returns no message exactly when no two tiles of
    the list overlap. *)
Theorem X7_check_overlaps_empty_iff_no_overlap (positions : list TilePosition) :
  check_overlaps positions = [] ↔
  ∀ (i j : nat) t1 t2, i ≠ j →
    positions !! i = Some t1 → positions !! j = Some t2 → tiles_overlap t1 t2 = false.
Proof.
  unfold check_overlaps. rewrite check_overlaps_from_nil. split.
  - intros H i j t1 t2 Hij H1 H2.
    destruct (decide (i < j)%nat).
    + by apply (H i j).
    + rewrite SolverFacts.tiles_overlap_sym. apply (H j i); [lia|done..].
  - intros H a b t1 t2 Hab. apply H. lia.
Qed.

(** *** [validate_solution] *)

Lemma tile_errors_nil (problem : PackingProblem) (i : nat) (t : TilePosition) :
  tile_errors problem i t = [] ↔ tile_legal problem t.
Proof.
  destruct t as [[[[x y] w] h] o]. unfold tile_errors, tile_legal.
  rewrite !app_nil, !if_one_nil, !if_nil_one.
  rewrite !andb_false_iff, !orb_false_iff, !negb_false_iff, !bool_decide_eq_true.
  rewrite !Z.gtb_ltb, !Z.ltb_ge, !Z.leb_gt.
  rewrite !String.eqb_neq.
  split.
  - intros (H1 & H2 & H3 & H4 & H5 & H6 & H7 & H8 & H9).
    repeat split; try lia.
    apply elem_of_cons in H6 as [->|H6].
    + left. destruct H9 as [H9|H9]; [done|]. by simplify_eq.
    + apply list_elem_of_singleton in H6 as ->. right.
      destruct H7 as [H7|H7]; [done|]. destruct H8 as [H8|H8]; [done|]. by simplify_eq.
  - intros (Hx & Hy & Hxw & Hyh & Hw & Hh & Ho).
    repeat split; try lia.
    + destruct Ho as [(-> & -> & ->)|(-> & Hrot & -> & ->)]; [by left|].
      rewrite Hrot. right. by left.
    + destruct Ho as [(-> & _)|(-> & _)]; [by left|right; by left].
    + destruct Ho as [(-> & _)|(-> & -> & _)]; [by left|by right].
    + destruct Ho as [(-> & _)|(-> & _ & -> & ->)]; [by left|by right].
    + destruct Ho as [(-> & -> & ->)|(-> & _)]; [by right|by left].
Qed.

Lemma tiles_errors_from_nil (problem : PackingProblem) (i : nat)
    (positions : list TilePosition) :
  tiles_errors_from problem i positions = [] ↔
  ∀ t, t ∈ positions → tile_legal problem t.
Proof.
  revert i. induction positions as [|t positions IH]; intros i; simpl.
  - split; [|done]. intros _ t H. by apply elem_of_nil in H.
  - rewrite app_nil, tile_errors_nil, IH. split.
    + intros [H1 H2] u. rewrite elem_of_cons. intros [->|Hu]; [done|auto].
    + intros H. split; [apply H; by left|]. intros u Hu. apply H. by right.
Qed.

Lemma validate_solution_spec (solution : PackingSolution) (problem : PackingProblem) :
  (validate_solution solution problem = (true, []) ↔ solution_legal solution problem) ∧
  (fst (validate_solution solution problem) = false ↔ ¬ solution_legal solution problem).
Proof.
  assert (Hnil : snd (validate_solution solution problem) = [] ↔
                 solution_legal solution problem).
  { unfold validate_solution, solution_legal, check_overlaps. simpl.
    rewrite !app_nil, if_one_nil, tiles_errors_from_nil, check_overlaps_from_nil.
    unfold tiles_overlap.
    rewrite orb_false_iff, !negb_false_iff, !Z.eqb_eq.
    assert ((match max_tiles problem with
             | Some m =>
                 if num_tiles solution >? m
                 then ["Too many tiles: " +:+ show (num_tiles solution) +:+ " > " +:+ show m]
                 else []
             | None => []
             end = []) ↔ ∀ m, max_tiles problem = Some m → num_tiles solution <= m) as ->.
    { destruct (max_tiles problem) as [m|]; [|split; [intros _ m Hm; done|done]].
      rewrite if_one_nil, Z.gtb_ltb, Z.ltb_ge. split.
      - intros H m' Hm'. by simplify_eq.
      - intros H. by apply H. }
    tauto. }
  assert (Hfst : fst (validate_solution solution problem) =
                 bool_decide (snd (validate_solution solution problem) = [])).
  { unfold validate_solution. simpl. apply bool_decide_ext.
    split; [apply nil_length_inv|intros ->; done]. }
  split.
  - rewrite <- Hnil. split.
    + intros H. by rewrite H.
    + intros H. rewrite (surjective_pairing (validate_solution solution problem)).
      rewrite Hfst, H. done.
  - rewrite Hfst, bool_decide_eq_false, Hnil. done.
Qed.

(** X8: [validate_solution] accepts a solution, with an empty error
    list, exactly when the container dimensions match the problem's, every
    tile lies inside the container with positive size, carries orientation
    "original" with the problem's tile dimensions or "rotated" with the
    swapped ones (and then rotation is allowed), no two tiles overlap, and
    the tile count does not exceed [max_tiles] when that is set; otherwise
    it returns [False]. *)
Theorem X8_validate_solution_accepts_exactly_legal_solutions
    (solution : PackingSolution) (problem : PackingProblem) :
  (validate_solution solution problem = (true, []) ↔ solution_legal solution problem) ∧
  (fst (validate_solution solution problem) = false ↔ ¬ solution_legal solution problem).
Proof. exact (validate_solution_spec solution problem). Qed.



End ValidationFacts.

(* ===================================================================== *)
(** ** Solvers: how many tiles, and validation of the results *)
(* ===================================================================== *)

Module SolverBounds.
Import Core Solvers Validation SolverSpecs SolverFacts.

(** A constructed problem admits at least one tile by area. *)
Lemma theoretical_max_tiles_pos (problem : PackingProblem) :
  valid_problem problem → 1 <= theoretical_max_tiles problem.
Proof.
  intros Hvalid.
  destruct (CoreFacts.valid_problem_dims problem Hvalid) as (Hcw & Hch & Htw & Hth & Hw & Hh).
  unfold theoretical_max_tiles, container_area, tile_area.
  apply Z.div_le_lower_bound; nia.
Qed.

(** *** Mathematical *)

Lemma elem_of_find_rectangular_arrangements (problem : PackingProblem) (a : Arrangement) :
  a ∈ find_rectangular_arrangements problem ↔
  let '(rows, cols, start_x, start_y, total_tiles) := a in
  1 <= rows ∧ 1 <= cols ∧ rows * cols <= tile_budget problem ∧
  cols * tile_w problem <= container_w problem ∧
  rows * tile_h problem <= container_h problem ∧
  start_x = (container_w problem - cols * tile_w problem) / 2 ∧
  start_y = (container_h problem - rows * tile_h problem) / 2 ∧
  total_tiles = rows * cols.
Proof.
  destruct a as [[[[rows cols] start_x] start_y] total].
  unfold find_rectangular_arrangements. rewrite elem_of_sort_desc, list_elem_of_bind.
  split.
  - intros (r & Hin & Hr). apply list_elem_of_bind in Hin as (c & Hin & Hc).
    apply elem_of_py_range in Hr, Hc.
    destruct (r * c <=? tile_budget problem) eqn:E0; [|by apply elem_of_nil in Hin].
    destruct (c * tile_w problem <=? container_w problem) eqn:E1;
    destruct (r * tile_h problem <=? container_h problem) eqn:E2;
    simpl in Hin; try by apply elem_of_nil in Hin.
    apply list_elem_of_singleton in Hin. simplify_eq.
    apply Z.leb_le in E0, E1, E2. lia.
  - intros (Hr & Hc & Hb & Hw & Hh & -> & -> & ->).
    exists rows. split; [|apply elem_of_py_range; nia].
    apply list_elem_of_bind. exists cols. split.
    + apply Z.leb_le in Hb, Hw, Hh. rewrite Hb, Hw, Hh. simpl.
      by apply list_elem_of_singleton.
    + apply elem_of_py_range. split; [lia|].
      assert (cols <= tile_budget problem / rows); [|lia].
      apply Z.div_le_lower_bound; lia.
Qed.

Lemma max_by_total_seed (l : list Arrangement) (a : Arrangement) :
  arr_total a <= arr_total (max_by_total a l).
Proof.
  unfold max_by_total. revert a. induction l as [|b l IH]; intros a; simpl; [lia|].
  etrans; [|apply IH]. destruct (Z.gtb_spec (arr_total b) (arr_total a)); lia.
Qed.

Lemma max_by_total_max (a : Arrangement) (l : list Arrangement) (x : Arrangement) :
  x ∈ a :: l → arr_total x <= arr_total (max_by_total a l).
Proof.
  rewrite elem_of_cons. intros [->|Hx]; [apply max_by_total_seed|].
  revert a. induction l as [|b l IH]; intros a; [by apply elem_of_nil in Hx|].
  apply elem_of_cons in Hx as [->|Hx].
  - change (max_by_total a (b :: l))
      with (max_by_total (if arr_total b >? arr_total a then b else a) l).
    etrans; [|apply max_by_total_seed].
    destruct (Z.gtb_spec (arr_total b) (arr_total a)); lia.
  - change (max_by_total a (b :: l))
      with (max_by_total (if arr_total b >? arr_total a then b else a) l).
    by apply IH.
Qed.

Lemma length_grid_positions (problem : PackingProblem) (a : Arrangement) :
  let '(rows, cols, _, _, _) := a in
  0 <= rows → 0 <= cols →
  Z.of_nat (length (grid_positions problem a)) = rows * cols.
Proof.
  destruct a as [[[[rows cols] start_x] start_y] total]. intros Hr Hc.
  unfold grid_positions, py_range.
  rewrite (AreaFacts.length_bind_const _ _ (Z.to_nat cols)).
  - rewrite length_seqZ. lia.
  - intros r. rewrite (AreaFacts.length_bind_const _ _ 1%nat) by done.
    rewrite length_seqZ. lia.
Qed.

(** The tile count of [MathematicalSolver.solve]: the largest
    [rows * cols] among the grids that fit and respect the budget. *)
Lemma mathematical_solve_count (problem : PackingProblem) :
  (∀ rows cols, 1 <= rows → 1 <= cols → rows * cols <= tile_budget problem →
     cols * tile_w problem <= container_w problem →
     rows * tile_h problem <= container_h problem →
     rows * cols <= num_tiles (mathematical_solve problem)) ∧
  (num_tiles (mathematical_solve problem) = 0 ∨
   ∃ rows cols, 1 <= rows ∧ 1 <= cols ∧ rows * cols <= tile_budget problem ∧
     cols * tile_w problem <= container_w problem ∧
     rows * tile_h problem <= container_h problem ∧
     num_tiles (mathematical_solve problem) = rows * cols).
Proof.
  unfold mathematical_solve, num_tiles.
  destruct (find_rectangular_arrangements problem) as [|a l] eqn:E; simpl.
  - split; [|by left]. intros rows cols Hr Hc Hb Hw Hh. exfalso.
    assert (Hin : (rows, cols, (container_w problem - cols * tile_w problem) / 2,
                   (container_h problem - rows * tile_h problem) / 2, rows * cols)
                  ∈ find_rectangular_arrangements problem).
    { apply elem_of_find_rectangular_arrangements. repeat split; done. }
    rewrite E in Hin. by apply elem_of_nil in Hin.
  - pose proof (max_by_total_elem a l) as Hbest. rewrite <- E in Hbest.
    pose proof Hbest as Hbest'.
    apply elem_of_find_rectangular_arrangements in Hbest'.
    pose proof (length_grid_positions problem (max_by_total a l)) as Hlen.
    destruct (max_by_total a l) as [[[[rows0 cols0] sx0] sy0] total0] eqn:Em.
    destruct Hbest' as (Hr0 & Hc0 & Hb0 & Hw0 & Hh0 & _ & _ & Ht0).
    rewrite Hlen by lia. split.
    + intros rows cols Hr Hc Hb Hw Hh.
      assert (Hin : (rows, cols, (container_w problem - cols * tile_w problem) / 2,
                     (container_h problem - rows * tile_h problem) / 2, rows * cols)
                    ∈ a :: l).
      { rewrite <- E. apply elem_of_find_rectangular_arrangements. repeat split; done. }
      apply (max_by_total_max a l) in Hin. rewrite Em in Hin. simpl in Hin. lia.
    + right. exists rows0, cols0. repeat split; done.
Qed.

(** X9: with no cap on the number of tiles, the Mathematical solver places
    exactly floor(container_w / tile_w) * floor(container_h / tile_h)
    tiles: the full grid of unrotated tiles. *)
Theorem X9_mathematical_solver_places_the_full_grid (problem : PackingProblem) :
  valid_problem problem → max_tiles problem = None →
  num_tiles (mathematical_solve problem) =
    (container_w problem / tile_w problem) * (container_h problem / tile_h problem).
Proof.
  intros Hvalid Hnone.
  destruct (CoreFacts.valid_problem_dims problem Hvalid) as (Hcw & Hch & Htw & Hth & Hw & Hh).
  set (C := container_w problem / tile_w problem).
  set (R := container_h problem / tile_h problem).
  assert (HC : 1 <= C) by (apply Z.div_le_lower_bound; lia).
  assert (HR : 1 <= R) by (apply Z.div_le_lower_bound; lia).
  assert (HCw : C * tile_w problem <= container_w problem).
  { rewrite Z.mul_comm. apply Z.mul_div_le. lia. }
  assert (HRh : R * tile_h problem <= container_h problem).
  { rewrite Z.mul_comm. apply Z.mul_div_le. lia. }
  assert (Hbudget : tile_budget problem = theoretical_max_tiles problem).
  { unfold tile_budget. by rewrite Hnone. }
  assert (HRC : R * C <= tile_budget problem).
  { rewrite Hbudget. unfold theoretical_max_tiles, container_area, tile_area.
    apply Z.div_le_lower_bound; nia. }
  destruct (mathematical_solve_count problem) as [Hge Hle].
  specialize (Hge R C HR HC HRC HCw HRh).
  destruct Hle as [H0|(rows & cols & Hr & Hc & Hb & Hcw' & Hrh' & Hn)]; [nia|].
  assert (cols <= C) by (apply Z.div_le_lower_bound; lia).
  assert (rows <= R) by (apply Z.div_le_lower_bound; lia).
  rewrite Z.mul_comm. nia.
Qed.

Lemma X9_mathematical_solver_places_the_full_grid_witness :
  let problem := mkProblem 7 5 3 2 None true true in
  valid_problem problem ∧ max_tiles problem = None ∧
  num_tiles (mathematical_solve problem) =
    (container_w problem / tile_w problem) * (container_h problem / tile_h problem).
Proof.
  intros problem.
  assert (Hvalid : valid_problem problem) by reflexivity.
  assert (Hnone : max_tiles problem = None) by reflexivity.
  split; [exact Hvalid|]. split; [exact Hnone|].
  exact (X9_mathematical_solver_places_the_full_grid problem Hvalid Hnone).
Defined.


(** The tile count of the Mathematical solver against the budget. *)
Lemma mathematical_solve_budget (problem : PackingProblem) :
  valid_problem problem →
  (1 <= tile_budget problem →
   1 <= num_tiles (mathematical_solve problem) <= tile_budget problem) ∧
  (tile_budget problem < 1 → num_tiles (mathematical_solve problem) = 0).
Proof.
  intros Hvalid.
  destruct (CoreFacts.valid_problem_dims problem Hvalid) as (Hcw & Hch & Htw & Hth & Hw & Hh).
  destruct (mathematical_solve_count problem) as [Hge Hle]. split.
  - intros Hb. specialize (Hge 1 1 ltac:(lia) ltac:(lia) ltac:(lia) ltac:(lia) ltac:(lia)).
    destruct Hle as [H0|(rows & cols & ? & ? & ? & ? & ? & Hn)]; lia.
  - intros Hb. destruct Hle as [H0|(rows & cols & ? & ? & ? & ? & ? & Hn)]; [done|nia].
Qed.

Lemma mathematical_solve_tiles (problem : PackingProblem) (t : TilePosition) :
  t ∈ tile_positions (mathematical_solve problem) →
  ∃ x y, t = (x, y, tile_w problem, tile_h problem, "original").
Proof.
  unfold mathematical_solve.
  destruct (find_rectangular_arrangements problem) as [|a l]; simpl.
  - intros H. by apply elem_of_nil in H.
  - intros H. apply elem_of_grid_positions in H.
    destruct (max_by_total a l) as [[[[rows cols] sx] sy] total].
    destruct H as (r & c & _ & _ & ->). eauto.
Qed.

(** A solution made of unrotated tiles of the problem's size that are
    fine as placements is legal up to the cap on the tile count. *)
Lemma unrotated_solution_legal (problem : PackingProblem) (ps : list TilePosition)
    (name : string) :
  0 < tile_w problem → 0 < tile_h problem →
  placements_ok problem ps →
  (∀ t, t ∈ ps → ∃ x y, t = (x, y, tile_w problem, tile_h problem, "original")) →
  solution_legal (mkSolution ps (container_w problem) (container_h problem) name) problem ↔
  ∀ m, max_tiles problem = Some m → Z.of_nat (length ps) <= m.
Proof.
  intros Htw Hth [Hin Hpair] Hshape. unfold solution_legal. simpl. split.
  - intros (_ & _ & _ & _ & Hcap). exact Hcap.
  - intros Hcap. repeat split; try done.
    + intros t Ht. destruct (Hshape t Ht) as (x & y & ->).
      specialize (Hin _ Ht). simpl in *. repeat split; try lia. by left.
    + intros i j t1 t2 Hij H1 H2. apply (Hpair i j); [lia|done..].
Qed.

(** The cap [max_tiles] as the solvers read it and as the validator
    reads it agree exactly when it is absent or at least 1. *)
Lemma cap_respected (problem : PackingProblem) (n : Z) :
  valid_problem problem →
  (1 <= tile_budget problem → 1 <= n <= tile_budget problem) →
  (tile_budget problem < 1 → n = 0) →
  (∀ m, max_tiles problem = Some m → n <= m) ↔
  (∀ m, max_tiles problem = Some m → 1 <= m).
Proof.
  intros Hvalid Hpos Hneg.
  pose proof (theoretical_max_tiles_pos problem Hvalid) as Hmax.
  unfold tile_budget in *.
  destruct (max_tiles problem) as [cap|]; [|done].
  destruct (decide (cap = 0)) as [->|Hm0].
  - simpl in *. split; intros H; specialize (H 0 eq_refl); lia.
  - pose proof Hm0 as Hm0'. apply Z.eqb_neq in Hm0'. rewrite Hm0' in *.
    split; intros H m' Hm'; simplify_eq; specialize (H m' eq_refl); lia.
Qed.

(** X10: the solution of the Mathematical solver passes
    [validate_solution] for its own problem exactly when [max_tiles] is
    absent or at least 1.  (The solver reads [max_tiles = 0] as no cap and
    places tiles, the validator reads it as a cap of zero; a negative cap
    gives an empty solution, which the validator still counts as too
    many.) *)
Theorem X10_mathematical_solution_validates_unless_cap_below_one
    (problem : PackingProblem) :
  valid_problem problem →
  validate_solution (mathematical_solve problem) problem = (true, []) ↔
  ∀ m, max_tiles problem = Some m → 1 <= m.
Proof.
  intros Hvalid.
  destruct (CoreFacts.valid_problem_dims problem Hvalid) as (Hcw & Hch & Htw & Hth & Hw & Hh).
  destruct (ValidationFacts.validate_solution_spec (mathematical_solve problem) problem)
    as [-> _].
  destruct (mathematical_solve_budget problem Hvalid) as [Hpos Hneg].
  rewrite <- (cap_respected problem (num_tiles (mathematical_solve problem)) Hvalid Hpos Hneg).
  pose proof (mathematical_solve_ok problem Htw Hth) as Hok.
  pose proof (mathematical_solve_tiles problem) as Hshape.
  pose proof (unrotated_solution_legal problem
                (tile_positions (mathematical_solve problem)) "Mathematical"
                Htw Hth Hok Hshape) as Hlegal.
  replace (mkSolution (tile_positions (mathematical_solve problem))
             (container_w problem) (container_h problem) "Mathematical")
    with (mathematical_solve problem) in Hlegal; [exact Hlegal|].
  unfold mathematical_solve. by destruct (find_rectangular_arrangements problem).
Qed.

Lemma X10_mathematical_solution_validates_unless_cap_below_one_witness :
  let problem := mkProblem 7 5 3 2 (Some 0) true true in
  valid_problem problem ∧
  (validate_solution (mathematical_solve problem) problem = (true, []) ↔
   ∀ m, max_tiles problem = Some m → 1 <= m).
Proof.
  intros problem.
  assert (Hvalid : valid_problem problem) by reflexivity.
  split; [exact Hvalid|].
  exact (X10_mathematical_solution_validates_unless_cap_below_one problem Hvalid).
Defined.


(** *** Greedy *)

(** Two tiles with a common cell overlap. *)
Lemma shared_cell_overlap (t1 t2 : TilePosition) (c : Z * Z) :
  c ∈ footprint (tp_x t1) (tp_y t1) (tp_w t1) (tp_h t1) →
  c ∈ footprint (tp_x t2) (tp_y t2) (tp_w t2) (tp_h t2) →
  tiles_overlap t1 t2 = true.
Proof.
  destruct c as [cx cy]. rewrite !elem_of_footprint. intros H1 H2.
  unfold tiles_overlap, rectangles_overlap.
  apply negb_true_iff. repeat (apply orb_false_iff; split); apply Z.leb_gt; lia.
Qed.

Lemma forallb_false {A} (f : A → bool) (l : list A) :
  forallb f l = false → ∃ x, x ∈ l ∧ f x = false.
Proof.
  induction l as [|a l IH]; simpl; [done|].
  destruct (f a) eqn:E; simpl.
  - intros H. destruct (IH H) as (x & Hx & Hfx). exists x. split; [by right|done].
  - intros _. exists a. split; [by left|done].
Qed.

(** A position that is not free is blocked by a placed tile. *)
Lemma blocked_overlaps (problem : PackingProblem) placed occupied (x y : Z) (o : string) :
  greedy_exact problem placed occupied →
  can_place_at x y (tile_w problem) (tile_h problem) occupied = false →
  ∃ t, t ∈ placed ∧ tiles_overlap t (x, y, tile_w problem, tile_h problem, o) = true.
Proof.
  intros [Hocc _] Hblocked. unfold can_place_at in Hblocked.
  apply forallb_false in Hblocked as (c & Hc & Hin).
  apply negb_false_iff, bool_decide_eq_true in Hin.
  destruct (Hocc c Hin) as (t & Ht & Hct). exists t. split; [done|].
  by apply (shared_cell_overlap t _ c).
Qed.

Lemma greedy_exact_init (problem : PackingProblem) : greedy_exact problem [] ∅.
Proof. split; [intros c H; set_solver|intros t H; by apply elem_of_nil in H]. Qed.

Lemma greedy_exact_step (problem : PackingProblem) placed occupied (x y : Z) :
  greedy_exact problem placed occupied →
  greedy_exact problem
    (placed ++ [(x, y, tile_w problem, tile_h problem, "original")])
    (occupy occupied x y (tile_w problem) (tile_h problem)).
Proof.
  intros [Hocc Hshape]. split.
  - intros c Hc. apply elem_of_occupy in Hc as [Hc|Hc].
    + destruct (Hocc c Hc) as (t & Ht & Hct). exists t. split; [|done].
      apply elem_of_app. by left.
    + eexists. split; [apply elem_of_app; right; by apply list_elem_of_singleton|done].
  - intros t Ht. apply elem_of_app in Ht as [Ht|Ht]; [by apply Hshape|].
    apply list_elem_of_singleton in Ht as ->. eauto.
Qed.

Lemma tiles_overlap_self (t : TilePosition) :
  0 < tp_w t → 0 < tp_h t → tiles_overlap t t = true.
Proof.
  intros Hw Hh. unfold tiles_overlap, rectangles_overlap.
  apply negb_true_iff. repeat (apply orb_false_iff; split); apply Z.leb_gt; lia.
Qed.

Lemma bottom_left_loop_exact (problem : PackingProblem) (n : nat) placed occupied :
  greedy_exact problem placed occupied →
  let r := bottom_left_loop problem n placed occupied in
  (∀ t, t ∈ r → ∃ x y, t = (x, y, tile_w problem, tile_h problem, "original")) ∧
  (length placed <= length r <= length placed + n)%nat ∧
  (length r = (length placed + n)%nat ∨ maximal_unrotated problem r).
Proof.
  revert placed occupied. induction n as [|n IH]; intros placed occupied Hex; simpl.
  - split; [apply Hex|]. split; [lia|]. left. lia.
  - destruct (find_best_bottom_left_position problem occupied)
      as [[[[x y] w] h]|] eqn:E.
    + apply find_best_bottom_left_position_Some in E as (-> & -> & _).
      destruct (IH _ _ (greedy_exact_step problem placed occupied x y Hex))
        as (Hshape & Hlen & Hmax).
      rewrite length_app in Hlen, Hmax. simpl in Hlen, Hmax.
      split; [done|]. split; [lia|].
      destruct Hmax as [Hmax|Hmax]; [left; lia|by right].
    + split; [apply Hex|]. split; [lia|]. right.
      intros x y Hx Hy Hxw Hyh.
      apply (blocked_overlaps problem placed occupied x y "original" Hex).
      unfold find_best_bottom_left_position in E.
      destruct (find _ _) as [[x' y']|] eqn:Ef; [done|].
      apply (find_none _ _ Ef (x, y)).
      apply list_elem_of_In, list_elem_of_bind. exists y.
      split; [|apply elem_of_py_range; lia].
      apply list_elem_of_bind. exists x.
      split; [by apply list_elem_of_singleton|apply elem_of_py_range; lia].
Qed.

Lemma center_out_loop_exact (problem : PackingProblem) (max_tiles : Z)
    positions placed occupied :
  0 < tile_w problem → 0 < tile_h problem →
  greedy_exact problem placed occupied →
  let r := center_out_loop problem max_tiles positions placed occupied in
  (∀ t, t ∈ r → ∃ x y, t = (x, y, tile_w problem, tile_h problem, "original")) ∧
  (∀ t, t ∈ placed → t ∈ r) ∧
  Z.of_nat (length r) <= Z.max (Z.of_nat (length placed)) max_tiles ∧
  (max_tiles <= Z.of_nat (length r) ∨
   ∀ d x y, (d, x, y) ∈ positions →
     ∃ t, t ∈ r ∧ tiles_overlap t (x, y, tile_w problem, tile_h problem, "original") = true).
Proof.
  intros Htw Hth. revert placed occupied.
  induction positions as [|[[d x] y] rest IH]; intros placed occupied Hex; simpl.
  - split; [apply Hex|]. split; [done|]. split; [lia|].
    right. intros d x y H. by apply elem_of_nil in H.
  - destruct (Z.geb_spec (Z.of_nat (length placed)) max_tiles) as [Hfull|Hroom].
    { split; [apply Hex|]. split; [done|]. split; [lia|]. left. lia. }
    destruct (can_place_at x y (tile_w problem) (tile_h problem) occupied) eqn:E.
    + destruct (IH _ _ (greedy_exact_step problem placed occupied x y Hex))
        as (Hshape & Hsub & Hlen & Hmax).
      rewrite length_app in Hlen. simpl in Hlen.
      split; [done|]. split.
      { intros t Ht. apply Hsub, elem_of_app. by left. }
      split; [lia|].
      destruct Hmax as [Hmax|Hmax]; [by left|right].
      intros d' x' y'. rewrite elem_of_cons. intros [Heq|Hin]; [|by eapply Hmax].
      simplify_eq. eexists. split.
      * apply Hsub, elem_of_app. right. by apply list_elem_of_singleton.
      * by apply tiles_overlap_self.
    + destruct (IH _ _ Hex) as (Hshape & Hsub & Hlen & Hmax).
      split; [done|]. split; [done|]. split; [done|].
      destruct Hmax as [Hmax|Hmax]; [by left|right].
      intros d' x' y'. rewrite elem_of_cons. intros [Heq|Hin]; [|by eapply Hmax].
      simplify_eq.
      destruct (blocked_overlaps problem placed occupied x y "original" Hex E)
        as (t & Ht & Hov).
      exists t. split; [by apply Hsub|done].
Qed.

Lemma center_out_candidates_complete (problem : PackingProblem) (x y : Z) :
  0 < tile_w problem → 0 < tile_h problem →
  0 <= x → 0 <= y →
  x + tile_w problem <= container_w problem →
  y + tile_h problem <= container_h problem →
  ∃ d, (d, x, y) ∈ center_out_candidates problem.
Proof.
  intros Htw Hth Hx Hy Hxw Hyh. eexists.
  unfold center_out_candidates. rewrite elem_of_sort_triples.
  apply list_elem_of_bind. exists x. split; [|apply elem_of_py_range; lia].
  apply list_elem_of_bind. exists y. split; [|apply elem_of_py_range; lia].
  apply Z.leb_le in Hxw, Hyh. rewrite Hxw, Hyh. simpl.
  by apply list_elem_of_singleton.
Qed.

(** What both greedy strategies return. *)
Lemma greedy_result (problem : PackingProblem) (ps : list TilePosition) :
  valid_problem problem →
  ps = solve_bottom_left problem ∨ ps = solve_center_out problem →
  (∀ t, t ∈ ps → ∃ x y, t = (x, y, tile_w problem, tile_h problem, "original")) ∧
  Z.of_nat (length ps) <= Z.max 0 (tile_budget problem) ∧
  (Z.of_nat (length ps) = Z.max 0 (tile_budget problem) ∨ maximal_unrotated problem ps).
Proof.
  intros Hvalid Hps.
  destruct (CoreFacts.valid_problem_dims problem Hvalid) as (Hcw & Hch & Htw & Hth & Hw & Hh).
  destruct Hps as [->| ->].
  - destruct (bottom_left_loop_exact problem (Z.to_nat (tile_budget problem)) [] ∅
                (greedy_exact_init problem)) as (Hshape & Hlen & Hmax).
    fold (solve_bottom_left problem) in Hshape, Hlen, Hmax. simpl in Hlen, Hmax.
    split; [done|]. split; [lia|].
    destruct Hmax as [Hmax|Hmax]; [left; lia|by right].
  - destruct (center_out_loop_exact problem (tile_budget problem)
                (center_out_candidates problem) [] ∅ Htw Hth (greedy_exact_init problem))
      as (Hshape & _ & Hlen & Hmax).
    fold (solve_center_out problem) in Hshape, Hlen, Hmax. simpl in Hlen.
    split; [done|]. split; [lia|].
    destruct Hmax as [Hmax|Hmax]; [left; lia|right].
    intros x y Hx Hy Hxw Hyh.
    destruct (center_out_candidates_complete problem x y Htw Hth Hx Hy Hxw Hyh) as [d Hd].
    by apply (Hmax d).
Qed.

(** X11: each greedy strategy stops only when it must: the list it
    returns has as many tiles as the budget allows, or it is maximal, in
    that an unrotated tile placed anywhere inside the container overlaps a
    tile of the list.  It never has more tiles than the budget. *)
Theorem X11_greedy_uses_the_budget_or_is_maximal
    (problem : PackingProblem) (ps : list TilePosition) :
  valid_problem problem →
  ps = solve_bottom_left problem ∨ ps = solve_center_out problem →
  Z.of_nat (length ps) <= Z.max 0 (tile_budget problem) ∧
  (Z.of_nat (length ps) = Z.max 0 (tile_budget problem) ∨ maximal_unrotated problem ps).
Proof. intros Hvalid Hps. by destruct (greedy_result problem ps Hvalid Hps) as (_ & ? & ?). Qed.

Lemma X11_greedy_uses_the_budget_or_is_maximal_witness :
  let problem := mkProblem 7 5 3 2 (Some 1) true true in
  let ps := solve_center_out problem in
  valid_problem problem ∧
  (ps = solve_bottom_left problem ∨ ps = solve_center_out problem) ∧
  Z.of_nat (length ps) <= Z.max 0 (tile_budget problem) ∧
  (Z.of_nat (length ps) = Z.max 0 (tile_budget problem) ∨ maximal_unrotated problem ps).
Proof.
  intros problem ps.
  assert (Hvalid : valid_problem problem) by reflexivity.
  assert (Hps : ps = solve_bottom_left problem ∨ ps = solve_center_out problem)
    by (right; reflexivity).
  split; [exact Hvalid|]. split; [exact Hps|].
  exact (X11_greedy_uses_the_budget_or_is_maximal problem ps Hvalid Hps).
Defined.

(** The tile count of a greedy strategy against the budget. *)
Lemma greedy_budget (problem : PackingProblem) (ps : list TilePosition) :
  valid_problem problem →
  ps = solve_bottom_left problem ∨ ps = solve_center_out problem →
  (1 <= tile_budget problem → 1 <= Z.of_nat (length ps) <= tile_budget problem) ∧
  (tile_budget problem < 1 → Z.of_nat (length ps) = 0).
Proof.
  intros Hvalid Hps.
  destruct (CoreFacts.valid_problem_dims problem Hvalid) as (Hcw & Hch & Htw & Hth & Hw & Hh).
  destruct (greedy_result problem ps Hvalid Hps) as (_ & Hle & Hmax).
  split; [|lia]. intros Hb. split; [|lia].
  destruct Hmax as [Hmax|Hmax]; [lia|].
  destruct (Hmax 0 0 ltac:(lia) ltac:(lia) ltac:(lia) ltac:(lia)) as (t & Ht & _).
  destruct ps; [by apply elem_of_nil in Ht|]. simpl. lia.
Qed.

(** X12: the solution of either greedy strategy passes
    [validate_solution] for its own problem exactly when [max_tiles] is
    absent or at least 1; an unknown strategy raises instead of returning
    a solution. *)
Theorem X12_greedy_solution_validates_unless_cap_below_one
    (problem : PackingProblem) (strategy : string) (s : PackingSolution) :
  valid_problem problem →
  greedy_solve strategy problem = inr s →
  validate_solution s problem = (true, []) ↔
  ∀ m, max_tiles problem = Some m → 1 <= m.
Proof.
  intros Hvalid Hrun.
  destruct (CoreFacts.valid_problem_dims problem Hvalid) as (Hcw & Hch & Htw & Hth & Hw & Hh).
  destruct (ValidationFacts.validate_solution_spec s problem) as [-> _].
  assert (Hs : ∃ ps name,
             (ps = solve_bottom_left problem ∨ ps = solve_center_out problem) ∧
             s = mkSolution ps (container_w problem) (container_h problem) name).
  { unfold greedy_solve in Hrun.
    destruct (String.eqb strategy "bottom_left"); [simplify_eq; eauto|].
    destruct (String.eqb strategy "center_out"); [simplify_eq; eauto|done]. }
  destruct Hs as (ps & name & Hps & ->).
  destruct (greedy_result problem ps Hvalid Hps) as (Hshape & _ & _).
  destruct (greedy_budget problem ps Hvalid Hps) as [Hpos Hneg].
  rewrite <- (cap_respected problem (Z.of_nat (length ps)) Hvalid Hpos Hneg).
  apply unrotated_solution_legal; [done..| |done].
  destruct Hps as [->| ->]; [by apply solve_bottom_left_ok|by apply solve_center_out_ok].
Qed.

Lemma X12_greedy_solution_validates_unless_cap_below_one_witness :
  let problem := mkProblem 7 5 3 2 None true true in
  let s := mkSolution (solve_bottom_left problem) 7 5 "Greedy_bottom_left" in
  valid_problem problem ∧ greedy_solve "bottom_left" problem = inr s ∧
  (validate_solution s problem = (true, []) ↔
   ∀ m, max_tiles problem = Some m → 1 <= m).
Proof.
  intros problem s.
  assert (Hvalid : valid_problem problem) by reflexivity.
  assert (Hrun : greedy_solve "bottom_left" problem = inr s) by reflexivity.
  split; [exact Hvalid|]. split; [exact Hrun|].
  exact (X12_greedy_solution_validates_unless_cap_below_one
           problem "bottom_left" s Hvalid Hrun).
Defined.

End SolverBounds.

(* ===================================================================== *)
(** ** The hybrid solver *)
(* ===================================================================== *)

Module HybridFacts.
Import Core Solvers SolverFacts.

(** Replacing the incumbent by a strictly larger valid solution keeps it
    valid and does not lower its tile count. *)
Lemma improve_keeps (problem : PackingProblem) (n : Z) (best new : PackingSolution) :
  placements_ok problem (tile_positions best) → n <= num_tiles best →
  placements_ok problem (tile_positions new) →
  let best' := if num_tiles new >? num_tiles best then new else best in
  placements_ok problem (tile_positions best') ∧ n <= num_tiles best'.
Proof.
  intros Hok Hn Hnew. simpl.
  destruct (Z.gtb_spec (num_tiles new) (num_tiles best)); split; try done; lia.
Qed.

Lemma hybrid_solve_spec (expired : nat → bool)
    (ilp_solver : option (PackingProblem → PackingSolution))
    (over70 over80 : bool) (problem : PackingProblem) :
  valid_problem problem →
  (∀ ilp_solve, ilp_solver = Some ilp_solve →
     placements_ok problem (tile_positions (ilp_solve problem))) →
  ∃ s, hybrid_solve expired ilp_solver over70 over80 problem = Some s ∧
       placements_ok problem (tile_positions s) ∧
       num_tiles (mathematical_solve problem) <= num_tiles s.
Proof.
  intros Hvalid Hilp.
  destruct (CoreFacts.valid_problem_dims problem Hvalid) as (Hcw & Hch & Htw & Hth & _ & _).
  pose proof (mathematical_solve_ok problem Htw Hth) as Hmath.
  pose proof (solve_center_out_ok problem Htw Hth) as Hgreedy.
  destruct (backtrack_solve_best_ok expired problem Hvalid) as (bt & Hbt & Hbtok).
  unfold hybrid_solve. rewrite Hbt. simpl.
  set (math := mathematical_solve problem) in *.
  set (empty := mkSolution [] (container_w problem) (container_h problem) "Hybrid").
  set (best1 := if num_tiles math >? 0 then math else empty).
  assert (H1 : placements_ok problem (tile_positions best1) ∧
               num_tiles math <= num_tiles best1).
  { unfold best1. destruct (Z.gtb_spec (num_tiles math) 0); [split; [done|lia]|].
    split; [apply placements_ok_nil|]. unfold num_tiles in *. simpl. lia. }
  destruct H1 as [Hok1 Hn1].
  destruct ((num_tiles math >? 0) && _); [eexists; split; [done|]; done|].
  set (greedy := mkSolution (solve_center_out problem) (container_w problem)
                   (container_h problem) "Greedy_center_out").
  destruct (improve_keeps problem (num_tiles math) best1 greedy Hok1 Hn1 Hgreedy)
    as [Hok2 Hn2].
  set (best2 := if num_tiles greedy >? num_tiles best1 then greedy else best1) in *.
  destruct (num_tiles best2 >=? theoretical_max_tiles problem);
    [eexists; split; [done|]; done|].
  destruct over70; [eexists; split; [done|]; done|].
  destruct (improve_keeps problem (num_tiles math) best2 bt Hok2 Hn2 Hbtok)
    as [Hok3 Hn3].
  set (best3 := if num_tiles bt >? num_tiles best2 then bt else best2) in *.
  destruct ((num_tiles bt >? num_tiles best2) && _);
    [eexists; split; [done|]; done|].
  destruct over80; [eexists; split; [done|]; done|].
  destruct ilp_solver as [ilp_solve|]; [|eexists; split; [done|]; done].
  destruct (improve_keeps problem (num_tiles math) best3 (ilp_solve problem)
              Hok3 Hn3 (Hilp ilp_solve eq_refl)) as [Hok4 Hn4].
  eexists; split; [done|]; done.
Qed.

(** X13: [HybridSolver.solve] returns, whatever the time tests and the
    deadline polls answer, a solution whose tiles lie inside the container
    and do not overlap, with at least as many tiles as the Mathematical
    solver places; the ILP tier, when present, is assumed to return valid
    placements. *)
Theorem X13_hybrid_solve_valid_and_at_least_mathematical
    (expired : nat → bool) (ilp_solver : option (PackingProblem → PackingSolution))
    (over70 over80 : bool) (problem : PackingProblem) :
  valid_problem problem →
  (∀ ilp_solve, ilp_solver = Some ilp_solve →
     placements_ok problem (tile_positions (ilp_solve problem))) →
  ∃ s, hybrid_solve expired ilp_solver over70 over80 problem = Some s ∧
       placements_ok problem (tile_positions s) ∧
       num_tiles (mathematical_solve problem) <= num_tiles s.
Proof. apply hybrid_solve_spec. Qed.

Lemma X13_hybrid_solve_valid_and_at_least_mathematical_witness :
  let problem := mkProblem 5 4 3 2 None true true in
  let expired := fun _ : nat => false in
  let ilp_solver := Some mathematical_solve in
  valid_problem problem ∧
  (∀ ilp_solve, ilp_solver = Some ilp_solve →
     placements_ok problem (tile_positions (ilp_solve problem))) ∧
  ∃ s, hybrid_solve expired ilp_solver false false problem = Some s ∧
       placements_ok problem (tile_positions s) ∧
       num_tiles (mathematical_solve problem) <= num_tiles s.
Proof.
  intros problem expired ilp_solver.
  assert (Hvalid : valid_problem problem) by reflexivity.
  assert (Hilp : ∀ ilp_solve, ilp_solver = Some ilp_solve →
             placements_ok problem (tile_positions (ilp_solve problem))).
  { intros ilp_solve Heq. inversion Heq. apply mathematical_solve_ok; simpl; lia. }
  split; [exact Hvalid|]. split; [exact Hilp|].
  exact (X13_hybrid_solve_valid_and_at_least_mathematical
           expired ilp_solver false false problem Hvalid Hilp).
Defined.

End HybridFacts.

(* ===================================================================== *)
(** ** Sorting, canonical forms and equivalence *)
(* ===================================================================== *)

Module SortFacts.
Import InsertionSort.

Section Insertion.
Context {A : Type} (le : A → A → bool).
Hypothesis le_total : ∀ a b, le a b = true ∨ le b a = true.
Hypothesis le_trans : ∀ a b c, le a b = true → le b c = true → le a c = true.

Let R (a b : A) : Prop := le a b = true.

Lemma insertion_perm (a : A) (l : list A) : insertion le a l ≡ₚ a :: l.
Proof.
  induction l as [|b l IH]; simpl; [done|].
  destruct (le a b); [done|]. rewrite IH. apply Permutation_swap.
Qed.

Lemma insertion_sort_perm (l : list A) : insertion_sort le l ≡ₚ l.
Proof.
  induction l as [|a l IH]; simpl; [done|].
  rewrite insertion_perm. by f_equiv.
Qed.

Lemma insertion_sorted (a : A) (l : list A) :
  StronglySorted R l → StronglySorted R (insertion le a l).
Proof.
  induction l as [|b l IH]; simpl; intros Hs.
  - repeat constructor.
  - apply StronglySorted_cons in Hs as [Hb Hs].
    destruct (le a b) eqn:E.
    + apply StronglySorted_cons. split; [|by apply StronglySorted_cons].
      constructor; [done|].
      eapply Forall_impl; [exact Hb|]. intros c Hc. by apply (le_trans a b c).
    + apply StronglySorted_cons. split; [|by apply IH].
      rewrite insertion_perm. constructor; [|done].
      destruct (le_total a b) as [H|H]; [congruence|done].
Qed.

Lemma insertion_sort_sorted (l : list A) : StronglySorted R (insertion_sort le l).
Proof.
  induction l as [|a l IH]; simpl; [constructor|]. by apply insertion_sorted.
Qed.

(** Sorting forgets the input order when no two distinct entries tie. *)
Lemma insertion_sort_unique (l1 l2 : list A) :
  (∀ a b, a ∈ l1 → b ∈ l1 → le a b = true → le b a = true → a = b) →
  l1 ≡ₚ l2 → insertion_sort le l1 = insertion_sort le l2.
Proof.
  intros Hanti Hperm.
  apply (StronglySorted_unique_strong R);
    [|apply insertion_sort_sorted..|by rewrite !insertion_sort_perm].
  intros a b Ha Hb. rewrite insertion_sort_perm in Ha.
  rewrite insertion_sort_perm, <- Hperm in Hb. by apply Hanti.
Qed.
End Insertion.

End SortFacts.

Module CanonicalFacts.
Import Core Symmetry Equivalence InsertionSort SortKeys.

Lemma key_le_spec (a b : Z * Z * Z * Z) :
  key_le a b = true ↔
  let '(a1, a2, a3, a4) := a in
  let '(b1, b2, b3, b4) := b in
  a1 < b1 ∨ (a1 = b1 ∧ (a2 < b2 ∨ (a2 = b2 ∧ (a3 < b3 ∨ (a3 = b3 ∧ a4 <= b4))))).
Proof.
  destruct a as [[[a1 a2] a3] a4], b as [[[b1 b2] b3] b4]. unfold key_le.
  destruct (Z.eqb_spec a1 b1), (Z.eqb_spec a2 b2), (Z.eqb_spec a3 b3); simpl;
    rewrite ?Z.ltb_lt, ?Z.leb_le; lia.
Qed.

Lemma key_le_total (a b : Z * Z * Z * Z) : key_le a b = true ∨ key_le b a = true.
Proof.
  rewrite !key_le_spec.
  destruct a as [[[a1 a2] a3] a4], b as [[[b1 b2] b3] b4]. lia.
Qed.

Lemma key_le_trans (a b c : Z * Z * Z * Z) :
  key_le a b = true → key_le b c = true → key_le a c = true.
Proof.
  rewrite !key_le_spec.
  destruct a as [[[a1 a2] a3] a4], b as [[[b1 b2] b3] b4], c as [[[c1 c2] c3] c4]. lia.
Qed.

Lemma key_le_antisym (a b : Z * Z * Z * Z) :
  key_le a b = true → key_le b a = true → a = b.
Proof.
  rewrite !key_le_spec.
  destruct a as [[[a1 a2] a3] a4], b as [[[b1 b2] b3] b4].
  intros H1 H2. repeat f_equal; lia.
Qed.

Lemma sorted_by_key_insertion (l : list TilePosition) :
  sorted_by_key l = insertion_sort tile_key_le l.
Proof.
  unfold sorted_by_key, insertion_sort. induction l as [|t l IH]; simpl; [done|].
  rewrite IH. generalize (foldr (insertion tile_key_le) [] l). intros l'.
  induction l' as [|u l' IH']; simpl; [done|]. by rewrite IH'.
Qed.

Lemma sorted_by_key_perm (l : list TilePosition) : sorted_by_key l ≡ₚ l.
Proof. rewrite sorted_by_key_insertion. apply SortFacts.insertion_sort_perm. Qed.

Lemma sorted_by_key_unique (l1 l2 : list TilePosition) :
  key_injective l1 → l1 ≡ₚ l2 → sorted_by_key l1 = sorted_by_key l2.
Proof.
  intros Hinj Hperm. rewrite !sorted_by_key_insertion.
  apply SortFacts.insertion_sort_unique; [| |  |done].
  - intros a b. apply key_le_total.
  - intros a b c. apply key_le_trans.
  - intros a b Ha Hb H1 H2. apply Hinj; [done..|]. by apply key_le_antisym.
Qed.

(** X14: [_positions_equivalent] holds only for lists that are
    permutations of one another, and, when no two distinct entries of the
    first list share position and size, for all of them. *)
Theorem X14_positions_equivalent_iff_permutation (pos1 pos2 : list TilePosition) :
  key_injective pos1 →
  positions_equivalent pos1 pos2 = true ↔ pos1 ≡ₚ pos2.
Proof.
  intros Hinj. unfold positions_equivalent. split.
  - destruct (negb _); [done|]. intros H. apply bool_decide_eq_true in H.
    by rewrite <- (sorted_by_key_perm pos1), H, sorted_by_key_perm.
  - intros Hperm. rewrite (Permutation_length Hperm), Nat.eqb_refl. simpl.
    apply bool_decide_eq_true. by apply sorted_by_key_unique.
Qed.

Lemma key_injective_two :
  key_injective [(0, 0, 3, 2, "original"); (3, 0, 3, 2, "original")].
Proof.
  intros t u Ht Hu Hk.
  repeat (apply elem_of_cons in Ht as [->|Ht]);
  repeat (apply elem_of_cons in Hu as [->|Hu]);
  try done; try (by apply elem_of_nil in Ht); by apply elem_of_nil in Hu.
Qed.

Lemma X14_positions_equivalent_iff_permutation_witness :
  let pos1 := [(0, 0, 3, 2, "original"); (3, 0, 3, 2, "original")] : list TilePosition in
  let pos2 := [(3, 0, 3, 2, "original"); (0, 0, 3, 2, "original")] : list TilePosition in
  key_injective pos1 ∧ (positions_equivalent pos1 pos2 = true ↔ pos1 ≡ₚ pos2).
Proof.
  intros pos1 pos2. split; [exact key_injective_two|].
  exact (X14_positions_equivalent_iff_permutation pos1 pos2 key_injective_two).
Defined.

(** *** The canonical form does not depend on the order of the list *)

Lemma key_injective_map (f : TilePosition → TilePosition) (l : list TilePosition) :
  key_faithful f → key_injective l → key_injective (map f l).
Proof.
  intros Hf Hinj t u Ht Hu Hk.
  apply list_elem_of_fmap in Ht as (t0 & -> & Ht0), Hu as (u0 & -> & Hu0).
  f_equal. apply Hinj; [done..|]. by apply Hf.
Qed.

Lemma sorted_map_unique (f : TilePosition → TilePosition) (l1 l2 : list TilePosition) :
  key_faithful f → key_injective l1 → l1 ≡ₚ l2 →
  sorted_by_key (map f l1) = sorted_by_key (map f l2).
Proof.
  intros Hf Hinj Hperm. apply sorted_by_key_unique.
  - by apply key_injective_map.
  - by apply Permutation_map.
Qed.

Lemma key_faithful_rot90 (cw ch : Z) : key_faithful (fun t => rotate_tile_90 t cw ch).
Proof.
  intros [[[[x1 y1] w1] h1] o1] [[[[x2 y2] w2] h2] o2].
  unfold sort_key, rotate_tile_90, rotate_point_90. simpl.
  intros H. simplify_eq. repeat f_equal; lia.
Qed.

Lemma key_faithful_rot180 (cw ch : Z) : key_faithful (fun t => rotate_tile_180 t cw ch).
Proof.
  intros [[[[x1 y1] w1] h1] o1] [[[[x2 y2] w2] h2] o2].
  unfold sort_key, rotate_tile_180, rotate_point_180. simpl.
  intros H. simplify_eq. repeat f_equal; lia.
Qed.

Lemma key_faithful_rot270 (cw ch : Z) : key_faithful (fun t => rotate_tile_270 t cw ch).
Proof.
  intros [[[[x1 y1] w1] h1] o1] [[[[x2 y2] w2] h2] o2].
  unfold sort_key, rotate_tile_270, rotate_point_270. simpl.
  intros H. simplify_eq. repeat f_equal; lia.
Qed.

Lemma key_faithful_mirror (cw : Z) :
  key_faithful (fun '(x, y, w, h, orientation) => (cw - x - w, y, w, h, orientation)).
Proof.
  intros [[[[x1 y1] w1] h1] o1] [[[[x2 y2] w2] h2] o2].
  unfold sort_key. simpl. intros H. simplify_eq. repeat f_equal; lia.
Qed.

Lemma key_faithful_mirror_after (f : TilePosition → TilePosition) (cw : Z) :
  key_faithful f →
  key_faithful (fun t => let '(x, y, w, h, orientation) := f t in
                         (cw - x - w, y, w, h, orientation)).
Proof.
  intros Hf t u H. apply Hf.
  destruct (f t) as [[[[x1 y1] w1] h1] o1], (f u) as [[[[x2 y2] w2] h2] o2].
  unfold sort_key in *. simpl in *. simplify_eq. repeat f_equal; lia.
Qed.

Lemma key_faithful_id : key_faithful (fun t => t).
Proof. intros t u H. exact H. Qed.

(** X15: the canonical form does not depend on the order in which the
    placements are listed, provided no two distinct placements share
    position and size (as in any list without overlaps). *)
Theorem X15_canonical_form_ignores_list_order
    (positions positions' : list TilePosition) (cw ch : Z) :
  key_injective positions → positions ≡ₚ positions' →
  get_canonical_form positions cw ch = get_canonical_form positions' cw ch.
Proof.
  intros Hinj Hperm. unfold get_canonical_form.
  destruct positions as [|t l] eqn:E1, positions' as [|t' l'] eqn:E2; [done| | |].
  { by apply Permutation_nil_cons in Hperm. }
  { symmetry in Hperm. by apply Permutation_nil_cons in Hperm. }
  rewrite <- E1, <- E2 in *. clear E1 E2. f_equal.
  unfold transforms, rotate_solution_90, rotate_solution_180, rotate_solution_270,
    mirror_solution_horizontal.
  cbn [map app]. rewrite !map_map.
  repeat match goal with |- _ :: _ = _ :: _ => f_equal end.
  - rewrite <- (map_id positions), <- (map_id positions').
    apply sorted_map_unique; [apply key_faithful_id|done..].
  - apply sorted_map_unique; [apply key_faithful_rot90|done..].
  - apply sorted_map_unique; [apply key_faithful_rot180|done..].
  - apply sorted_map_unique; [apply key_faithful_rot270|done..].
  - apply sorted_map_unique; [apply key_faithful_mirror|done..].
  - apply sorted_map_unique;
      [apply key_faithful_mirror_after, key_faithful_rot90|done..].
  - apply sorted_map_unique;
      [apply key_faithful_mirror_after, key_faithful_rot180|done..].
  - apply sorted_map_unique;
      [apply key_faithful_mirror_after, key_faithful_rot270|done..].
Qed.

Lemma X15_canonical_form_ignores_list_order_witness :
  let pos1 := [(0, 0, 3, 2, "original"); (3, 0, 3, 2, "original")] : list TilePosition in
  let pos2 := [(3, 0, 3, 2, "original"); (0, 0, 3, 2, "original")] : list TilePosition in
  key_injective pos1 ∧ pos1 ≡ₚ pos2 ∧
  get_canonical_form pos1 7 5 = get_canonical_form pos2 7 5.
Proof.
  intros pos1 pos2.
  assert (Hperm : pos1 ≡ₚ pos2) by apply Permutation_swap.
  split; [exact key_injective_two|]. split; [exact Hperm|].
  exact (X15_canonical_form_ignores_list_order pos1 pos2 7 5 key_injective_two Hperm).
Defined.


(** *** Deduplication and [are_solutions_equivalent] *)

Lemma min_form_elem (f : list TilePosition) (fs : list (list TilePosition)) :
  min_form (f :: fs) ∈ f :: fs.
Proof.
  simpl. revert f. induction fs as [|g fs IH]; intros f; simpl; [by left|].
  destruct (tiles_lt g f).
  - right. apply IH.
  - specialize (IH f). apply elem_of_cons in IH as [->|IH]; [by left|].
    right. by right.
Qed.

(** The canonical form has as many tiles as the list. *)
Lemma length_get_canonical_form (positions : list TilePosition) (cw ch : Z) :
  length (get_canonical_form positions cw ch) = length positions.
Proof.
  unfold get_canonical_form. destruct positions as [|t l] eqn:E; [done|].
  rewrite <- E. clear E.
  pose proof (min_form_elem (sorted_by_key positions)
    (map sorted_by_key (tail (transforms positions cw ch)))) as Hin.
  change (sorted_by_key positions :: map sorted_by_key (tail (transforms positions cw ch)))
    with (map sorted_by_key (transforms positions cw ch)) in Hin.
  apply list_elem_of_fmap in Hin as (T & -> & HT).
  rewrite (Permutation_length (sorted_by_key_perm T)).
  unfold transforms, rotate_solution_90, rotate_solution_180, rotate_solution_270,
    mirror_solution_horizontal in HT.
  cbn [map app] in HT.
  repeat (apply elem_of_cons in HT as [->|HT]; [by rewrite ?length_map|]).
  by apply elem_of_nil in HT.
Qed.

Lemma are_solutions_equivalent_spec (sol1 sol2 : PackingSolution) (cw ch : Z) :
  sol_container_w sol1 = cw → sol_container_h sol1 = ch →
  sol_container_w sol2 = cw → sol_container_h sol2 = ch →
  are_solutions_equivalent sol1 sol2 = true ↔
  get_canonical_form (tile_positions sol1) cw ch
  = get_canonical_form (tile_positions sol2) cw ch.
Proof.
  intros Hw1 Hh1 Hw2 Hh2. unfold are_solutions_equivalent.
  rewrite Hw1, Hh1, Hw2, Hh2, !Z.eqb_refl. simpl.
  destruct (Z.eqb_spec (num_tiles sol1) (num_tiles sol2)) as [Hn|Hn]; simpl.
  - apply bool_decide_eq_true.
  - split; [done|]. intros Hc. exfalso. apply Hn. unfold num_tiles. f_equal.
    by rewrite <- (length_get_canonical_form (tile_positions sol1) cw ch), Hc,
               length_get_canonical_form.
Qed.

(** Every solution is represented: its canonical form was seen before or
    is carried by a kept solution. *)
Lemma kept_covers (cw ch : Z) (l : list PackingSolution) (seen : gset (list TilePosition))
    (s : PackingSolution) :
  s ∈ l →
  get_canonical_form (tile_positions s) cw ch ∈ seen ∨
  ∃ u, u ∈ kept cw ch seen l ∧
       get_canonical_form (tile_positions u) cw ch
       = get_canonical_form (tile_positions s) cw ch.
Proof.
  revert seen. induction l as [|a l IH]; intros seen Hs; [by apply elem_of_nil in Hs|].
  simpl. apply elem_of_cons in Hs as [->|Hs].
  - case_bool_decide as Ha; [by left|]. right. exists a. split; [by left|done].
  - case_bool_decide as Ha.
    + destruct (IH seen Hs) as [H|(u & Hu & Hc)]; [by left|right; eauto].
    + destruct (IH ({[get_canonical_form (tile_positions a) cw ch]} ∪ seen) Hs)
        as [H|(u & Hu & Hc)].
      * apply elem_of_union in H as [H|H]; [|by left].
        apply elem_of_singleton in H. right. exists a. split; [by left|done].
      * right. exists u. split; [by right|done].
Qed.

(** X16: on solutions that carry the problem's container dimensions,
    [deduplicate_solutions] returns one representative per class of
    [are_solutions_equivalent]: no two returned solutions are equivalent,
    and every input solution is equivalent to a returned one. *)
Theorem X16_deduplicate_returns_one_representative_per_class
    (S : list PackingSolution) (problem : PackingProblem) :
  (∀ s, s ∈ S → sol_container_w s = container_w problem ∧
                sol_container_h s = container_h problem) →
  (∀ (i j : nat) u1 u2, i ≠ j →
     deduplicate_solutions S problem !! i = Some u1 →
     deduplicate_solutions S problem !! j = Some u2 →
     are_solutions_equivalent u1 u2 = false) ∧
  (∀ s, s ∈ S →
     ∃ u, u ∈ deduplicate_solutions S problem ∧ are_solutions_equivalent s u = true).
Proof.
  intros Hdims. rewrite SymmetryFacts.deduplicate_solutions_kept.
  set (cw := container_w problem) in *. set (ch := container_h problem) in *.
  assert (Hsub : ∀ u, u ∈ kept cw ch ∅ S → u ∈ S).
  { intros u Hu. eapply elem_of_sublist; [done|apply SymmetryFacts.kept_sublist]. }
  split.
  - intros i j u1 u2 Hij H1 H2.
    destruct (Hdims u1) as [Hw1 Hh1]; [apply Hsub; by eapply list_elem_of_lookup_2|].
    destruct (Hdims u2) as [Hw2 Hh2]; [apply Hsub; by eapply list_elem_of_lookup_2|].
    apply not_true_is_false. intros Heq.
    apply (are_solutions_equivalent_spec u1 u2 cw ch Hw1 Hh1 Hw2 Hh2) in Heq.
    apply Hij.
    apply (NoDup_lookup _ i j (get_canonical_form (tile_positions u1) cw ch)
             (SymmetryFacts.kept_NoDup cw ch S ∅)).
    + change (map ?f ?l) with (f <$> l). by rewrite list_lookup_fmap, H1.
    + change (map ?f ?l) with (f <$> l). by rewrite list_lookup_fmap, H2, Heq.
  - intros s Hs.
    destruct (kept_covers cw ch S ∅ s Hs) as [H|(u & Hu & Hc)]; [set_solver|].
    exists u. split; [done|].
    destruct (Hdims s Hs) as [Hw1 Hh1]. destruct (Hdims u (Hsub u Hu)) as [Hw2 Hh2].
    by apply (are_solutions_equivalent_spec s u cw ch Hw1 Hh1 Hw2 Hh2).
Qed.

Lemma X16_deduplicate_returns_one_representative_per_class_witness :
  let problem := mkProblem 7 5 3 2 None true true in
  let S := [mkSolution [(0, 0, 3, 2, "original")] 7 5 "Greedy";
            mkSolution [(4, 0, 3, 2, "original")] 7 5 "Backtrack"] in
  (∀ s, s ∈ S → sol_container_w s = container_w problem ∧
                sol_container_h s = container_h problem) ∧
  (∀ (i j : nat) u1 u2, i ≠ j →
     deduplicate_solutions S problem !! i = Some u1 →
     deduplicate_solutions S problem !! j = Some u2 →
     are_solutions_equivalent u1 u2 = false) ∧
  (∀ s, s ∈ S →
     ∃ u, u ∈ deduplicate_solutions S problem ∧ are_solutions_equivalent s u = true).
Proof.
  intros problem S.
  assert (Hdims : ∀ s, s ∈ S → sol_container_w s = container_w problem ∧
                                sol_container_h s = container_h problem).
  { intros s Hs. repeat (apply elem_of_cons in Hs as [->|Hs]; [done|]).
    by apply elem_of_nil in Hs. }
  split; [exact Hdims|].
  exact (X16_deduplicate_returns_one_representative_per_class S problem Hdims).
Defined.

End CanonicalFacts.

(* ===================================================================== *)
(** ** The free-rectangle manager of packing.py *)
(* ===================================================================== *)

Module PackingFacts.
Import Core FreeRects Packing PackingSpecs.

(** *** [get_valid_placements] *)

Lemma elem_of_rect_placements (tile_w tile_h : Z) (rect : Rect) (p : Placement) :
  p ∈ rect_placements tile_w tile_h rect ↔
  let '(rect_x, rect_y, rect_w, rect_h) := rect in
  let '(x, y, w, h, rotated) := p in
  ((w = tile_w ∧ h = tile_h ∧ rotated = 0) ∨
   (w = tile_h ∧ h = tile_w ∧ rotated = 1 ∧ tile_w ≠ tile_h)) ∧
  rect_x <= x ∧ x + w <= rect_x + rect_w ∧ rect_y <= y ∧ y + h <= rect_y + rect_h.
Proof.
  destruct rect as [[[rx ry] rw] rh], p as [[[[x y] w] h] r].
  unfold rect_placements. rewrite elem_of_app. split.
  - intros [H|H].
    + destruct (Z.leb_spec tile_w rw), (Z.leb_spec tile_h rh); simpl in H;
        try by apply elem_of_nil in H.
      apply list_elem_of_bind in H as (y0 & H & Hy).
      apply list_elem_of_bind in H as (x0 & H & Hx).
      apply list_elem_of_singleton in H. simplify_eq.
      apply SolverFacts.elem_of_py_range in Hx, Hy. lia.
    + destruct (Z.eqb_spec tile_w tile_h), (Z.leb_spec tile_h rw), (Z.leb_spec tile_w rh);
        simpl in H; try by apply elem_of_nil in H.
      apply list_elem_of_bind in H as (y0 & H & Hy).
      apply list_elem_of_bind in H as (x0 & H & Hx).
      apply list_elem_of_singleton in H. simplify_eq.
      apply SolverFacts.elem_of_py_range in Hx, Hy. lia.
  - intros ([(-> & -> & ->)|(-> & -> & -> & Hne)] & Hx & Hxw & Hy & Hyh).
    + left.
      destruct (Z.leb_spec tile_w rw); [|lia]. destruct (Z.leb_spec tile_h rh); [|lia].
      simpl. apply list_elem_of_bind. exists y.
      split; [|apply SolverFacts.elem_of_py_range; lia].
      apply list_elem_of_bind. exists x.
      split; [by apply list_elem_of_singleton|apply SolverFacts.elem_of_py_range; lia].
    + right.
      destruct (Z.eqb_spec tile_w tile_h); [done|].
      destruct (Z.leb_spec tile_h rw); [|lia]. destruct (Z.leb_spec tile_w rh); [|lia].
      simpl. apply list_elem_of_bind. exists y.
      split; [|apply SolverFacts.elem_of_py_range; lia].
      apply list_elem_of_bind. exists x.
      split; [by apply list_elem_of_singleton|apply SolverFacts.elem_of_py_range; lia].
Qed.

(** X17: [get_valid_placements] lists exactly the integer positions at
    which the tile, unrotated (flag 0) or, if it is not square, rotated
    (flag 1), lies inside one of the free rectangles. *)
Theorem X17_get_valid_placements_sound_and_complete
    (free_rects : list Rect) (tile_w tile_h x y w h rotated : Z) :
  (x, y, w, h, rotated) ∈ get_valid_placements free_rects tile_w tile_h ↔
  ∃ rect_x rect_y rect_w rect_h,
    (rect_x, rect_y, rect_w, rect_h) ∈ free_rects ∧
    ((w = tile_w ∧ h = tile_h ∧ rotated = 0) ∨
     (w = tile_h ∧ h = tile_w ∧ rotated = 1 ∧ tile_w ≠ tile_h)) ∧
    rect_x <= x ∧ x + w <= rect_x + rect_w ∧ rect_y <= y ∧ y + h <= rect_y + rect_h.
Proof.
  unfold get_valid_placements. rewrite list_elem_of_bind. split.
  - intros ([[[rx ry] rw] rh] & Hp & Hr).
    apply elem_of_rect_placements in Hp. exists rx, ry, rw, rh. by split.
  - intros (rx & ry & rw & rh & Hr & Hp). exists (rx, ry, rw, rh). split; [|done].
    by apply elem_of_rect_placements.
Qed.


(** *** One pass of [_merge_rectangles], as a sequence of pair merges *)

Lemma find_partner_merge_of (rect1 : Rect) (j : nat) (rest : list Rect)
    (used : gset nat) (k : nat) (m : Rect) :
  find_partner rect1 j rest used = Some (k, m) →
  ∃ rect2, rest !! (k - j)%nat = Some rect2 ∧ (j <= k)%nat ∧ (k ∉ used) ∧
           merge_of rect1 rect2 = Some m.
Proof.
  revert j. induction rest as [|r rest IH]; intros j; simpl; [done|].
  case_bool_decide as Hj.
  - intros H. destruct (IH _ H) as (r2 & Hl & Hle & Hk & Hm).
    exists r2. replace (k - j)%nat with (S (k - S j)) by lia. split; [done|].
    split; [lia|done].
  - destruct rect1 as [[[x1 y1] w1] h1], r as [[[x2 y2] w2] h2].
    destruct (can_merge_horizontally (x1, y1, w1, h1) (x2, y2, w2, h2)) eqn:Eh.
    { intros H. simplify_eq. exists (x2, y2, w2, h2).
      rewrite Nat.sub_diag. split; [done|]. split; [lia|]. split; [done|].
      unfold merge_of. by rewrite Eh. }
    destruct (can_merge_vertically (x1, y1, w1, h1) (x2, y2, w2, h2)) eqn:Ev.
    { intros H. simplify_eq. exists (x2, y2, w2, h2).
      rewrite Nat.sub_diag. split; [done|]. split; [lia|]. split; [done|].
      unfold merge_of. by rewrite Eh, Ev. }
    intros H. destruct (IH _ H) as (r2 & Hl & Hle & Hk & Hm).
    exists r2. replace (k - j)%nat with (S (k - S j)) by lia. split; [done|].
    split; [lia|done].
Qed.

Lemma pending_ext (j : nat) (l : list Rect) (used used' : gset nat) :
  (∀ n, (j <= n)%nat → n ∈ used ↔ n ∈ used') →
  pending j l used = pending j l used'.
Proof.
  revert j. induction l as [|r l IH]; intros j Hext; simpl; [done|].
  rewrite (IH (S j)) by (intros n Hn; apply Hext; lia).
  f_equal. specialize (Hext j ltac:(lia)).
  repeat case_bool_decide; tauto.
Qed.

Lemma pending_empty (j : nat) (l : list Rect) : pending j l ∅ = l.
Proof.
  revert j. induction l as [|r l IH]; intros j; simpl; [done|].
  rewrite IH. by rewrite bool_decide_eq_false_2 by set_solver.
Qed.

(** Marking an unused index of the slice removes its rectangle from the
    pending ones. *)
Lemma pending_remove (i j k : nat) (rest : list Rect) (used : gset nat) (rect2 : Rect) :
  (i < j)%nat → (j <= k)%nat → k ∉ used → rest !! (k - j)%nat = Some rect2 →
  pending j rest used ≡ₚ rect2 :: pending j rest ({[i]} ∪ {[k]} ∪ used).
Proof.
  revert j. induction rest as [|r rest IH]; intros j Hij Hjk Hk Hl; [done|].
  simpl. destruct (decide (k = j)) as [->|Hne].
  - rewrite Nat.sub_diag in Hl. simpl in Hl. simplify_eq.
    rewrite (bool_decide_eq_false_2 (j ∈ used)) by done.
    rewrite (bool_decide_eq_true_2 (j ∈ {[i]} ∪ {[j]} ∪ used)) by set_solver.
    simpl. f_equiv. rewrite (pending_ext (S j) rest used ({[i]} ∪ {[j]} ∪ used)); [done|].
    intros n Hn. rewrite !elem_of_union, !elem_of_singleton.
    split; [tauto|]. intros [[?|?]|?]; [lia|lia|done].
  - replace (k - j)%nat with (S (k - S j)) in Hl by lia. simpl in Hl.
    rewrite (IH (S j)) by first [done|lia].
    assert (j ∈ {[i]} ∪ {[k]} ∪ used ↔ j ∈ used) as Hj.
    { rewrite !elem_of_union, !elem_of_singleton.
      split; [|tauto]. intros [[?|?]|?]; [lia|lia|done]. }
    case_bool_decide as H1; case_bool_decide as H2; try tauto; simpl; [done|].
    apply Permutation_swap.
Qed.

Lemma merge_pass_from_coalesced (l : list Rect) (i : nat) nr used b nr' used' b' :
  merge_pass_from i l (nr, used, b) = (nr', used', b') →
  coalesced (nr ++ pending i l used) nr'.
Proof.
  revert i nr used b. induction l as [|r l IH]; intros i nr used b; simpl.
  - intros H. simplify_eq. rewrite app_nil_r. by apply coalesced_perm.
  - case_bool_decide as Hi; [apply IH|].
    destruct (find_partner r (S i) l used) as [[k m]|] eqn:Ef.
    + intros H. apply IH in H.
      apply find_partner_merge_of in Ef as (r2 & Hl & Hle & Hk & Hm).
      eapply coalesced_trans; [|exact H].
      eapply coalesced_trans.
      { apply coalesced_perm.
        rewrite (pending_remove i (S i) k l used r2) by first [done|lia].
        simpl. symmetry. apply Permutation_middle. }
      eapply coalesced_trans.
      { apply coalesced_perm.
        transitivity (r :: r2 :: nr ++ pending (S i) l ({[i]} ∪ {[k]} ∪ used)).
        - constructor. symmetry. apply Permutation_middle.
        - reflexivity. }
      eapply coalesced_trans; [by apply coalesced_merge|].
      apply coalesced_perm. rewrite <- app_assoc. simpl. apply Permutation_middle.
    + intros H. apply IH in H. by rewrite <- app_assoc in H.
Qed.

Lemma merge_pass_coalesced (rects new_rects : list Rect) (merged : bool) :
  merge_pass rects = (new_rects, merged) → coalesced rects new_rects.
Proof.
  unfold merge_pass.
  destruct (merge_pass_from 0 rects ([], ∅, false)) as [[nr u] b] eqn:E.
  intros H. simplify_eq. apply merge_pass_from_coalesced in E.
  by rewrite pending_empty in E.
Qed.

Lemma merge_rectangles_coalesced (fuel : nat) (rects out : list Rect) :
  merge_rectangles fuel rects = Some out → coalesced rects out.
Proof.
  revert rects. induction fuel as [|fuel IH]; intros rects; simpl; [done|].
  destruct (merge_pass rects) as [nr b] eqn:E.
  apply merge_pass_coalesced in E. destruct b.
  - intros H. eapply coalesced_trans; [exact E|]. by apply IH.
  - intros H. by simplify_eq.
Qed.


(** *** What a merge keeps *)

Lemma multiplicity_cons (r : Rect) (l : list Rect) (px py : Z) :
  multiplicity (r :: l) px py
  = ((if bool_decide (in_box r px py) then 1 else 0) + multiplicity l px py)%nat.
Proof.
  unfold multiplicity. rewrite filter_cons.
  case_decide; case_bool_decide; done.
Qed.

Lemma multiplicity_app (l1 l2 : list Rect) (px py : Z) :
  multiplicity (l1 ++ l2) px py = (multiplicity l1 px py + multiplicity l2 px py)%nat.
Proof. unfold multiplicity. by rewrite filter_app, length_app. Qed.

Lemma multiplicity_perm (l l' : list Rect) (px py : Z) :
  l ≡ₚ l' → multiplicity l px py = multiplicity l' px py.
Proof. intros H. unfold multiplicity. by rewrite H. Qed.

Lemma free_at_multiplicity (l : list Rect) (px py : Z) :
  free_at l px py ↔ (1 <= multiplicity l px py)%nat.
Proof.
  unfold free_at. induction l as [|r l IH].
  - split; [intros (r & Hr & _); by apply elem_of_nil in Hr|]. unfold multiplicity. simpl. lia.
  - rewrite multiplicity_cons. split.
    + intros (r' & Hr' & Hin). apply elem_of_cons in Hr' as [->|Hr'].
      * rewrite bool_decide_eq_true_2 by done. lia.
      * assert (1 <= multiplicity l px py)%nat by (apply IH; eauto). lia.
    + case_bool_decide as Hr.
      * intros _. exists r. split; [by left|done].
      * intros H. destruct (proj2 IH ltac:(lia)) as (r' & Hr' & Hin).
        exists r'. split; [by right|done].
Qed.

Lemma total_area_cons (r : Rect) (l : list Rect) :
  get_total_free_area (r :: l) = rect_area r + get_total_free_area l.
Proof. done. Qed.

Lemma total_area_app (l1 l2 : list Rect) :
  get_total_free_area (l1 ++ l2) = get_total_free_area l1 + get_total_free_area l2.
Proof.
  induction l1 as [|r l1 IH]; [done|].
  change ((r :: l1) ++ l2) with (r :: (l1 ++ l2)). rewrite !total_area_cons, IH. lia.
Qed.

Lemma total_area_perm (l l' : list Rect) :
  l ≡ₚ l' → get_total_free_area l = get_total_free_area l'.
Proof.
  induction 1 as [|r l l' _ IH|r1 r2 l|l1 l2 l3 _ IH1 _ IH2]; [done| | |congruence].
  - by rewrite !total_area_cons, IH.
  - rewrite !total_area_cons. lia.
Qed.

(** The merged rectangle has the area of the pair; for rectangles of
    positive size it is positive, covers what the pair covers, and the
    pair has no common point. *)
Lemma merge_of_spec (r1 r2 m : Rect) :
  merge_of r1 r2 = Some m →
  rect_area m = rect_area r1 + rect_area r2 ∧
  (positive_rect r1 → positive_rect r2 →
   positive_rect m ∧
   ∀ px py, (in_box m px py ↔ in_box r1 px py ∨ in_box r2 px py) ∧
            ¬ (in_box r1 px py ∧ in_box r2 px py)).
Proof.
  destruct r1 as [[[x1 y1] w1] h1], r2 as [[[x2 y2] w2] h2]. unfold merge_of.
  destruct (can_merge_horizontally _ _) eqn:Eh.
  - intros H. simplify_eq. unfold can_merge_horizontally in Eh.
    apply andb_true_iff in Eh as [Eh Hadj]. apply andb_true_iff in Eh as [Hy Hh].
    apply Z.eqb_eq in Hy, Hh. subst.
    apply orb_true_iff in Hadj. rewrite !Z.eqb_eq in Hadj. simpl.
    split; [lia|]. intros [Hw1 Hh1] [Hw2 Hh2]. split; [lia|]. intros px py. lia.
  - destruct (can_merge_vertically _ _) eqn:Ev; [|done].
    intros H. simplify_eq. unfold can_merge_vertically in Ev.
    apply andb_true_iff in Ev as [Ev Hadj]. apply andb_true_iff in Ev as [Hx Hw].
    apply Z.eqb_eq in Hx, Hw. subst.
    apply orb_true_iff in Hadj. rewrite !Z.eqb_eq in Hadj. simpl.
    split; [lia|]. intros [Hw1 Hh1] [Hw2 Hh2]. split; [lia|]. intros px py. lia.
Qed.

Lemma coalesced_area (l l' : list Rect) :
  coalesced l l' → get_total_free_area l' = get_total_free_area l.
Proof.
  induction 1 as [l l' Hp|r1 r2 m rest Hm|l1 l2 l3 _ IH1 _ IH2].
  - symmetry. by apply total_area_perm.
  - rewrite !total_area_cons. destruct (merge_of_spec r1 r2 m Hm) as [-> _]. lia.
  - congruence.
Qed.

Lemma coalesced_points (l l' : list Rect) :
  coalesced l l' → Forall positive_rect l →
  Forall positive_rect l' ∧
  ∀ px py, multiplicity l' px py = multiplicity l px py.
Proof.
  induction 1 as [l l' Hp|r1 r2 m rest Hm|l1 l2 l3 _ IH1 _ IH2]; intros Hpos.
  - split; [by rewrite <- Hp|]. intros px py. symmetry. by apply multiplicity_perm.
  - apply Forall_cons in Hpos as [Hp1 Hpos]. apply Forall_cons in Hpos as [Hp2 Hpos].
    destruct (merge_of_spec r1 r2 m Hm) as [_ Hspec].
    destruct (Hspec Hp1 Hp2) as [Hpm Hpts].
    split; [by constructor|]. intros px py. rewrite !multiplicity_cons.
    destruct (Hpts px py) as [Hiff Hdisj].
    repeat case_bool_decide; tauto || lia.
  - destruct (IH1 Hpos) as [Hpos2 Hm1]. destruct (IH2 Hpos2) as [Hpos3 Hm2].
    split; [done|]. intros px py. by rewrite Hm2, Hm1.
Qed.

(** X18: [_merge_rectangles] returns, and changes neither the total free
    area nor, for rectangles of positive size, the number of free
    rectangles that contain any given point: the free points stay the same
    and rectangles that did not overlap still do not. *)
Theorem X18_merge_keeps_area_and_free_points (fuel : nat) (rects : list Rect) :
  Forall positive_rect rects → (length rects < fuel)%nat →
  ∃ out, merge_rectangles fuel rects = Some out ∧
         get_total_free_area out = get_total_free_area rects ∧
         Forall positive_rect out ∧
         ∀ px py, multiplicity out px py = multiplicity rects px py.
Proof.
  intros Hpos Hfuel.
  destruct (FreeRectsFacts.merge_rectangles_total fuel rects Hfuel) as (out & Hrun & _).
  exists out. split; [done|].
  pose proof (merge_rectangles_coalesced fuel rects out Hrun) as Hco.
  split; [by apply coalesced_area|]. by apply coalesced_points.
Qed.

Lemma X18_merge_keeps_area_and_free_points_witness :
  let rects := [(0, 0, 2, 3); (2, 0, 4, 3); (0, 3, 6, 1)] : list Rect in
  Forall positive_rect rects ∧ (length rects < 4)%nat ∧
  ∃ out, merge_rectangles 4 rects = Some out ∧
         get_total_free_area out = get_total_free_area rects ∧
         Forall positive_rect out ∧
         ∀ px py, multiplicity out px py = multiplicity rects px py.
Proof.
  intros rects.
  assert (Hpos : Forall positive_rect rects) by (repeat constructor; simpl; lia).
  assert (Hfuel : (length rects < 4)%nat) by (simpl; lia).
  split; [exact Hpos|]. split; [exact Hfuel|].
  exact (X18_merge_keeps_area_and_free_points 4 rects Hpos Hfuel).
Defined.


(** *** [place_tile] *)

Lemma intersects_spec (x y w h : Z) (rect : Rect) :
  intersects x y w h rect = true ↔
  let '(rect_x, rect_y, rect_w, rect_h) := rect in
  rect_x < x + w ∧ x < rect_x + rect_w ∧ rect_y < y + h ∧ y < rect_y + rect_h.
Proof.
  destruct rect as [[[rx ry] rw] rh]. unfold intersects.
  rewrite !andb_true_iff, !Z.gtb_ltb, !Z.ltb_lt. tauto.
Qed.

(** The pieces of one split: positive, of the area of the rectangle minus
    that of the part the tile covers, and containing exactly the points of
    the rectangle outside the tile, each once. *)
Lemma split_rect_spec (x y w h : Z) (rect : Rect) :
  positive_rect rect → 0 < w → 0 < h →
  Forall positive_rect (split_rect x y w h rect) ∧
  get_total_free_area (split_rect x y w h rect)
  = rect_area rect - overlap_area x y w h rect ∧
  ∀ px py, multiplicity (split_rect x y w h rect) px py
           = if bool_decide (in_box rect px py ∧ ¬ in_tile x y w h px py)
             then 1%nat else 0%nat.
Proof.
  intros Hpos Hw Hh.
  pose proof (intersects_spec x y w h rect) as Hint.
  destruct rect as [[[rx ry] rw] rh]. destruct Hpos as [Hrw Hrh].
  unfold split_rect. destruct (intersects x y w h (rx, ry, rw, rh)).
  - destruct (proj1 Hint eq_refl) as (H1 & H2 & H3 & H4). clear Hint.
    split; [|split].
    + repeat (apply Forall_app; split);
        (case_match; [apply Forall_singleton; simpl; lia|constructor]).
    + rewrite !total_area_app. unfold overlap_area.
      destruct (Z.ltb_spec rx x), (Z.gtb_spec (rx + rw) (x + w)),
               (Z.ltb_spec ry y), (Z.gtb_spec (ry + rh) (y + h));
        unfold get_total_free_area; simpl; nia.
    + intros px py. rewrite !multiplicity_app. unfold in_tile.
      destruct (Z.ltb_spec rx x), (Z.gtb_spec (rx + rw) (x + w)),
               (Z.ltb_spec ry y), (Z.gtb_spec (ry + rh) (y + h));
        rewrite ?multiplicity_cons; unfold multiplicity; simpl;
        repeat case_bool_decide; simpl in *; lia.
  - assert (Hno : ¬ (rx < x + w ∧ x < rx + rw ∧ ry < y + h ∧ y < ry + rh)).
    { intros H. by apply Hint in H. }
    clear Hint. split; [|split].
    + apply Forall_singleton. done.
    + unfold get_total_free_area, overlap_area. simpl. nia.
    + intros px py. rewrite multiplicity_cons. unfold multiplicity, in_tile. simpl.
      repeat case_bool_decide; simpl in *; lia.
Qed.


Lemma length_split_rect (x y w h : Z) (rect : Rect) :
  (length (split_rect x y w h rect) <= 4)%nat.
Proof.
  destruct rect as [[[rx ry] rw] rh]. unfold split_rect.
  destruct (intersects _ _ _ _ _); [|simpl; lia].
  rewrite !length_app. repeat case_match; simpl; lia.
Qed.

(** All the splits of [place_tile], before the merge. *)
Lemma split_all_spec (x y w h : Z) (rects : list Rect) :
  Forall positive_rect rects → 0 < w → 0 < h →
  Forall positive_rect (rects ≫= split_rect x y w h) ∧
  get_total_free_area (rects ≫= split_rect x y w h)
  = get_total_free_area rects - total_overlap x y w h rects ∧
  (length (rects ≫= split_rect x y w h) <= 4 * length rects)%nat ∧
  ∀ px py, multiplicity (rects ≫= split_rect x y w h) px py
           = if bool_decide (in_tile x y w h px py) then 0%nat
             else multiplicity rects px py.
Proof.
  intros Hpos Hw Hh. induction rects as [|r rects IH].
  - split; [constructor|]. split; [done|]. split; [simpl; lia|].
    intros px py. by case_bool_decide.
  - apply Forall_cons in Hpos as [Hr Hpos].
    destruct (IH Hpos) as (IH1 & IH2 & IH3 & IH4).
    destruct (split_rect_spec x y w h r Hr Hw Hh) as (S1 & S2 & S3).
    rewrite bind_cons. split; [by apply Forall_app|].
    split; [|split].
    + rewrite total_area_app, S2, IH2, total_area_cons. unfold total_overlap. simpl. lia.
    + rewrite length_app. pose proof (length_split_rect x y w h r). simpl. lia.
    + intros px py. rewrite multiplicity_app, S3, IH4, multiplicity_cons.
      repeat case_bool_decide; tauto || lia.
Qed.

(** X19: [place_tile] returns; afterwards a point is free exactly when
    it was free and lies outside the tile, it lies in as many free
    rectangles as before, every free rectangle has positive size, and the
    total free area has gone down by what the tile covered of each free
    rectangle. *)
Theorem X19_place_tile_frees_nothing_and_removes_the_tile
    (fuel : nat) (x y w h : Z) (rects : list Rect) :
  Forall positive_rect rects → 0 < w → 0 < h → (4 * length rects < fuel)%nat →
  ∃ out, place_tile fuel x y w h rects = Some out ∧
         Forall positive_rect out ∧
         get_total_free_area out
         = get_total_free_area rects - total_overlap x y w h rects ∧
         (∀ px py, multiplicity out px py
                   = if bool_decide (in_tile x y w h px py) then 0%nat
                     else multiplicity rects px py) ∧
         (∀ px py, free_at out px py ↔
                   free_at rects px py ∧ ¬ in_tile x y w h px py).
Proof.
  intros Hpos Hw Hh Hfuel.
  destruct (split_all_spec x y w h rects Hpos Hw Hh) as (S1 & S2 & S3 & S4).
  destruct (FreeRectsFacts.merge_rectangles_total fuel (rects ≫= split_rect x y w h)
              ltac:(lia)) as (out & Hrun & _).
  exists out. split; [exact Hrun|].
  pose proof (merge_rectangles_coalesced _ _ _ Hrun) as Hco.
  destruct (coalesced_points _ _ Hco S1) as [Hpos' Hmult].
  split; [done|]. split; [by rewrite (coalesced_area _ _ Hco)|].
  assert (Hm : ∀ px py, multiplicity out px py
                 = if bool_decide (in_tile x y w h px py) then 0%nat
                   else multiplicity rects px py).
  { intros px py. by rewrite Hmult, S4. }
  split; [exact Hm|].
  intros px py. rewrite !free_at_multiplicity, Hm.
  case_bool_decide; [split; [lia|tauto]|tauto].
Qed.

Lemma X19_place_tile_frees_nothing_and_removes_the_tile_witness :
  let rects := new_manager 6 4 in
  Forall positive_rect rects ∧ 0 < 3 ∧ 0 < 2 ∧ (4 * length rects < 5)%nat ∧
  ∃ out, place_tile 5 0 0 3 2 rects = Some out ∧
         Forall positive_rect out ∧
         get_total_free_area out
         = get_total_free_area rects - total_overlap 0 0 3 2 rects ∧
         (∀ px py, multiplicity out px py
                   = if bool_decide (in_tile 0 0 3 2 px py) then 0%nat
                     else multiplicity rects px py) ∧
         (∀ px py, free_at out px py ↔
                   free_at rects px py ∧ ¬ in_tile 0 0 3 2 px py).
Proof.
  intros rects.
  assert (Hpos : Forall positive_rect rects) by (repeat constructor; simpl; lia).
  assert (Hw : 0 < 3) by lia. assert (Hh : 0 < 2) by lia.
  assert (Hfuel : (4 * length rects < 5)%nat) by (simpl; lia).
  split; [exact Hpos|]. split; [exact Hw|]. split; [exact Hh|]. split; [exact Hfuel|].
  exact (X19_place_tile_frees_nothing_and_removes_the_tile 5 0 0 3 2 rects
           Hpos Hw Hh Hfuel).
Defined.

(** *** Placements taken from [get_valid_placements] *)

Lemma total_overlap_perm (x y w h : Z) (l l' : list Rect) :
  l ≡ₚ l' → total_overlap x y w h l = total_overlap x y w h l'.
Proof.
  unfold total_overlap.
  induction 1 as [|r l l' _ IH|r1 r2 l|l1 l2 l3 _ IH1 _ IH2]; simpl; [done| | |congruence].
  - by rewrite IH.
  - lia.
Qed.

(** A tile inside one rectangle of a list of pairwise disjoint rectangles
    takes its whole area from that rectangle. *)
Lemma total_overlap_inside (x y w h : Z) (rects : list Rect) (rect : Rect) :
  Forall positive_rect rects → disjoint_rects rects → 0 < w → 0 < h →
  rect ∈ rects →
  (let '(rect_x, rect_y, rect_w, rect_h) := rect in
   rect_x <= x ∧ x + w <= rect_x + rect_w ∧ rect_y <= y ∧ y + h <= rect_y + rect_h) →
  total_overlap x y w h rects = w * h.
Proof.
  intros Hpos Hdisj Hw Hh Hin Hinside.
  apply elem_of_Permutation in Hin as [rest Hperm].
  rewrite (total_overlap_perm x y w h _ _ Hperm).
  assert (Hrest : total_overlap x y w h rest = 0).
  { assert (Hall : ∀ r, r ∈ rest → overlap_area x y w h r = 0).
    { intros [[[rx ry] rw] rh] Hr. unfold overlap_area.
      destruct (decide (Z.min (rx + rw) (x + w) - Z.max rx x <= 0)) as [|Hx]; [nia|].
      destruct (decide (Z.min (ry + rh) (y + h) - Z.max ry y <= 0)) as [|Hy]; [nia|].
      exfalso.
      specialize (Hdisj (Z.max rx x) (Z.max ry y)).
      rewrite (multiplicity_perm _ _ _ _ Hperm), multiplicity_cons in Hdisj.
      assert (1 <= multiplicity rest (Z.max rx x) (Z.max ry y))%nat.
      { apply free_at_multiplicity. exists (rx, ry, rw, rh). split; [done|]. simpl. lia. }
      rewrite bool_decide_eq_true_2 in Hdisj; [lia|].
      destruct rect as [[[x0 y0] w0] h0]. simpl. lia. }
    clear -Hall. unfold total_overlap. induction rest as [|r rest IH]; [done|].
    simpl. rewrite (Hall r) by (by left). rewrite IH; [done|].
    intros r' Hr'. apply Hall. by right. }
  unfold total_overlap in *. simpl. rewrite Hrest.
  destruct rect as [[[x0 y0] w0] h0]. unfold overlap_area. nia.
Qed.

(** X20: the manager keeps a partition of the free space.  When the free
    rectangles have positive size and no point lies in two of them,
    placing a tile at a position that [get_valid_placements] offers
    returns free rectangles with the same two properties, whose points are
    the former free points outside the tile, and whose total area is the
    former one minus the area of the tile. *)
Theorem X20_placing_a_valid_placement_keeps_the_partition
    (fuel : nat) (rects : list Rect) (tile_w tile_h x y w h rotated : Z) :
  Forall positive_rect rects → disjoint_rects rects →
  0 < tile_w → 0 < tile_h →
  (x, y, w, h, rotated) ∈ get_valid_placements rects tile_w tile_h →
  (4 * length rects < fuel)%nat →
  ∃ out, place_tile fuel x y w h rects = Some out ∧
         Forall positive_rect out ∧ disjoint_rects out ∧
         get_total_free_area out = get_total_free_area rects - w * h ∧
         (∀ px py, free_at out px py ↔
                   free_at rects px py ∧ ¬ in_tile x y w h px py).
Proof.
  intros Hpos Hdisj Htw Hth Hplace Hfuel.
  unfold get_valid_placements in Hplace.
  apply list_elem_of_bind in Hplace as (rect & Hp & Hrect).
  apply elem_of_rect_placements in Hp.
  assert (Hwh : 0 < w ∧ 0 < h).
  { destruct rect as [[[rx ry] rw] rh]. lia. }
  destruct Hwh as [Hw Hh].
  assert (Hinside : let '(rect_x, rect_y, rect_w, rect_h) := rect in
            rect_x <= x ∧ x + w <= rect_x + rect_w ∧
            rect_y <= y ∧ y + h <= rect_y + rect_h).
  { destruct rect as [[[rx ry] rw] rh]. lia. }
  destruct (split_all_spec x y w h rects Hpos Hw Hh) as (S1 & S2 & S3 & S4).
  destruct (FreeRectsFacts.merge_rectangles_total fuel (rects ≫= split_rect x y w h)
              ltac:(lia)) as (out & Hrun & _).
  exists out. split; [exact Hrun|].
  pose proof (merge_rectangles_coalesced _ _ _ Hrun) as Hco.
  destruct (coalesced_points _ _ Hco S1) as [Hpos' Hmult].
  assert (Hm : ∀ px py, multiplicity out px py
                 = if bool_decide (in_tile x y w h px py) then 0%nat
                   else multiplicity rects px py).
  { intros px py. by rewrite Hmult, S4. }
  split; [done|]. split; [|split].
  - intros px py. rewrite Hm. specialize (Hdisj px py). case_bool_decide; lia.
  - rewrite (coalesced_area _ _ Hco), S2.
    by rewrite (total_overlap_inside x y w h rects rect).
  - intros px py. rewrite !free_at_multiplicity, Hm.
    case_bool_decide; [split; [lia|tauto]|tauto].
Qed.

Lemma X20_placing_a_valid_placement_keeps_the_partition_witness :
  let rects := new_manager 6 4 in
  Forall positive_rect rects ∧ disjoint_rects rects ∧ 0 < 3 ∧ 0 < 2 ∧
  (1, 1, 2, 3, 1) ∈ get_valid_placements rects 3 2 ∧ (4 * length rects < 5)%nat ∧
  ∃ out, place_tile 5 1 1 2 3 rects = Some out ∧
         Forall positive_rect out ∧ disjoint_rects out ∧
         get_total_free_area out = get_total_free_area rects - 2 * 3 ∧
         (∀ px py, free_at out px py ↔
                   free_at rects px py ∧ ¬ in_tile 1 1 2 3 px py).
Proof.
  intros rects.
  assert (Hpos : Forall positive_rect rects) by (repeat constructor; simpl; lia).
  assert (Hdisj : disjoint_rects rects).
  { intros px py. unfold rects, new_manager. rewrite multiplicity_cons.
    unfold multiplicity. simpl. case_bool_decide; lia. }
  assert (Htw : 0 < 3) by lia. assert (Hth : 0 < 2) by lia.
  assert (Hplace : (1, 1, 2, 3, 1) ∈ get_valid_placements rects 3 2).
  { vm_compute. apply list_elem_of_In. repeat (try (left; reflexivity); right). }
  assert (Hfuel : (4 * length rects < 5)%nat) by (simpl; lia).
  split; [exact Hpos|]. split; [exact Hdisj|]. split; [exact Htw|]. split; [exact Hth|].
  split; [exact Hplace|]. split; [exact Hfuel|].
  exact (X20_placing_a_valid_placement_keeps_the_partition 5 rects 3 2 1 1 2 3 1
           Hpos Hdisj Htw Hth Hplace Hfuel).
Defined.

End PackingFacts.

(* ===================================================================== *)
(** ** Backtracking: what is read off the grid, and what is recorded *)
(* ===================================================================== *)

Module BacktrackFacts.
Import Core Solvers SolverFacts BacktrackSpecs.

Section ExactExtraction.
Variables (H W : nat) (g : Grid) (rects : list Footprint) (problem : PackingProblem).
Hypothesis Hinv : grid_inv H W g rects.
Hypothesis HH : (0 < H)%nat.

(** The state of the extraction loop on reaching (r, c): every entry is
    the placement of the footprint its label numbers, and the label of
    every visited cell has an entry. *)
Let Inv (r c : nat) (tiles : gmap Z TilePosition) : Prop :=
  (∀ id t, tiles !! id = Some t →
     ∃ k ft, id = Z.of_nat (S k) ∧ rects !! k = Some ft ∧ t = tile_of problem ft) ∧
  (∀ i j, (i < H)%nat → (j < W)%nat → scanned_before r c i j →
     cell g i j ≠ 0 → cell g i j ∈ dom tiles).

Lemma extract_step_exact (tiles : gmap Z TilePosition) (r c : nat) :
  (r < H)%nat → (c < W)%nat →
  Inv r c tiles → Inv r (S c) (extract_step g problem tiles (r, c)).
Proof.
  intros Hr Hc [Hexact Hseen]. unfold extract_step.
  destruct (negb (cell g r c =? 0) && negb (bool_decide (cell g r c ∈ dom tiles))) eqn:E.
  - apply andb_true_iff in E as [E1 E2].
    apply negb_true_iff, Z.eqb_neq in E1.
    apply negb_true_iff, bool_decide_eq_false in E2.
    destruct (labelled_cell H W g rects Hinv r c Hr Hc E1)
      as (k & [[[r0 c0] h0] w0] & Hk & [Hir Hic] & Hlab).
    pose proof (gi_bounds H W g rects Hinv k r0 c0 h0 w0 Hk) as (Hh0 & Hw0 & Hrb & Hcb).
    pose proof (shaped_width H W g (gi_shaped _ _ _ _ Hinv) HH) as Hwidth.
    pose proof (proj1 (gi_shaped _ _ _ _ Hinv)) as Hheight.
    (* the cell is the corner of its footprint *)
    assert (Hcorner : r0 = r ∧ c0 = c).
    { destruct (decide (scanned_before r c r0 c0)) as [Hsc|Hsc].
      - exfalso. apply E2. rewrite Hlab.
        rewrite <- (gi_owned H W g rects Hinv k _ r0 c0 Hk ltac:(simpl; lia)).
        apply Hseen; [lia|lia|done|].
        rewrite (gi_owned H W g rects Hinv k _ r0 c0 Hk ltac:(simpl; lia)). lia.
      - unfold scanned_before in Hsc. lia. }
    destruct Hcorner as [-> ->].
    destruct (grow_w_spec g r c (cell g r c) (width g) 1) as (Hw1 & Hwb & Hwc).
    destruct (grow_h_spec g r c (cell g r c) (length g) 1) as (Hh1 & Hhb & Hhc).
    pose proof (grow_w_exit g r c (cell g r c) (width g) 1 ltac:(lia)) as Hwx.
    pose proof (grow_h_exit g r c (cell g r c) (length g) 1 ltac:(lia)) as Hhx.
    cbv zeta in Hwx, Hhx.
    set (w := grow_w (width g) g r c (cell g r c) 1) in *.
    set (h := grow_h (length g) g r c (cell g r c) 1) in *.
    specialize (Hwb ltac:(lia)). specialize (Hhb ltac:(lia)).
    assert (Hw : w = w0).
    { assert (w <= w0)%nat.
      { destruct (decide (w = 1%nat)) as [->|Hne]; [lia|].
        specialize (Hwc (w - 1)%nat ltac:(lia)).
        destruct (labelled_cell H W g rects Hinv r (c + (w - 1)) Hr ltac:(lia)
                    ltac:(congruence))
          as (k' & [[[r1 c1] h1] w1] & Hk' & [_ Hjc] & Hlab').
        assert (k' = k) by lia. simplify_eq. lia. }
      destruct (decide (w = w0)) as [|Hne]; [done|]. exfalso.
      apply andb_false_iff in Hwx as [Hwx|Hwx].
      - apply Nat.ltb_ge in Hwx. lia.
      - apply Z.eqb_neq in Hwx. apply Hwx.
        rewrite Hlab. apply (gi_owned H W g rects Hinv k _ r (c + w) Hk). simpl. lia. }
    assert (Hh : h = h0).
    { assert (h <= h0)%nat.
      { destruct (decide (h = 1%nat)) as [->|Hne]; [lia|].
        specialize (Hhc (h - 1)%nat ltac:(lia)).
        destruct (labelled_cell H W g rects Hinv (r + (h - 1)) c ltac:(lia) Hc
                    ltac:(congruence))
          as (k' & [[[r1 c1] h1] w1] & Hk' & [Hjr _] & Hlab').
        assert (k' = k) by lia. simplify_eq. lia. }
      destruct (decide (h = h0)) as [|Hne]; [done|]. exfalso.
      apply andb_false_iff in Hhx as [Hhx|Hhx].
      - apply Nat.ltb_ge in Hhx. lia.
      - apply Z.eqb_neq in Hhx. apply Hhx.
        rewrite Hlab. apply (gi_owned H W g rects Hinv k _ (r + h) c Hk). simpl. lia. }
    rewrite Hw, Hh. split.
    + intros id t. rewrite lookup_insert. case_decide as Hid; [|apply Hexact].
      intros Ht. exists k, (r, c, h0, w0).
      split; [congruence|]. split; [exact Hk|]. by injection Ht as <-.
    + intros i j Hi Hj Hsc Hne. rewrite dom_insert, elem_of_union.
      destruct (decide ((i, j) = (r, c))) as [Heq|Hneq].
      * simplify_eq. left. by apply elem_of_singleton.
      * right. apply Hseen; [done..| |done].
        unfold scanned_before in *. destruct (decide (j = c)); [|lia].
        subst. destruct Hsc as [?|[? ?]]; [lia|]. subst. done.
  - split; [done|]. intros i j Hi Hj Hsc Hne.
    destruct (decide ((i, j) = (r, c))) as [Heq|Hneq].
    + simplify_eq. apply andb_false_iff in E as [E|E].
      * apply negb_false_iff, Z.eqb_eq in E. done.
      * by apply negb_false_iff, bool_decide_eq_true in E.
    + apply Hseen; [done..| |done].
      unfold scanned_before in *. destruct (decide (j = c)); [|lia].
      subst. destruct Hsc as [?|[? ?]]; [lia|]. subst. done.
Qed.

Lemma extract_row_exact (r : nat) (n c : nat) (tiles : gmap Z TilePosition) :
  (r < H)%nat → (c + n <= W)%nat → Inv r c tiles →
  Inv r (c + n) (foldl (extract_step g problem) tiles
                   (seq c n ≫= fun col => [(r, col)])).
Proof.
  intros Hr. revert c tiles. induction n as [|n IH]; intros c tiles Hc HI.
  - by rewrite Nat.add_0_r.
  - simpl seq. rewrite bind_cons, foldl_app. simpl foldl at 2.
    replace (c + S n)%nat with (S c + n)%nat by lia.
    apply IH; [lia|]. apply extract_step_exact; [done|lia|done].
Qed.

Lemma extract_rows_exact (n r : nat) (tiles : gmap Z TilePosition) :
  (r + n <= H)%nat → Inv r 0 tiles →
  Inv (r + n) 0 (foldl (extract_step g problem) tiles
                   (seq r n ≫= fun row => seq 0 W ≫= fun col => [(row, col)])).
Proof.
  revert r tiles. induction n as [|n IH]; intros r tiles Hr HI.
  - by rewrite Nat.add_0_r.
  - simpl seq. rewrite bind_cons, foldl_app.
    replace (r + S n)%nat with (S r + n)%nat by lia.
    apply IH; [lia|].
    pose proof (extract_row_exact r W 0 tiles ltac:(lia) ltac:(lia) HI) as [Hex Hseen].
    split; [exact Hex|]. intros i j Hi Hj Hsc. apply Hseen; [done..|].
    unfold scanned_before in *. lia.
Qed.

(** The dictionary built by [_extract_solution] maps label k + 1 to the
    placement of the k-th footprint, and has no other entry. *)
Lemma extract_tiles_exact :
  (∀ id t, extract_tiles g problem !! id = Some t →
     ∃ k ft, id = Z.of_nat (S k) ∧ rects !! k = Some ft ∧ t = tile_of problem ft) ∧
  (∀ k ft, rects !! k = Some ft →
     extract_tiles g problem !! Z.of_nat (S k) = Some (tile_of problem ft)).
Proof.
  assert (HI : Inv H 0 (extract_tiles g problem)).
  { unfold extract_tiles, grid_cells.
    rewrite (shaped_width H W g (gi_shaped _ _ _ _ Hinv) HH),
            (proj1 (gi_shaped _ _ _ _ Hinv)).
    apply (extract_rows_exact H 0 ∅); [lia|].
    split; [intros id t Ht; by rewrite lookup_empty in Ht|].
    intros i j _ _ Hsc. unfold scanned_before in Hsc. lia. }
  destruct HI as [Hexact Hseen]. split; [exact Hexact|].
  intros k [[[r c] h] w] Hk.
  pose proof (gi_bounds H W g rects Hinv k r c h w Hk) as (Hh & Hw & Hr & Hc).
  pose proof (gi_owned H W g rects Hinv k _ r c Hk ltac:(simpl; lia)) as Hown.
  assert (Hdom : cell g r c ∈ dom (extract_tiles g problem)).
  { apply Hseen; [lia|lia| |lia]. unfold scanned_before. lia. }
  rewrite Hown in Hdom. apply elem_of_dom in Hdom as [t Ht].
  destruct (Hexact _ _ Ht) as (k' & ft & Hid & Hk' & ->).
  assert (k' = k) by lia. by simplify_eq.
Qed.
End ExactExtraction.


Lemma StronglySorted_labels (a n : nat) :
  StronglySorted Z.le ((fun k => Z.of_nat (S k)) <$> seq a n).
Proof.
  revert a. induction n as [|n IH]; intros a; simpl; [constructor|].
  constructor; [apply IH|].
  apply Forall_forall. intros x Hx.
  apply list_elem_of_fmap in Hx as (k & -> & Hk). apply elem_of_seq in Hk. lia.
Qed.

Lemma omap_labels {B} (T : gmap Z B) (l : list B) (a : nat) :
  (∀ k, (k < length l)%nat → T !! Z.of_nat (S (a + k)) = l !! k) →
  omap (fun id => T !! id) ((fun k => Z.of_nat (S k)) <$> seq a (length l)) = l.
Proof.
  revert a. induction l as [|x l IH]; intros a Hl; [done|].
  simpl. pose proof (Hl 0%nat ltac:(simpl; lia)) as H0.
  rewrite Nat.add_0_r in H0. simpl in H0. rewrite H0. f_equal.
  apply IH. intros k Hk. specialize (Hl (S k) ltac:(simpl; lia)).
  simpl in Hl. rewrite <- Hl. do 3 f_equal. lia.
Qed.

(** What [_extract_solution] returns on a grid that holds footprints: the
    placements of the footprints, in the order in which they were
    written. *)
Lemma extract_solution_exact (H W : nat) (g : Grid) (rects : list Footprint)
    (problem : PackingProblem) :
  grid_inv H W g rects → (0 < H)%nat →
  extract_solution g problem = map (tile_of problem) rects.
Proof.
  intros Hinv HH.
  destruct (extract_tiles_exact H W g rects problem Hinv HH) as [Hexact Hall].
  unfold extract_solution.
  set (T := extract_tiles g problem) in *.
  assert (Hkeys : merge_sort Z.le (elements (dom T))
                  = (fun k => Z.of_nat (S k)) <$> seq 0 (length rects)).
  { apply (StronglySorted_unique Z.le).
    - apply StronglySorted_merge_sort; apply _.
    - apply StronglySorted_labels.
    - rewrite merge_sort_Permutation. apply NoDup_Permutation.
      + apply NoDup_elements.
      + apply NoDup_fmap_2; [|apply NoDup_seq]. intros a b Hab. lia.
      + intros x. rewrite elem_of_elements, elem_of_dom, list_elem_of_fmap. split.
        * intros [t Ht]. destruct (Hexact _ _ Ht) as (k & ft & -> & Hk & _).
          exists k. split; [done|]. apply elem_of_seq.
          apply lookup_lt_Some in Hk. lia.
        * intros (k & -> & Hk). apply elem_of_seq in Hk.
          destruct (lookup_lt_is_Some_2 rects k ltac:(lia)) as [ft Hft].
          rewrite (Hall k ft Hft). by eexists. }
  rewrite Hkeys.
  rewrite <- (length_map (tile_of problem) rects).
  apply omap_labels. intros k Hk. rewrite length_map in Hk.
  destruct (lookup_lt_is_Some_2 rects k Hk) as [ft Hft].
  rewrite Nat.add_0_l, (Hall k ft Hft). change (map ?f ?l) with (f <$> l).
  by rewrite list_lookup_fmap, Hft.
Qed.


(** *** What the search records *)

Section Recorded.
Variable expired : nat → bool.
Variable problem : PackingProblem.
Variable max_solutions : Z.
Hypothesis Hvalid : valid_problem problem.

Let H := Z.to_nat (container_h problem).
Let W := Z.to_nat (container_w problem).

(** The search with its bookkeeping: [tiles_left] is the budget minus the
    number of footprints on the grid, and every solution it appends is
    recorded on a full grid or with the budget used up. *)
Lemma backtrack_solve_recorded (fuel : nat) :
  ∀ (g : Grid) (rects : list Footprint) (tiles_left : Z)
    (sols : list (list TilePosition)) (polls : nat),
    grid_inv H W g rects → Forall (search_sized problem) rects →
    tiles_left = tile_budget problem - Z.of_nat (length rects) →
    (0 <= tile_budget problem → 0 <= tiles_left) →
    (zeros g < fuel)%nat →
    Forall (recorded problem) sols →
    ∃ sols' polls',
      backtrack_solve expired fuel g tiles_left (Z.of_nat (S (length rects)))
                      sols polls problem max_solutions = Some (g, sols', polls') ∧
      Forall (recorded problem) sols'.
Proof.
  destruct (CoreFacts.valid_problem_dims problem Hvalid) as (Hcw & Hch & Htw & Hth & _ & _).
  assert (HH : (0 < H)%nat) by (subst H; lia).
  induction fuel as [|fuel IH];
    intros g rects tiles_left sols polls Hinv Hsized Hleft Hnonneg Hz Hsols; [lia|].
  pose proof (gi_shaped _ _ _ _ Hinv) as Hs.
  assert (Hextract : find_first_empty g = None ∨ tiles_left = 0 →
            Forall (recorded problem) (sols ++ [extract_solution g problem])).
  { intros Hwhy. apply Forall_app. split; [done|]. apply Forall_singleton.
    exists g, rects. split; [done|]. split; [done|]. split; [done|].
    split; [lia|]. destruct Hwhy as [Hfull|H0]; [by left|right; lia]. }
  rewrite backtrack_solve_unfold.
  destruct (expired polls); [by eauto|].
  destruct (Z.of_nat (length sols) >=? max_solutions); [by eauto|].
  destruct (find_first_empty g) as [[row col]|] eqn:Hfind;
    [|eexists _, _; split; [done|]; apply Hextract; by left].
  destruct (Z.eqb_spec tiles_left 0) as [H0|Hpos];
    [eexists _, _; split; [done|]; apply Hextract; by right|].
  cbv zeta.
  assert (Hbranch : ∀ (h w : nat) sols0 polls0,
    (0 < h)%nat → (0 < w)%nat → search_sized problem (row, col, h, w) →
    Forall (recorded problem) sols0 →
    can_place g row col h w = true →
    ∃ sols' polls',
      backtrack_solve expired fuel
        (place_tile g row col h w (Z.of_nat (S (length rects))))
        (tiles_left - 1) (Z.of_nat (S (length rects)) + 1) sols0 polls0
        problem max_solutions
      = Some (place_tile g row col h w (Z.of_nat (S (length rects))), sols', polls') ∧
      Forall (recorded problem) sols').
  { intros h w sols0 polls0 Hh Hw Hsz Hsols0 Hcan.
    replace (Z.of_nat (S (length rects)) + 1)
      with (Z.of_nat (S (length (rects ++ [(row, col, h, w)]))))
      by (rewrite length_app; simpl; lia).
    apply IH; [by apply grid_inv_place_tile| | | | |done].
    - apply Forall_app. split; [done|]. by apply Forall_singleton.
    - rewrite length_app. simpl. lia.
    - lia.
    - pose proof (zeros_place_tile H W g row col h w (Z.of_nat (S (length rects)))
                    Hs HH Hcan Hh Hw ltac:(lia)).
      lia. }
  assert (Hsz1 : search_sized problem
                   (row, col, Z.to_nat (tile_h problem), Z.to_nat (tile_w problem)))
    by (by left).
  assert (Hsz2 : allow_rotation problem && negb (tile_w problem =? tile_h problem) = true →
                 search_sized problem
                   (row, col, Z.to_nat (tile_w problem), Z.to_nat (tile_h problem))).
  { intros Hrot. apply andb_true_iff in Hrot as [Ha Hne].
    apply negb_true_iff, Z.eqb_neq in Hne. by right. }
  destruct (can_place g row col (Z.to_nat (tile_h problem)) (Z.to_nat (tile_w problem)))
    eqn:Hcan1.
  - destruct (Hbranch (Z.to_nat (tile_h problem)) (Z.to_nat (tile_w problem))
                       sols (S polls) ltac:(lia) ltac:(lia) Hsz1 Hsols Hcan1)
      as (sols1 & polls1 & -> & Hsols1).
    simpl. rewrite (remove_place_tile H W) by done.
    destruct (allow_rotation problem && negb (tile_w problem =? tile_h problem)) eqn:Erot;
      simpl; [|by eauto].
    destruct (can_place g row col (Z.to_nat (tile_w problem)) (Z.to_nat (tile_h problem)))
      eqn:Hcan2; [|by eauto].
    destruct (Hbranch (Z.to_nat (tile_w problem)) (Z.to_nat (tile_h problem))
                       sols1 polls1 ltac:(lia) ltac:(lia) (Hsz2 eq_refl) Hsols1 Hcan2)
      as (sols2 & polls2 & -> & Hsols2).
    simpl. rewrite (remove_place_tile H W) by done. by eauto.
  - simpl.
    destruct (allow_rotation problem && negb (tile_w problem =? tile_h problem)) eqn:Erot;
      simpl; [|by eauto].
    destruct (can_place g row col (Z.to_nat (tile_w problem)) (Z.to_nat (tile_h problem)))
      eqn:Hcan2; [|by eauto].
    destruct (Hbranch (Z.to_nat (tile_w problem)) (Z.to_nat (tile_h problem))
                       sols (S polls) ltac:(lia) ltac:(lia) (Hsz2 eq_refl) Hsols Hcan2)
      as (sols2 & polls2 & -> & Hsols2).
    simpl. rewrite (remove_place_tile H W) by done. by eauto.
Qed.

Lemma backtrack_solve_all_optimal_recorded :
  ∃ solutions,
    backtrack_solve_all_optimal expired problem max_solutions = Some solutions ∧
    ∀ s, s ∈ solutions →
      recorded problem (tile_positions s) ∧
      sol_container_w s = container_w problem ∧
      sol_container_h s = container_h problem.
Proof.
  pose proof (SolverBounds.theoretical_max_tiles_pos problem Hvalid) as Hmax.
  assert (Hrun : ∃ sols polls,
            backtrack_solve expired (backtrack_fuel problem) (new_grid problem)
                            (tile_budget problem) 1 [] 0 problem max_solutions
            = Some (new_grid problem, sols, polls) ∧
            Forall (recorded problem) sols).
  { apply (backtrack_solve_recorded (backtrack_fuel problem) (new_grid problem) []).
    - apply grid_inv_new_grid.
    - constructor.
    - simpl. lia.
    - done.
    - pose proof (zeros_le_cells problem (new_grid problem) (shaped_new_grid problem)).
      unfold backtrack_fuel. subst H W. lia.
    - constructor. }
  destruct Hrun as (sols & polls & Hrun & Hsols).
  unfold backtrack_solve_all_optimal. rewrite Hrun. simpl.
  destruct sols as [|s0 sols].
  - exists []. split; [done|]. intros s Hs. by apply elem_of_nil in Hs.
  - eexists. split; [done|].
    intros s Hs. apply list_elem_of_fmap in Hs as (positions & -> & Hpos). simpl.
    split; [|done].
    apply elem_of_py_take, list_elem_of_filter in Hpos as [_ Hpos].
    rewrite Forall_forall in Hsols. by apply Hsols.
Qed.
End Recorded.


Lemma find_first_empty_None (H W : nat) (g : Grid) (i j : nat) :
  shaped H W g → (0 < H)%nat → find_first_empty g = None →
  (i < H)%nat → (j < W)%nat → cell g i j ≠ 0.
Proof.
  intros Hs HH Hnone Hi Hj. unfold find_first_empty in Hnone.
  pose proof (find_none _ _ Hnone (i, j)) as Hf.
  apply Z.eqb_neq. apply Hf.
  apply list_elem_of_In, (elem_of_grid_cells H W); done.
Qed.

Lemma tile_budget_nonzero (problem : PackingProblem) :
  valid_problem problem → tile_budget problem ≠ 0.
Proof.
  intros Hvalid. pose proof (SolverBounds.theoretical_max_tiles_pos problem Hvalid).
  unfold tile_budget. destruct (max_tiles problem) as [m|]; [|lia].
  destruct (Z.eqb_spec m 0); lia.
Qed.

(** The placement of a footprint the search wrote is legal for the
    validator unless the tile is square and rotation is not allowed: a
    square tile is always labelled "rotated". *)
Lemma tile_of_legal (problem : PackingProblem) (r c h w : nat) :
  0 < tile_w problem → 0 < tile_h problem →
  search_sized problem (r, c, h, w) →
  (r + h <= Z.to_nat (container_h problem))%nat →
  (c + w <= Z.to_nat (container_w problem))%nat →
  Validation.tile_legal problem (tile_of problem (r, c, h, w)) ↔
  (tile_w problem = tile_h problem → allow_rotation problem = true).
Proof.
  intros Htw Hth Hsz Hr Hc. unfold tile_of, Validation.tile_legal.
  destruct Hsz as [[-> ->]|(Hrot & Hne & -> & ->)]; rewrite !Z2Nat.id by lia.
  - destruct (Z.eqb_spec (tile_w problem) (tile_h problem)) as [Heq|Hne]; simpl.
    + rewrite Heq, Z.eqb_refl. split.
      * intros (_ & _ & _ & _ & _ & _ & [(Ho & _)|(_ & Hrot & _)]); done.
      * intros Hrot. repeat split; try lia. right. split; [done|].
        split; [by apply Hrot|]. lia.
    + split; [done|]. intros _.
      repeat split; try lia. left. split; [|lia].
      destruct (Z.eqb_spec (tile_h problem) (tile_w problem)); [lia|done].
  - rewrite !Z.eqb_refl. simpl. split; [done|]. intros _.
    repeat split; try lia. right. done.
Qed.

(** What a recorded solution is like. *)
Lemma recorded_spec (problem : PackingProblem) (sol : list TilePosition) :
  valid_problem problem → recorded problem sol →
  placements_ok problem sol ∧
  (∀ t, t ∈ sol →
     Validation.tile_legal problem t ↔
     (tile_w problem = tile_h problem → allow_rotation problem = true)) ∧
  1 <= Z.of_nat (length sol) ∧
  (0 <= tile_budget problem → Z.of_nat (length sol) <= tile_budget problem) ∧
  (covers_container problem sol ∨ Z.of_nat (length sol) = tile_budget problem).
Proof.
  intros Hvalid (g & rects & Hinv & Hsized & -> & Hle & Hwhy).
  destruct (CoreFacts.valid_problem_dims problem Hvalid) as (Hcw & Hch & Htw & Hth & _ & _).
  set (H := Z.to_nat (container_h problem)) in *.
  set (W := Z.to_nat (container_w problem)) in *.
  assert (HH : (0 < H)%nat) by (subst H; lia).
  assert (HW : (0 < W)%nat) by (subst W; lia).
  pose proof (extract_solution_ok g rects problem Hch Hcw Hinv) as Hok.
  rewrite (extract_solution_exact H W g rects problem Hinv HH) in *.
  rewrite length_map.
  assert (Hcover : find_first_empty g = None →
            covers_container problem (map (tile_of problem) rects)).
  { intros Hfull x y Hx Hy.
    pose proof (find_first_empty_None H W g (Z.to_nat y) (Z.to_nat x)
                  (gi_shaped _ _ _ _ Hinv) HH Hfull ltac:(subst H; lia)
                  ltac:(subst W; lia)) as Hne.
    destruct (gi_label H W g rects Hinv (Z.to_nat y) (Z.to_nat x)
                ltac:(subst H; lia) ltac:(subst W; lia) Hne)
      as (k & [[[r c] h] w] & Hk & [Hi Hj]).
    exists (tile_of problem (r, c, h, w)). split.
    - apply list_elem_of_fmap. eexists. split; [done|]. by eapply list_elem_of_lookup_2.
    - simpl. lia. }
  split; [done|]. split; [|split; [|split; [done|]]].
  - intros t Ht. apply list_elem_of_fmap in Ht as ([[[r c] h] w] & -> & Hft).
    apply list_elem_of_lookup_1 in Hft as [k Hk].
    pose proof (gi_bounds H W g rects Hinv k r c h w Hk) as (_ & _ & Hr & Hc).
    apply tile_of_legal; [done..| | |].
    + rewrite Forall_forall in Hsized. apply Hsized. by eapply list_elem_of_lookup_2.
    + done.
    + done.
  - destruct Hwhy as [Hfull|Hbudget].
    + destruct (Hcover Hfull 0 0 ltac:(lia) ltac:(lia)) as (t & Ht & _).
      destruct rects; [by apply elem_of_nil in Ht|]. simpl. lia.
    + pose proof (tile_budget_nonzero problem Hvalid). lia.
  - destruct Hwhy as [Hfull|Hbudget]; [left; by apply Hcover|by right].
Qed.

(** [BacktrackSolver.solve] hands back the first solution of
    [solve_all_optimal(problem, max_solutions=1)], or the zero-tile
    fallback when that list is empty. *)
Lemma backtrack_solve_best_recorded (expired : nat → bool) (problem : PackingProblem) :
  valid_problem problem →
  ∃ s, backtrack_solve_best expired problem = Some s ∧
       sol_container_w s = container_w problem ∧
       sol_container_h s = container_h problem ∧
       ((backtrack_solve_all_optimal expired problem 1 = Some [] ∧ tile_positions s = []) ∨
        recorded problem (tile_positions s)).
Proof.
  intros Hvalid.
  destruct (backtrack_solve_all_optimal_recorded expired problem 1 Hvalid)
    as (solutions & Hrun & Hrec).
  unfold backtrack_solve_best. rewrite Hrun. simpl.
  destruct solutions as [|s rest].
  - eexists. split; [done|]. simpl. split; [done|]. split; [done|]. by left.
  - exists s. split; [done|].
    destruct (Hrec s ltac:(by left)) as (Hr & Hw & Hh). split; [done|]. split; [done|].
    by right.
Qed.

(** X22: every solution [BacktrackSolver.solve_all_optimal] returns is
    non-empty and was recorded on a full grid or with the budget used up:
    its tiles cover every unit cell of the container, or their number is
    the tile budget; with a non-negative budget it never has more tiles
    than the budget.  [BacktrackSolver.solve] returns such a solution too,
    or else the zero-tile fallback, and that only when
    [solve_all_optimal(problem, max_solutions=1)] returns the empty list. *)
Theorem X22_backtracking_returns_only_full_or_budget_solutions
    (expired : nat → bool) (problem : PackingProblem) (max_solutions : Z) :
  valid_problem problem →
  (∃ solutions,
     backtrack_solve_all_optimal expired problem max_solutions = Some solutions ∧
     ∀ s, s ∈ solutions →
       1 <= num_tiles s ∧
       (0 <= tile_budget problem → num_tiles s <= tile_budget problem) ∧
       (covers_container problem (tile_positions s) ∨ num_tiles s = tile_budget problem)) ∧
  (∃ s,
     backtrack_solve_best expired problem = Some s ∧
     ((num_tiles s = 0 ∧ backtrack_solve_all_optimal expired problem 1 = Some []) ∨
      (1 <= num_tiles s ∧
       (0 <= tile_budget problem → num_tiles s <= tile_budget problem) ∧
       (covers_container problem (tile_positions s) ∨ num_tiles s = tile_budget problem)))).
Proof.
  intros Hvalid. split.
  - destruct (backtrack_solve_all_optimal_recorded expired problem max_solutions Hvalid)
      as (solutions & Hrun & Hrec).
    exists solutions. split; [done|]. intros s Hs.
    destruct (Hrec s Hs) as (Hr & _ & _).
    destruct (recorded_spec problem _ Hvalid Hr) as (_ & _ & H1 & H2 & H3).
    done.
  - destruct (backtrack_solve_best_recorded expired problem Hvalid)
      as (s & Hrun & _ & _ & [[Hnone Hnil]|Hr]).
    + exists s. split; [done|]. left. split; [|done].
      unfold num_tiles. by rewrite Hnil.
    + exists s. split; [done|]. right.
      destruct (recorded_spec problem _ Hvalid Hr) as (_ & _ & H1 & H2 & H3).
      done.
Qed.

Lemma X22_backtracking_returns_only_full_or_budget_solutions_witness :
  let problem := mkProblem 4 2 2 1 None true true in
  valid_problem problem ∧
  (∃ solutions,
     backtrack_solve_all_optimal (fun _ => false) problem 3 = Some solutions ∧
     ∀ s, s ∈ solutions →
       1 <= num_tiles s ∧
       (0 <= tile_budget problem → num_tiles s <= tile_budget problem) ∧
       (covers_container problem (tile_positions s) ∨ num_tiles s = tile_budget problem)) ∧
  (∃ s,
     backtrack_solve_best (fun _ => false) problem = Some s ∧
     ((num_tiles s = 0 ∧
       backtrack_solve_all_optimal (fun _ => false) problem 1 = Some []) ∨
      (1 <= num_tiles s ∧
       (0 <= tile_budget problem → num_tiles s <= tile_budget problem) ∧
       (covers_container problem (tile_positions s) ∨ num_tiles s = tile_budget problem)))).
Proof.
  intros problem.
  assert (Hvalid : valid_problem problem) by reflexivity.
  split; [exact Hvalid|].
  exact (X22_backtracking_returns_only_full_or_budget_solutions
           (fun _ => false) problem 3 Hvalid).
Defined.

(** When a recorded solution passes the validator. *)
Lemma recorded_validates (problem : PackingProblem) (s : PackingSolution) :
  valid_problem problem →
  recorded problem (tile_positions s) →
  sol_container_w s = container_w problem →
  sol_container_h s = container_h problem →
  Validation.validate_solution s problem = (true, []) ↔
  (∀ m, max_tiles problem = Some m → 1 <= m) ∧
  (tile_w problem = tile_h problem → allow_rotation problem = true).
Proof.
  intros Hvalid Hr Hw Hh.
  destruct (recorded_spec problem _ Hvalid Hr) as ([Hin Hpair] & Hlegal & H1 & H2 & _).
  destruct (ValidationFacts.validate_solution_spec s problem) as [-> _].
  pose proof (tile_budget_nonzero problem Hvalid) as Hb0.
  pose proof (SolverBounds.theoretical_max_tiles_pos problem Hvalid) as Hmax.
  unfold Validation.solution_legal, num_tiles in *. split.
  - intros (_ & _ & Htiles & _ & Hcap). split.
    + intros m Hm. specialize (Hcap m Hm). lia.
    + destruct (tile_positions s) as [|t l] eqn:E; [simpl in H1; lia|].
      apply (Hlegal t ltac:(by left)). apply Htiles. by left.
  - intros [Hcap Hsq]. split; [done|]. split; [done|]. split; [|split].
    + intros t Ht. by apply Hlegal.
    + intros i j t1 t2 Hij Hi Hj. apply (Hpair i j); [lia|done..].
    + intros m Hm. specialize (Hcap m Hm).
      unfold tile_budget in H2. rewrite Hm in H2.
      destruct (Z.eqb_spec m 0); lia.
Qed.

(** X23: a solution [BacktrackSolver.solve_all_optimal] returns, and a
    solution with at least one tile that [BacktrackSolver.solve] returns,
    passes [validate_solution] for its own problem exactly when
    [max_tiles] is absent or at least 1 and the tile is not a square with
    rotation disallowed: [_extract_solution] labels every square tile
    "rotated", which the validator rejects when rotation is not allowed.
    The zero-tile fallback of [solve] passes exactly when [max_tiles] is
    absent or not negative. *)
Theorem X23_backtracking_solution_validates_unless_square_unrotatable
    (expired : nat → bool) (problem : PackingProblem) (max_solutions : Z) :
  valid_problem problem →
  (∃ solutions,
     backtrack_solve_all_optimal expired problem max_solutions = Some solutions ∧
     ∀ s, s ∈ solutions →
       Validation.validate_solution s problem = (true, []) ↔
       (∀ m, max_tiles problem = Some m → 1 <= m) ∧
       (tile_w problem = tile_h problem → allow_rotation problem = true)) ∧
  (∃ s,
     backtrack_solve_best expired problem = Some s ∧
     (num_tiles s ≠ 0 →
        Validation.validate_solution s problem = (true, []) ↔
        (∀ m, max_tiles problem = Some m → 1 <= m) ∧
        (tile_w problem = tile_h problem → allow_rotation problem = true)) ∧
     (num_tiles s = 0 →
        Validation.validate_solution s problem = (true, []) ↔
        (∀ m, max_tiles problem = Some m → 0 <= m))).
Proof.
  intros Hvalid. split.
  - destruct (backtrack_solve_all_optimal_recorded expired problem max_solutions Hvalid)
      as (solutions & Hrun & Hrec).
    exists solutions. split; [done|]. intros s Hs.
    destruct (Hrec s Hs) as (Hr & Hw & Hh).
    by apply recorded_validates.
  - destruct (backtrack_solve_best_recorded expired problem Hvalid)
      as (s & Hrun & Hw & Hh & Hcase).
    exists s. split; [done|].
    assert (Hempty : tile_positions s = [] →
              Validation.validate_solution s problem = (true, []) ↔
              (∀ m, max_tiles problem = Some m → 0 <= m)).
    { intros Hnil.
      destruct (ValidationFacts.validate_solution_spec s problem) as [-> _].
      unfold Validation.solution_legal, num_tiles. rewrite Hnil. simpl. split.
      - intros (_ & _ & _ & _ & Hcap). done.
      - intros Hcap. split; [done|]. split; [done|]. split; [|split; [|done]].
        + intros t Ht. by apply elem_of_nil in Ht.
        + intros i j t1 t2 _ Hi. by rewrite lookup_nil in Hi. }
    destruct Hcase as [[_ Hnil]|Hr].
    + split; [|intros _; by apply Hempty].
      intros Hne. exfalso. apply Hne. unfold num_tiles. by rewrite Hnil.
    + split; [intros _; by apply recorded_validates|].
      intros H0. destruct (recorded_spec problem _ Hvalid Hr) as (_ & _ & H1 & _).
      unfold num_tiles in H0. lia.
Qed.

Lemma X23_backtracking_solution_validates_unless_square_unrotatable_witness :
  let problem := mkProblem 2 2 1 1 None false true in
  valid_problem problem ∧
  (∃ solutions,
     backtrack_solve_all_optimal (fun _ => false) problem 3 = Some solutions ∧
     ∀ s, s ∈ solutions →
       Validation.validate_solution s problem = (true, []) ↔
       (∀ m, max_tiles problem = Some m → 1 <= m) ∧
       (tile_w problem = tile_h problem → allow_rotation problem = true)) ∧
  (∃ s,
     backtrack_solve_best (fun _ => false) problem = Some s ∧
     (num_tiles s ≠ 0 →
        Validation.validate_solution s problem = (true, []) ↔
        (∀ m, max_tiles problem = Some m → 1 <= m) ∧
        (tile_w problem = tile_h problem → allow_rotation problem = true)) ∧
     (num_tiles s = 0 →
        Validation.validate_solution s problem = (true, []) ↔
        (∀ m, max_tiles problem = Some m → 0 <= m))).
Proof.
  intros problem.
  assert (Hvalid : valid_problem problem) by reflexivity.
  split; [exact Hvalid|].
  exact (X23_backtracking_solution_validates_unless_square_unrotatable
           (fun _ => false) problem 3 Hvalid).
Defined.

End BacktrackFacts.

(* ===================================================================== *)
(** ** All optimal arrangements of the Mathematical solver *)
(* ===================================================================== *)

Module OptimalFacts.
Import Core Solvers Solution SolverFacts.

(** The bounding box of the tiles of an arrangement. *)
Lemma grid_positions_bounding_box (problem : PackingProblem) (a : Arrangement) :
  0 < tile_w problem → 0 < tile_h problem →
  let '(rows, cols, start_x, start_y, _) := a in
  1 <= rows → 1 <= cols →
  grid_positions problem a ≠ [] ∧
  min_x (grid_positions problem a) = start_x ∧
  min_y (grid_positions problem a) = start_y ∧
  max_x (grid_positions problem a) = start_x + cols * tile_w problem ∧
  max_y (grid_positions problem a) = start_y + rows * tile_h problem.
Proof.
  intros Htw Hth. destruct a as [[[[rows cols] sx] sy] total]. intros Hr Hc.
  set (ps := grid_positions problem (rows, cols, sx, sy, total)).
  assert (Hin : ∀ r c, 0 <= r < rows → 0 <= c < cols →
            (sx + c * tile_w problem, sy + r * tile_h problem,
             tile_w problem, tile_h problem, "original") ∈ ps).
  { intros r c Hr' Hc'. apply elem_of_grid_positions. exists r, c. done. }
  assert (Hall : ∀ t, t ∈ ps →
            ∃ r c, 0 <= r < rows ∧ 0 <= c < cols ∧
              t = (sx + c * tile_w problem, sy + r * tile_h problem,
                   tile_w problem, tile_h problem, "original")).
  { intros t Ht. by apply elem_of_grid_positions in Ht. }
  assert (Hne : ps ≠ []).
  { intros E. specialize (Hin 0 0 ltac:(lia) ltac:(lia)). rewrite E in Hin.
    by apply elem_of_nil in Hin. }
  assert (Hmap : ∀ f : TilePosition → Z, map f ps ≠ []).
  { intros f. destruct ps; [done|]. simpl. done. }
  split; [done|]. unfold min_x, min_y, max_x, max_y. repeat split.
  - apply Z.le_antisymm.
    + apply GeometryFacts.py_min_le. apply list_elem_of_fmap.
      eexists. split; [|apply (Hin 0 0); lia]. simpl. lia.
    + apply GeometryFacts.py_min_glb; [apply Hmap|]. intros x Hx.
      apply list_elem_of_fmap in Hx as (t & -> & Ht).
      destruct (Hall t Ht) as (r & c & ? & ? & ->). simpl. nia.
  - apply Z.le_antisymm.
    + apply GeometryFacts.py_min_le. apply list_elem_of_fmap.
      eexists. split; [|apply (Hin 0 0); lia]. simpl. lia.
    + apply GeometryFacts.py_min_glb; [apply Hmap|]. intros x Hx.
      apply list_elem_of_fmap in Hx as (t & -> & Ht).
      destruct (Hall t Ht) as (r & c & ? & ? & ->). simpl. nia.
  - apply Z.le_antisymm.
    + apply GeometryFacts.py_max_lub; [apply Hmap|]. intros x Hx.
      apply list_elem_of_fmap in Hx as (t & -> & Ht).
      destruct (Hall t Ht) as (r & c & ? & ? & ->). simpl. nia.
    + apply GeometryFacts.py_max_ge. apply list_elem_of_fmap.
      eexists. split; [|apply (Hin 0 (cols - 1)); lia]. simpl. lia.
  - apply Z.le_antisymm.
    + apply GeometryFacts.py_max_lub; [apply Hmap|]. intros x Hx.
      apply list_elem_of_fmap in Hx as (t & -> & Ht).
      destruct (Hall t Ht) as (r & c & ? & ? & ->). simpl. nia.
    + apply GeometryFacts.py_max_ge. apply list_elem_of_fmap.
      eexists. split; [|apply (Hin (rows - 1) 0); lia]. simpl. lia.
Qed.

(** The solution laid out from an arrangement the solver found. *)
Lemma arrangement_solution (problem : PackingProblem) (a : Arrangement) :
  0 < tile_w problem → 0 < tile_h problem →
  a ∈ find_rectangular_arrangements problem →
  let s := mkSolution (grid_positions problem a)
             (container_w problem) (container_h problem) "Mathematical" in
  num_tiles s = arr_total a ∧ 1 <= arr_total a ∧ is_centered s = true.
Proof.
  intros Htw Hth Ha. apply SolverBounds.elem_of_find_rectangular_arrangements in Ha.
  pose proof (SolverBounds.length_grid_positions problem a) as Hlen.
  pose proof (grid_positions_bounding_box problem a Htw Hth) as Hbox.
  destruct a as [[[[rows cols] sx] sy] total].
  destruct Ha as (Hr & Hc & _ & Hw & Hh & Hsx & Hsy & Ht).
  destruct (Hbox Hr Hc) as (Hne & Hminx & Hminy & Hmaxx & Hmaxy).
  cbv zeta. unfold num_tiles, arr_total. cbn [tile_positions]. rewrite Hlen by lia.
  split; [lia|]. split; [nia|].
  unfold is_centered, bounding_box.
  cbn [tile_positions sol_container_w sol_container_h].
  destruct (grid_positions problem (rows, cols, sx, sy, total)) as [|t0 l0] eqn:E; [done|].
  rewrite <- E in *. rewrite Hminx, Hminy, Hmaxx, Hmaxy.
  apply andb_true_iff. split; apply Z.leb_le.
  - replace (sx + cols * tile_w problem - sx) with (cols * tile_w problem) by lia. lia.
  - replace (sy + rows * tile_h problem - sy) with (rows * tile_h problem) by lia. lia.
Qed.

Lemma py_max_totals (a : Arrangement) (l : list Arrangement) :
  py_max (map arr_total (a :: l)) = arr_total (max_by_total a l).
Proof.
  apply Z.le_antisymm.
  - apply GeometryFacts.py_max_lub; [done|]. intros x Hx.
    apply list_elem_of_fmap in Hx as (b & -> & Hb).
    by apply SolverBounds.max_by_total_max.
  - apply GeometryFacts.py_max_ge. apply list_elem_of_fmap.
    eexists. split; [done|]. apply max_by_total_elem.
Qed.

Lemma length_py_take {A} (n : Z) (l : list A) :
  0 <= n → Z.of_nat (length (py_take n l)) <= n.
Proof.
  intros Hn. unfold py_take. destruct (Z.ltb_spec n 0); [lia|].
  rewrite length_take. lia.
Qed.

Lemma py_take_nonempty {A} (n : Z) (l : list A) :
  1 <= n → l ≠ [] → py_take n l ≠ [].
Proof.
  intros Hn Hl. unfold py_take. destruct (Z.ltb_spec n 0); [lia|].
  destruct l as [|x l]; [done|]. destruct (Z.to_nat n) eqn:E; [lia|]. done.
Qed.

(** X24: the solution of [MathematicalSolver.solve] and every solution
    of [solve_all_optimal] satisfy [is_centered]; the solutions of
    [solve_all_optimal] all have exactly the tile count of [solve], there
    are at most [max_solutions] of them when that is not negative, and at
    least one when [max_solutions] is at least 1 and [solve] places a
    tile. *)
Theorem X24_mathematical_solutions_centered_and_all_optimal
    (problem : PackingProblem) (max_solutions : Z) :
  valid_problem problem →
  is_centered (mathematical_solve problem) = true ∧
  (∀ s, s ∈ mathematical_solve_all_optimal problem max_solutions →
     num_tiles s = num_tiles (mathematical_solve problem) ∧ is_centered s = true) ∧
  (0 <= max_solutions →
   Z.of_nat (length (mathematical_solve_all_optimal problem max_solutions))
   <= max_solutions) ∧
  (1 <= max_solutions → 1 <= num_tiles (mathematical_solve problem) →
   mathematical_solve_all_optimal problem max_solutions ≠ []).
Proof.
  intros Hvalid.
  destruct (CoreFacts.valid_problem_dims problem Hvalid) as (_ & _ & Htw & Hth & _ & _).
  unfold mathematical_solve, mathematical_solve_all_optimal.
  destruct (find_rectangular_arrangements problem) as [|a l] eqn:E.
  { split; [done|]. split; [intros s Hs; by apply elem_of_nil in Hs|].
    split; [simpl; lia|]. unfold num_tiles. simpl. lia. }
  assert (Hbest : max_by_total a l ∈ find_rectangular_arrangements problem).
  { rewrite E. apply max_by_total_elem. }
  destruct (arrangement_solution problem _ Htw Hth Hbest) as (Hn & Hpos & Hcen).
  cbv zeta in Hn, Hcen. split; [exact Hcen|].
  rewrite py_max_totals. split; [|split].
  - intros s Hs. apply list_elem_of_fmap in Hs as (b & -> & Hb).
    apply elem_of_py_take, list_elem_of_filter in Hb as [Hmax Hb].
    rewrite <- E in Hb.
    destruct (arrangement_solution problem b Htw Hth Hb) as (Hnb & _ & Hcb).
    cbv zeta in Hnb, Hcb. split; [|exact Hcb]. rewrite Hnb, Hn. exact Hmax.
  - intros Hm. rewrite length_map. by apply length_py_take.
  - intros Hm _ Hnil. apply fmap_nil_inv in Hnil.
    apply (py_take_nonempty max_solutions _ Hm) in Hnil; [done|].
    intros Hf.
    assert (Hin : max_by_total a l ∈
              filter (fun arr => arr_total arr = arr_total (max_by_total a l)) (a :: l)).
    { apply list_elem_of_filter. split; [done|apply max_by_total_elem]. }
    rewrite Hf in Hin. by apply elem_of_nil in Hin.
Qed.

Lemma X24_mathematical_solutions_centered_and_all_optimal_witness :
  let problem := mkProblem 7 5 3 2 None true true in
  valid_problem problem ∧
  is_centered (mathematical_solve problem) = true ∧
  (∀ s, s ∈ mathematical_solve_all_optimal problem 3 →
     num_tiles s = num_tiles (mathematical_solve problem) ∧ is_centered s = true) ∧
  (0 <= 3 →
   Z.of_nat (length (mathematical_solve_all_optimal problem 3)) <= 3) ∧
  (1 <= 3 → 1 <= num_tiles (mathematical_solve problem) →
   mathematical_solve_all_optimal problem 3 ≠ []).
Proof.
  intros problem.
  assert (Hvalid : valid_problem problem) by reflexivity.
  split; [exact Hvalid|].
  exact (X24_mathematical_solutions_centered_and_all_optimal problem 3 Hvalid).
Defined.

End OptimalFacts.

(* ===================================================================== *)
(** ** The hybrid solver: all optimal solutions *)
(* ===================================================================== *)

Module HybridAllFacts.
Import Core Solvers Symmetry Solution HybridAll SolverFacts.

(** Whatever tier wins, [HybridSolver.solve] returns one of the tier
    solutions, tagged or not: a property that all of them have and that
    the tag keeps holds of the result. *)
Lemma hybrid_solve_pick (P : PackingSolution → Prop) (expired : nat → bool)
    (ilp_solver : option (PackingProblem → PackingSolution))
    (over70 over80 : bool) (problem : PackingProblem) (bt : PackingSolution) :
  (∀ s, P s → P (tag_hybrid s)) →
  P (mathematical_solve problem) →
  P (mkSolution [] (container_w problem) (container_h problem) "Hybrid") →
  P (mkSolution (solve_center_out problem) (container_w problem) (container_h problem)
       "Greedy_center_out") →
  backtrack_solve_best expired problem = Some bt → P bt →
  (∀ ilp_solve, ilp_solver = Some ilp_solve → P (ilp_solve problem)) →
  ∃ s, hybrid_solve expired ilp_solver over70 over80 problem = Some s ∧ P s.
Proof.
  intros Htag Hmath Hempty Hgreedy Hbt HPbt Hilp.
  unfold hybrid_solve. rewrite Hbt. simpl.
  set (math := mathematical_solve problem) in *.
  set (empty := mkSolution [] (container_w problem) (container_h problem) "Hybrid") in *.
  set (best1 := if num_tiles math >? 0 then math else empty).
  assert (H1 : P best1) by (unfold best1; by destruct (num_tiles math >? 0)).
  destruct ((num_tiles math >? 0) && _); [eexists; split; [done|]; by apply Htag|].
  set (greedy := mkSolution (solve_center_out problem) (container_w problem)
                   (container_h problem) "Greedy_center_out") in *.
  set (best2 := if num_tiles greedy >? num_tiles best1 then greedy else best1).
  assert (H2 : P best2) by (unfold best2; by destruct (num_tiles greedy >? num_tiles best1)).
  destruct (num_tiles best2 >=? theoretical_max_tiles problem);
    [eexists; split; [done|]; by apply Htag|].
  destruct over70; [eexists; split; [done|]; done|].
  set (best3 := if num_tiles bt >? num_tiles best2 then bt else best2).
  assert (H3 : P best3) by (unfold best3; by destruct (num_tiles bt >? num_tiles best2)).
  destruct ((num_tiles bt >? num_tiles best2) && _);
    [eexists; split; [done|]; by apply Htag|].
  destruct over80; [eexists; split; [done|]; done|].
  destruct ilp_solver as [ilp_solve|]; [|eexists; split; [done|]; done].
  eexists; split; [done|]. apply Htag.
  destruct (num_tiles (ilp_solve problem) >? num_tiles best3); [|done].
  by apply Hilp.
Qed.

Lemma backtrack_solve_all_optimal_presentable (expired : nat → bool)
    (problem : PackingProblem) (max_solutions : Z) :
  valid_problem problem →
  ∃ solutions,
    backtrack_solve_all_optimal expired problem max_solutions = Some solutions ∧
    ∀ s, s ∈ solutions → presentable problem s.
Proof.
  intros Hvalid.
  destruct (BacktrackFacts.backtrack_solve_all_optimal_recorded expired problem
              max_solutions Hvalid) as (solutions & Hrun & Hrec).
  exists solutions. split; [done|]. intros s Hs.
  destruct (Hrec s Hs) as (Hr & Hw & Hh).
  destruct (BacktrackFacts.recorded_spec problem _ Hvalid Hr) as (Hok & _).
  done.
Qed.

Lemma backtrack_solve_best_presentable (expired : nat → bool) (problem : PackingProblem) :
  valid_problem problem →
  ∃ s, backtrack_solve_best expired problem = Some s ∧ presentable problem s.
Proof.
  intros Hvalid.
  destruct (backtrack_solve_all_optimal_presentable expired problem 1 Hvalid)
    as (sols & Hrun & Hok).
  unfold backtrack_solve_best. rewrite Hrun. simpl.
  destruct sols as [|s sols].
  - eexists. split; [done|]. split; [apply placements_ok_nil|done].
  - exists s. split; [done|]. apply Hok. by left.
Qed.

Lemma mathematical_solve_all_optimal_presentable (problem : PackingProblem)
    (max_solutions : Z) (s : PackingSolution) :
  valid_problem problem →
  s ∈ mathematical_solve_all_optimal problem max_solutions → presentable problem s.
Proof.
  intros Hvalid Hs.
  destruct (CoreFacts.valid_problem_dims problem Hvalid) as (_ & _ & Htw & Hth & _ & _).
  split; [by eapply mathematical_solve_all_optimal_ok|].
  unfold mathematical_solve_all_optimal in Hs.
  destruct (find_rectangular_arrangements problem); [by apply elem_of_nil in Hs|].
  by apply list_elem_of_fmap in Hs as (b & -> & _).
Qed.

Lemma hybrid_solve_presentable (expired : nat → bool)
    (ilp_solver : option (PackingProblem → PackingSolution))
    (over70 over80 : bool) (problem : PackingProblem) :
  valid_problem problem →
  (∀ ilp_solve, ilp_solver = Some ilp_solve → presentable problem (ilp_solve problem)) →
  ∃ s, hybrid_solve expired ilp_solver over70 over80 problem = Some s ∧
       presentable problem s.
Proof.
  intros Hvalid Hilp.
  destruct (CoreFacts.valid_problem_dims problem Hvalid) as (_ & _ & Htw & Hth & _ & _).
  destruct (backtrack_solve_best_presentable expired problem Hvalid) as (bt & Hbt & HPbt).
  apply (hybrid_solve_pick (presentable problem) expired ilp_solver over70 over80 problem bt);
    try done.
  - split; [by apply mathematical_solve_ok|].
    unfold mathematical_solve. by destruct (find_rectangular_arrangements problem).
  - split; [apply placements_ok_nil|done].
  - split; [by apply solve_center_out_ok|done].
Qed.

(** Centering, as [solve_all_optimal] does it. *)
Lemma recenter_spec (problem : PackingProblem) (s : PackingSolution) :
  presentable problem s →
  presentable problem (recenter problem s) ∧
  (require_centering problem = true → is_centered (recenter problem s) = true).
Proof.
  intros (Hok & Hw & Hh). unfold recenter.
  destruct (require_centering problem); simpl; [|done].
  destruct (is_centered s) eqn:E; simpl; [done|].
  split.
  - split; [|done]. simpl. by apply GeometryFacts.center_solution_placements_ok.
  - intros _. rewrite Hw, Hh. apply GeometryFacts.is_centered_center_solution.
Qed.

Lemma is_centered_tag_hybrid (s : PackingSolution) :
  is_centered (tag_hybrid s) = is_centered s.
Proof. done. Qed.

(** X25: [HybridSolver.solve_all_optimal] returns, whatever the time tests
    and the deadline polls answer, a list of solutions whose tiles lie
    inside the container and do not overlap, each carrying the problem's
    container dimensions and a name of the form Hybrid(...), and each
    satisfying [is_centered] when the problem requires centering; the ILP
    tier, when present, is assumed to return valid placements in a
    solution with the problem's container dimensions. *)
Theorem X25_hybrid_all_optimal_valid_centered_and_tagged
    (expired_solve expired_all : nat → bool)
    (ilp_solver : option (PackingProblem → PackingSolution))
    (over70 over80 : bool) (problem : PackingProblem) (max_solutions : Z) :
  valid_problem problem →
  (∀ ilp_solve, ilp_solver = Some ilp_solve → presentable problem (ilp_solve problem)) →
  ∃ solutions,
    hybrid_solve_all_optimal expired_solve expired_all ilp_solver over70 over80
                             problem max_solutions = Some solutions ∧
    ∀ s, s ∈ solutions →
      presentable problem s ∧
      (require_centering problem = true → is_centered s = true) ∧
      ∃ name, solver_name s = "Hybrid(" +:+ name +:+ ")".
Proof.
  intros Hvalid Hilp.
  destruct (hybrid_solve_presentable expired_solve ilp_solver over70 over80 problem
              Hvalid Hilp) as (best & Hbest & HPbest).
  destruct (backtrack_solve_all_optimal_presentable expired_all problem max_solutions
              Hvalid) as (bts & Hbts & HPbts).
  unfold hybrid_solve_all_optimal. rewrite Hbest. simpl.
  destruct (num_tiles best =? 0).
  { exists []. split; [done|]. intros s Hs. by apply elem_of_nil in Hs. }
  (* the candidates chosen by the branch on the target *)
  assert (Hcand : ∃ cands,
    (if num_tiles best <=? 10
     then backtrack_solve_all_optimal expired_all problem max_solutions
     else
       if below_target (mathematical_solve_all_optimal problem max_solutions)
                       (num_tiles best)
       then
         backtrack_solve_all_optimal expired_all problem max_solutions
         ≫= (fun solutions =>
               if below_target solutions (num_tiles best)
               then Some [best] else Some solutions)
       else Some (mathematical_solve_all_optimal problem max_solutions)) = Some cands ∧
    ∀ s, s ∈ cands → presentable problem s).
  { destruct (num_tiles best <=? 10); [by eauto|].
    destruct (below_target (mathematical_solve_all_optimal problem max_solutions) _).
    - rewrite Hbts. simpl. destruct (below_target bts _); [|by eauto].
      eexists. split; [done|]. intros s Hs. by apply list_elem_of_singleton in Hs as ->.
    - eexists. split; [done|]. intros s.
      by apply mathematical_solve_all_optimal_presentable. }
  destruct Hcand as (cands & -> & HPc). simpl.
  eexists. split; [done|]. intros s Hs.
  apply list_elem_of_fmap in Hs as (s1 & -> & Hs1).
  apply list_elem_of_fmap in Hs1 as (s0 & -> & Hs0).
  assert (HP0 : presentable problem s0).
  { apply HPc. destruct (1 <? length cands)%nat; [|done].
    rewrite SymmetryFacts.deduplicate_solutions_kept in Hs0.
    eapply elem_of_sublist; [done|apply SymmetryFacts.kept_sublist]. }
  destruct (recenter_spec problem s0 HP0) as [HP1 Hcen].
  split; [exact HP1|]. split; [exact Hcen|]. by eexists.
Qed.

Lemma X25_hybrid_all_optimal_valid_centered_and_tagged_witness :
  let problem := mkProblem 5 4 3 2 None true true in
  let expired := fun _ : nat => false in
  let ilp_solver := @None (PackingProblem → PackingSolution) in
  valid_problem problem ∧
  (∀ ilp_solve, ilp_solver = Some ilp_solve → presentable problem (ilp_solve problem)) ∧
  ∃ solutions,
    hybrid_solve_all_optimal expired expired ilp_solver false false problem 3
    = Some solutions ∧
    ∀ s, s ∈ solutions →
      presentable problem s ∧
      (require_centering problem = true → is_centered s = true) ∧
      ∃ name, solver_name s = "Hybrid(" +:+ name +:+ ")".
Proof.
  intros problem expired ilp_solver.
  assert (Hvalid : valid_problem problem) by reflexivity.
  assert (Hilp : ∀ ilp_solve, ilp_solver = Some ilp_solve →
             presentable problem (ilp_solve problem)) by (intros f Hf; inversion Hf).
  split; [exact Hvalid|]. split; [exact Hilp|].
  exact (X25_hybrid_all_optimal_valid_centered_and_tagged
           expired expired ilp_solver false false problem 3 Hvalid Hilp).
Defined.

End HybridAllFacts.

(* ===================================================================== *)
(** ** The helpers of packing.py *)
(* ===================================================================== *)

Module LegacyFacts.
Import Core Packing InsertionSort.

Lemma pair_le_spec (a b : Z * Z) :
  pair_le a b = true ↔ a.1 < b.1 ∨ (a.1 = b.1 ∧ a.2 <= b.2).
Proof.
  destruct a as [a1 a2], b as [b1 b2]. unfold pair_le. simpl.
  destruct (Z.eqb_spec a1 b1); simpl; rewrite ?Z.ltb_lt, ?Z.leb_le; lia.
Qed.

Lemma sort_pairs_insertion (l : list (Z * Z)) : sort_pairs l = insertion_sort pair_le l.
Proof.
  unfold sort_pairs, insertion_sort. induction l as [|a l IH]; simpl; [done|].
  rewrite IH. generalize (foldr (insertion pair_le) [] l). intros l'.
  induction l' as [|b l' IH']; simpl; [done|]. by rewrite IH'.
Qed.

Lemma sort_pairs_perm (l : list (Z * Z)) : sort_pairs l ≡ₚ l.
Proof. rewrite sort_pairs_insertion. apply SortFacts.insertion_sort_perm. Qed.

Lemma sort_pairs_unique (l1 l2 : list (Z * Z)) :
  l1 ≡ₚ l2 → sort_pairs l1 = sort_pairs l2.
Proof.
  intros Hperm. rewrite !sort_pairs_insertion.
  apply SortFacts.insertion_sort_unique; [| | |done].
  - intros a b. rewrite !pair_le_spec. lia.
  - intros a b c. rewrite !pair_le_spec. lia.
  - intros [a1 a2] [b1 b2] _ _. rewrite !pair_le_spec. simpl. intros H1 H2.
    f_equal; lia.
Qed.

(** X26: the [are_solutions_equivalent] of packing.py compares tile sizes
    only: two placement lists are equivalent exactly when their lists of
    (width, height) pairs are permutations of one another, wherever the
    tiles are placed and whatever their orientation strings say. *)
Theorem X26_legacy_equivalence_compares_sizes_only (sol1 sol2 : list TilePosition) :
  are_solutions_equivalent sol1 sol2 = true ↔ tile_dims sol1 ≡ₚ tile_dims sol2.
Proof.
  unfold are_solutions_equivalent, solution_to_signature. split.
  - destruct (negb _); [done|]. intros H. apply bool_decide_eq_true in H.
    by rewrite <- (sort_pairs_perm (tile_dims sol1)), H, sort_pairs_perm.
  - intros Hperm.
    assert (Hlen : length sol1 = length sol2).
    { apply Permutation_length in Hperm. unfold tile_dims in Hperm.
      by rewrite !length_map in Hperm. }
    rewrite Hlen, Nat.eqb_refl. simpl.
    apply bool_decide_eq_true. by apply sort_pairs_unique.
Qed.

(** X27: [normalize_solution] of packing.py returns exactly what
    [center_solution] of src/core/geometry.py returns, for every placement
    list and container size. *)
Theorem X27_normalize_solution_is_center_solution
    (positions : list TilePosition) (container_w container_h : Z) :
  normalize_solution positions container_w container_h
  = center_solution positions container_w container_h.
Proof.
  unfold normalize_solution, center_solution, translate_solution,
    min_x, min_y, max_x, max_y.
  destruct positions as [|t l] eqn:E; [done|]. rewrite <- E. clear E.
  set (coords := map (fun '(x, y, w, h, _) => (x, y, w, h)) positions).
  assert (H1 : map (fun '(x, y, w, h) => x) coords = map tp_x positions).
  { unfold coords. rewrite map_map. apply map_ext. by intros [[[[x y] w] h] o]. }
  assert (H2 : map (fun '(x, y, w, h) => y) coords = map tp_y positions).
  { unfold coords. rewrite map_map. apply map_ext. by intros [[[[x y] w] h] o]. }
  assert (H3 : map (fun '(x, y, w, h) => x + w) coords
               = map (fun t => tp_x t + tp_w t) positions).
  { unfold coords. rewrite map_map. apply map_ext. by intros [[[[x y] w] h] o]. }
  assert (H4 : map (fun '(x, y, w, h) => y + h) coords
               = map (fun t => tp_y t + tp_h t) positions).
  { unfold coords. rewrite map_map. apply map_ext. by intros [[[[x y] w] h] o]. }
  by rewrite H1, H2, H3, H4.
Qed.

End LegacyFacts.

(* ===================================================================== *)
(** ** The canonical form is a minimum *)
(* ===================================================================== *)

Module MinimalFacts.
Import Core Symmetry.

(** *** Python's order on tuples of tiles is a strict order *)

Lemma string_compare_refl (s : string) : String.compare s s = Eq.
Proof.
  induction s as [|a s IH]; simpl; [done|].
  unfold Ascii.compare. by rewrite N.compare_refl.
Qed.

Lemma string_compare_lt_trans (s1 s2 s3 : string) :
  String.compare s1 s2 = Lt → String.compare s2 s3 = Lt → String.compare s1 s3 = Lt.
Proof.
  revert s2 s3. induction s1 as [|a1 s1 IH]; intros [|a2 s2] [|a3 s3]; simpl; try done.
  unfold Ascii.compare.
  destruct (N.compare_spec (Ascii.N_of_ascii a1) (Ascii.N_of_ascii a2)) as [E12|L12|G12]; try done;
  destruct (N.compare_spec (Ascii.N_of_ascii a2) (Ascii.N_of_ascii a3)) as [E23|L23|G23]; try done.
  - rewrite E12, E23, N.compare_refl. apply IH.
  - intros _ _. by rewrite E12, (proj2 (N.compare_lt_iff _ _) L23).
  - intros _ _. by rewrite <- E23, (proj2 (N.compare_lt_iff _ _) L12).
  - intros _ _.
    assert (L13 : (Ascii.N_of_ascii a1 < Ascii.N_of_ascii a3)%N) by lia.
    by rewrite (proj2 (N.compare_lt_iff _ _) L13).
Qed.

Lemma string_ltb_irrefl (s : string) : String.ltb s s = false.
Proof. unfold String.ltb. by rewrite string_compare_refl. Qed.

Lemma string_ltb_trans (s1 s2 s3 : string) :
  String.ltb s1 s2 = true → String.ltb s2 s3 = true → String.ltb s1 s3 = true.
Proof.
  unfold String.ltb.
  destruct (String.compare s1 s2) eqn:E1; try done.
  destruct (String.compare s2 s3) eqn:E2; try done.
  by rewrite (string_compare_lt_trans s1 s2 s3).
Qed.

Lemma tile_lt_spec (a b : TilePosition) :
  tile_lt a b = true ↔
  let '(x1, y1, w1, h1, o1) := a in
  let '(x2, y2, w2, h2, o2) := b in
  x1 < x2 ∨ (x1 = x2 ∧ (y1 < y2 ∨ (y1 = y2 ∧ (w1 < w2 ∨ (w1 = w2 ∧
    (h1 < h2 ∨ (h1 = h2 ∧ String.ltb o1 o2 = true))))))).
Proof.
  destruct a as [[[[x1 y1] w1] h1] o1], b as [[[[x2 y2] w2] h2] o2]. unfold tile_lt.
  destruct (Z.eqb_spec x1 x2), (Z.eqb_spec y1 y2), (Z.eqb_spec w1 w2), (Z.eqb_spec h1 h2);
    simpl; rewrite ?Z.ltb_lt; try lia.
  subst. split.
  - intros Ho. do 4 (right; split; [done|]). done.
  - intros [?|[_ [?|[_ [?|[_ [?|[_ ?]]]]]]]]; (lia || done).
Qed.

Lemma tile_lt_irrefl (a : TilePosition) : tile_lt a a = false.
Proof.
  apply not_true_is_false. rewrite tile_lt_spec.
  destruct a as [[[[x y] w] h] o]. rewrite string_ltb_irrefl. lia.
Qed.

Lemma tile_lt_trans (a b c : TilePosition) :
  tile_lt a b = true → tile_lt b c = true → tile_lt a c = true.
Proof.
  rewrite !tile_lt_spec.
  destruct a as [[[[x1 y1] w1] h1] o1], b as [[[[x2 y2] w2] h2] o2],
           c as [[[[x3 y3] w3] h3] o3].
  intros H1 H2.
  destruct (decide (x1 = x2 ∧ y1 = y2 ∧ w1 = w2 ∧ h1 = h2 ∧
                    x2 = x3 ∧ y2 = y3 ∧ w2 = w3 ∧ h2 = h3)) as [Heq|Hne]; [|lia].
  destruct Heq as (-> & -> & -> & -> & -> & -> & -> & ->).
  do 4 (right; split; [done|]).
  apply (string_ltb_trans o1 o2 o3).
  - destruct H1 as [?|[_ [?|[_ [?|[_ [?|[_ ?]]]]]]]]; (lia || done).
  - destruct H2 as [?|[_ [?|[_ [?|[_ [?|[_ ?]]]]]]]]; (lia || done).
Qed.

Lemma tiles_lt_irrefl (a : list TilePosition) : tiles_lt a a = false.
Proof.
  induction a as [|t a IH]; simpl; [done|].
  by rewrite bool_decide_eq_true_2.
Qed.

Lemma tiles_lt_trans (a b c : list TilePosition) :
  tiles_lt a b = true → tiles_lt b c = true → tiles_lt a c = true.
Proof.
  revert b c. induction a as [|t1 a IH]; intros [|t2 b] [|t3 c]; simpl; try done.
  case_bool_decide as E12; case_bool_decide as E23; case_bool_decide as E13;
    subst; try done.
  - apply IH.
  - intros H1 H2. exfalso.
    pose proof (tile_lt_trans _ _ _ H1 H2) as H3. by rewrite tile_lt_irrefl in H3.
  - apply tile_lt_trans.
Qed.

(** [min] with [<] returns an element that nothing in the list precedes. *)
Lemma min_form_minimal (f : list TilePosition) (fs : list (list TilePosition))
    (x : list TilePosition) :
  x ∈ f :: fs → tiles_lt x (min_form (f :: fs)) = false.
Proof.
  simpl.
  assert (Hgen : ∀ fs cur (seen : list (list TilePosition)),
            (∀ s, s ∈ seen → tiles_lt s cur = false) →
            ∀ s, s ∈ seen ++ fs →
              tiles_lt s (foldl (fun cur item => if tiles_lt item cur then item else cur)
                                cur fs) = false).
  { clear. induction fs as [|item fs IH]; intros cur seen Hseen s Hs; simpl.
    - rewrite app_nil_r in Hs. by apply Hseen.
    - apply (IH _ (seen ++ [item])); [|by rewrite <- app_assoc].
      intros s' Hs'. apply elem_of_app in Hs' as [Hs'|Hs'].
      + destruct (tiles_lt item cur) eqn:E; [|by apply Hseen].
        apply not_true_is_false. intros Hlt.
        pose proof (tiles_lt_trans _ _ _ Hlt E) as Hc. by rewrite Hseen in Hc.
      + apply list_elem_of_singleton in Hs' as ->.
        destruct (tiles_lt item cur) eqn:E; [apply tiles_lt_irrefl|done]. }
  intros Hx. apply (Hgen fs f [f]); [|done].
  intros s Hs. apply list_elem_of_singleton in Hs as ->. apply tiles_lt_irrefl.
Qed.

(** X28: for a non-empty placement list, [get_canonical_form] returns
    one of the eight sorted transforms it builds, and none of the eight
    is smaller in Python's lexicographic order on tuples of tiles. *)
Theorem X28_canonical_form_is_least_sorted_transform
    (positions : list TilePosition) (cw ch : Z) :
  positions ≠ [] →
  get_canonical_form positions cw ch ∈ map sorted_by_key (transforms positions cw ch) ∧
  ∀ f, f ∈ map sorted_by_key (transforms positions cw ch) →
       tiles_lt f (get_canonical_form positions cw ch) = false.
Proof.
  intros Hne. unfold get_canonical_form.
  destruct positions as [|t l] eqn:E; [done|]. rewrite <- E. clear E Hne.
  change (map sorted_by_key (transforms positions cw ch))
    with (sorted_by_key positions :: map sorted_by_key (tail (transforms positions cw ch))).
  split.
  - apply CanonicalFacts.min_form_elem.
  - intros f. apply min_form_minimal.
Qed.

Lemma X28_canonical_form_is_least_sorted_transform_witness :
  let positions := two_tiles in
  positions ≠ [] ∧
  get_canonical_form positions 20 20 ∈ map sorted_by_key (transforms positions 20 20) ∧
  ∀ f, f ∈ map sorted_by_key (transforms positions 20 20) →
       tiles_lt f (get_canonical_form positions 20 20) = false.
Proof.
  intros positions.
  assert (Hne : positions ≠ []) by done.
  split; [exact Hne|].
  exact (X28_canonical_form_is_least_sorted_transform positions 20 20 Hne).
Defined.

End MinimalFacts.

(* ===================================================================== *)
(** ** Backtracking: the shared grid and the shared list of solutions *)
(* ===================================================================== *)

Module FrameFacts.
Import Core Solvers SolverFacts.

Section Frame.
Variable expired : nat → bool.
Variable problem : PackingProblem.
Variable max_solutions : Z.
Hypothesis Hvalid : valid_problem problem.

Let H := Z.to_nat (container_h problem).
Let W := Z.to_nat (container_w problem).

Lemma backtrack_solve_frame (fuel : nat) :
  ∀ (g : Grid) (rects : list Footprint) (tiles_left : Z)
    (sols : list (list TilePosition)) (polls : nat),
    grid_inv H W g rects → (zeros g < fuel)%nat →
    ∃ new polls',
      backtrack_solve expired fuel g tiles_left (Z.of_nat (S (length rects)))
                      sols polls problem max_solutions
      = Some (g, sols ++ new, polls') ∧
      (polls < polls')%nat.
Proof.
  destruct (CoreFacts.valid_problem_dims problem Hvalid) as (Hcw & Hch & Htw & Hth & _ & _).
  assert (HH : (0 < H)%nat) by (subst H; lia).
  induction fuel as [|fuel IH]; intros g rects tiles_left sols polls Hinv Hz; [lia|].
  pose proof (gi_shaped _ _ _ _ Hinv) as Hs.
  assert (Hstay : ∃ new polls',
            Some (g, sols, S polls) = Some (g, sols ++ new, polls') ∧ (polls < polls')%nat).
  { exists [], (S polls). rewrite app_nil_r. split; [done|lia]. }
  assert (Hrecord : ∃ new polls',
            Some (g, sols ++ [extract_solution g problem], S polls)
            = Some (g, sols ++ new, polls') ∧ (polls < polls')%nat).
  { exists [extract_solution g problem], (S polls). split; [done|lia]. }
  rewrite backtrack_solve_unfold.
  destruct (expired polls); [done|].
  destruct (Z.of_nat (length sols) >=? max_solutions); [done|].
  destruct (find_first_empty g) as [[row col]|] eqn:Hfind; [|done].
  destruct (tiles_left =? 0); [done|].
  cbv zeta.
  assert (Hbranch : ∀ (h w : nat) sols0 polls0,
    (0 < h)%nat → (0 < w)%nat → can_place g row col h w = true →
    ∃ new polls',
      backtrack_solve expired fuel
        (place_tile g row col h w (Z.of_nat (S (length rects))))
        (tiles_left - 1) (Z.of_nat (S (length rects)) + 1) sols0 polls0
        problem max_solutions
      = Some (place_tile g row col h w (Z.of_nat (S (length rects))),
              sols0 ++ new, polls') ∧
      (polls0 < polls')%nat).
  { intros h w sols0 polls0 Hh Hw Hcan.
    replace (Z.of_nat (S (length rects)) + 1)
      with (Z.of_nat (S (length (rects ++ [(row, col, h, w)]))))
      by (rewrite length_app; simpl; lia).
    apply IH; [by apply grid_inv_place_tile|].
    pose proof (zeros_place_tile H W g row col h w (Z.of_nat (S (length rects)))
                  Hs HH Hcan Hh Hw ltac:(lia)).
    lia. }
  destruct (can_place g row col (Z.to_nat (tile_h problem)) (Z.to_nat (tile_w problem)))
    eqn:Hcan1.
  - destruct (Hbranch (Z.to_nat (tile_h problem)) (Z.to_nat (tile_w problem))
                       sols (S polls) ltac:(lia) ltac:(lia) Hcan1)
      as (new1 & polls1 & -> & Hp1).
    simpl. rewrite (remove_place_tile H W) by done.
    destruct (allow_rotation problem && negb (tile_w problem =? tile_h problem)); simpl;
      [|exists new1, polls1; split; [done|lia]].
    destruct (can_place g row col (Z.to_nat (tile_w problem)) (Z.to_nat (tile_h problem)))
      eqn:Hcan2; [|exists new1, polls1; split; [done|lia]].
    destruct (Hbranch (Z.to_nat (tile_w problem)) (Z.to_nat (tile_h problem))
                       (sols ++ new1) polls1 ltac:(lia) ltac:(lia) Hcan2)
      as (new2 & polls2 & -> & Hp2).
    simpl. rewrite (remove_place_tile H W) by done.
    exists (new1 ++ new2), polls2. rewrite app_assoc. split; [done|lia].
  - simpl.
    destruct (allow_rotation problem && negb (tile_w problem =? tile_h problem)); simpl;
      [|done].
    destruct (can_place g row col (Z.to_nat (tile_w problem)) (Z.to_nat (tile_h problem)))
      eqn:Hcan2; [|done].
    destruct (Hbranch (Z.to_nat (tile_w problem)) (Z.to_nat (tile_h problem))
                       sols (S polls) ltac:(lia) ltac:(lia) Hcan2)
      as (new2 & polls2 & -> & Hp2).
    simpl. rewrite (remove_place_tile H W) by done.
    exists new2, polls2. split; [done|lia].
Qed.
End Frame.

(** X29: a call of [_backtrack_solve] on a grid that holds the footprints
    placed so far, labelled 1, 2, ... in order, returns (one unit of
    recursion depth per empty cell suffices) with the shared grid exactly
    as it found it and with the shared list of solutions only extended at
    its end; it polls the clock at least once. *)
Theorem X29_backtracking_restores_grid_and_only_appends
    (expired : nat → bool) (problem : PackingProblem) (max_solutions : Z)
    (fuel : nat) (g : Grid) (rects : list Footprint) (tiles_left : Z)
    (sols : list (list TilePosition)) (polls : nat) :
  valid_problem problem →
  grid_inv (Z.to_nat (container_h problem)) (Z.to_nat (container_w problem)) g rects →
  (zeros g < fuel)%nat →
  ∃ new polls',
    backtrack_solve expired fuel g tiles_left (Z.of_nat (S (length rects)))
                    sols polls problem max_solutions
    = Some (g, sols ++ new, polls') ∧
    (polls < polls')%nat.
Proof. intros Hvalid. by apply backtrack_solve_frame. Qed.

Lemma X29_backtracking_restores_grid_and_only_appends_witness :
  let problem := mkProblem 4 2 2 1 None true true in
  let g := place_tile (new_grid problem) 0 0 1 2 1 in
  let rects := [(0, 0, 1, 2)%nat] : list Footprint in
  valid_problem problem ∧
  grid_inv (Z.to_nat (container_h problem)) (Z.to_nat (container_w problem)) g rects ∧
  (zeros g < 7)%nat ∧
  ∃ new polls',
    backtrack_solve (fun _ => false) 7 g 3 (Z.of_nat (S (length rects)))
                    [] 0 problem 5
    = Some (g, [] ++ new, polls') ∧
    (0 < polls')%nat.
Proof.
  intros problem g rects.
  assert (Hvalid : valid_problem problem) by reflexivity.
  assert (Hinv : grid_inv (Z.to_nat (container_h problem))
                   (Z.to_nat (container_w problem)) g rects).
  { apply (grid_inv_place_tile _ _ (new_grid problem) [] 0 0 1 2);
      [apply grid_inv_new_grid|simpl; lia|lia|lia|reflexivity]. }
  assert (Hz : (zeros g < 7)%nat) by (vm_compute; lia).
  split; [exact Hvalid|]. split; [exact Hinv|]. split; [exact Hz|].
  exact (X29_backtracking_restores_grid_and_only_appends
           (fun _ => false) problem 5 7 g rects 3 [] 0%nat Hvalid Hinv Hz).
Defined.

End FrameFacts.

(* ===================================================================== *)
(** ** detect_symmetry_type: what the five tests report *)
(* ===================================================================== *)

Module SelfSymmetryFacts.
Import Core Symmetry Equivalence.

(** The direct test of the source holds only for rearrangements, and for
    all of them when distinct placements have distinct keys. *)
Lemma positions_equivalent_rearranged (pos1 pos2 : list TilePosition) :
  (positions_equivalent pos1 pos2 = true → pos1 ≡ₚ pos2) ∧
  (key_injective pos1 → pos1 ≡ₚ pos2 → positions_equivalent pos1 pos2 = true).
Proof.
  unfold positions_equivalent. split.
  - destruct (negb _); [done|]. intros H. apply bool_decide_eq_true in H.
    by rewrite <- (CanonicalFacts.sorted_by_key_perm pos1), H,
         CanonicalFacts.sorted_by_key_perm.
  - intros Hinj Hperm. rewrite (Permutation_length Hperm), Nat.eqb_refl. simpl.
    apply bool_decide_eq_true. by apply CanonicalFacts.sorted_by_key_unique.
Qed.

(** C7, as the code has it by design: [detect_symmetry_type] makes five
    tests, not eight -- one for each of the lists [rotate_solution_90],
    [rotate_solution_180], [rotate_solution_270],
    [mirror_solution_horizontal] and [mirror_solution_vertical] return,
    none for the identity or a mirrored quarter turn -- each a direct
    equality of the key-sorted list with the key-sorted original, and a
    name is reported exactly when its test passes.  For the two mirrors
    this reports exactly the self-symmetries of the arrangement: when no
    two distinct placements share position and size, "mirror_horizontal"
    (resp. "mirror_vertical") is reported if and only if the mirrored list
    is a rearrangement of the original. *)
Theorem C7_detect_symmetry_five_direct_tests_mirrors_exact
    (positions : list TilePosition) (cw ch : Z) :
  (∀ name : string,
     name ∈ detect_symmetry_type positions cw ch ↔
       (name = "rotational_90" ∧
          sorted_by_key positions = sorted_by_key (rotate_solution_90 positions cw ch)) ∨
       (name = "rotational_180" ∧
          sorted_by_key positions = sorted_by_key (rotate_solution_180 positions cw ch)) ∨
       (name = "rotational_270" ∧
          sorted_by_key positions = sorted_by_key (rotate_solution_270 positions cw ch)) ∨
       (name = "mirror_horizontal" ∧
          sorted_by_key positions = sorted_by_key (mirror_solution_horizontal positions cw)) ∨
       (name = "mirror_vertical" ∧
          sorted_by_key positions = sorted_by_key (mirror_solution_vertical positions ch))) ∧
  (key_injective positions →
     ("mirror_horizontal" ∈ detect_symmetry_type positions cw ch ↔
        mirror_solution_horizontal positions cw ≡ₚ positions) ∧
     ("mirror_vertical" ∈ detect_symmetry_type positions cw ch ↔
        mirror_solution_vertical positions ch ≡ₚ positions)).
Proof.
  split; [intros name; apply SymmetryFacts.detect_symmetry_type_spec|].
  intros Hinj.
  destruct (positions_equivalent_rearranged positions
              (mirror_solution_horizontal positions cw)) as [Hh1 Hh2].
  destruct (positions_equivalent_rearranged positions
              (mirror_solution_vertical positions ch)) as [Hv1 Hv2].
  assert (Hlen : ∀ l : list TilePosition, length l = length positions →
            (sorted_by_key positions = sorted_by_key l ↔
             positions_equivalent positions l = true)).
  { intros l Hl. symmetry. by apply SymmetryFacts.positions_equivalent_same_length. }
  split.
  - rewrite (SymmetryFacts.detect_symmetry_type_spec positions cw ch "mirror_horizontal").
    rewrite (Hlen (mirror_solution_horizontal positions cw))
      by (unfold mirror_solution_horizontal; by rewrite length_map).
    split.
    + intros [[? _]|[[? _]|[[? _]|[[_ H]|[? _]]]]]; try done.
      symmetry. by apply Hh1.
    + intros Hperm. do 3 right. left. split; [done|]. apply Hh2; [done|by symmetry].
  - rewrite (SymmetryFacts.detect_symmetry_type_spec positions cw ch "mirror_vertical").
    rewrite (Hlen (mirror_solution_vertical positions ch))
      by (unfold mirror_solution_vertical; by rewrite length_map).
    split.
    + intros [[? _]|[[? _]|[[? _]|[[? _]|[_ H]]]]]; try done.
      symmetry. by apply Hv1.
    + intros Hperm. do 4 right. split; [done|]. apply Hv2; [done|by symmetry].
Qed.

Lemma C7_detect_symmetry_five_direct_tests_mirrors_exact_witness :
  let positions := [(0, 0, 3, 2, "original"); (3, 0, 3, 2, "original")] : list TilePosition in
  key_injective positions ∧
  ("mirror_horizontal" ∈ detect_symmetry_type positions 6 2 ↔
     mirror_solution_horizontal positions 6 ≡ₚ positions) ∧
  ("mirror_vertical" ∈ detect_symmetry_type positions 6 2 ↔
     mirror_solution_vertical positions 2 ≡ₚ positions).
Proof.
  intros positions. split; [exact CanonicalFacts.key_injective_two|].
  exact (proj2 (C7_detect_symmetry_five_direct_tests_mirrors_exact positions 6 2)
               CanonicalFacts.key_injective_two).
Defined.

End SelfSymmetryFacts.

(* ===================================================================== *)
(** ** The float arithmetic of [efficiency] *)
(* ===================================================================== *)

Module EfficiencyFacts.
Import Core Solvers.

(** A quotient of at most 1 is rounded to a finite double: the division
    of [efficiency] cannot overflow when the tiles' area is at most the
    container's. *)
Lemma nearest_double_finite (p q : Z) :
  0 <= p → p <= q → ∃ m e, nearest_double p q = Finite m e.
Proof.
  intros Hp Hpq. unfold nearest_double.
  destruct (p =? 0); [by eauto|].
  pose proof (Z.log2_le_mono p q Hpq) as Hlog.
  set (k := Z.log2 p - Z.log2 q).
  assert (Hk : k <= 0) by (subst k; lia).
  set (fl := if q * 2 ^ Z.max 0 k <=? p * 2 ^ Z.max 0 (- k) then k else k - 1).
  assert (Hfl : fl <= 0) by (subst fl; destruct (_ <=? _); lia).
  set (e := Z.max (fl - 52) (-1074)).
  assert (He : e <= -52) by (subst e; lia).
  replace (971 <? e) with false by (symmetry; apply Z.ltb_ge; lia).
  replace (e =? 971) with false by (symmetry; apply Z.eqb_neq; lia).
  simpl. by eauto.
Qed.

(** A container filled exactly has an efficiency of 100.0, and the test
    succeeds. *)
Lemma efficiency_of_full_container (s : PackingSolution) :
  num_tiles s ≠ 0 →
  0 < sol_container_w s * sol_container_h s →
  foldr Z.add 0 (map (fun t => tp_w t * tp_h t) (tile_positions s))
    = sol_container_w s * sol_container_h s →
  efficiency_at_least_95 s = true.
Proof.
  intros Hn Harea Htotal. unfold efficiency_at_least_95.
  destruct (Z.eqb_spec (num_tiles s) 0); [done|].
  rewrite Htotal.
  set (a := sol_container_w s * sol_container_h s) in *.
  replace (0 <? a * a) with true by (symmetry; apply Z.ltb_lt; nia).
  rewrite Z.abs_eq by lia.
  assert (Hq : nearest_double a a = Finite (2 ^ 52) (-52)).
  { unfold nearest_double.
    destruct (Z.eqb_spec a 0); [lia|].
    rewrite Z.sub_diag. simpl Z.max. rewrite Z.pow_0_r, !Z.mul_1_r, Z.leb_refl.
    change (Z.max (0 - 52) (-1074)) with (-52).
    change (Z.max 0 (- -52)) with 52. change (Z.max 0 (-52)) with 0.
    rewrite Z.pow_0_r, Z.mul_1_r.
    unfold round_half_even.
    rewrite (Z.mul_comm a), Z.div_mul, Z.mod_mul by lia.
    replace (2 * 0 <? a) with true by (symmetry; apply Z.ltb_lt; lia).
    reflexivity. }
  rewrite Hq. vm_compute. reflexivity.
Qed.

(** The test is made on rounded floats: a tile of 94999999999999999 cells
    in a container of 10^17 cells covers less than 95 percent, yet the
    rounded product is 95.0 and the test succeeds. *)
Lemma efficiency_test_is_rounded :
  let s := mkSolution [(0, 0, 94999999999999999, 1, "original")]
                      100000000000000000 1 "Mathematical" in
  efficiency_at_least_95 s = true ∧
  100 * 94999999999999999 < 95 * (100000000000000000 * 1).
Proof. split; [vm_compute; reflexivity|lia]. Qed.

End EfficiencyFacts.
